(** * wasp: the binary reader, the tokenizer and the value-type tables

    A shallow embedding of the readers of [src/binary/reader-inl.h], of
    [wasp/binary/read/read_limits.h], of the tokenizer
    ([wasp/text/read/tokenizer-inl.h]) and of the value-type encoding
    ([wasp/binary/encoding/value_type_encoding.h]), with the properties the
    specification states about them.  The function types of the text
    reader, whose implementation is not among the sources, are modelled
    from the specification.

    Conventions.
    - A byte ([u8]) is a [Byte.byte]; [u8v] gives its value in [0, 256).
    - A [SpanU8] is the list of the bytes still ahead of the read pointer:
      [remove_prefix n] is [skipn n].  The offset of a span inside the
      original input is the difference of the two lengths.
    - A W-bit unsigned integer is a [Z] in [0, 2^W), a W-bit signed integer a
      [Z] in [-2^(W-1), 2^(W-1)); every wrap-around is written out.
    - A function that takes a [SpanU8*] and returns [optional<T>] is a
      [Reader T]: it returns the optional value and the advanced span.
    - A function that can also be left by an exception, or whose behaviour
      can be undefined, is a [ReaderX T]; the only allocations followed are
      those whose size the input decides ([std::vector::reserve] in
      [ReadVec]). *)

From Stdlib Require Import ZArith List Bool Lia String Ascii.
From Stdlib Require Import Strings.Byte DecimalString.
Import ListNotations.
Local Open Scope Z_scope.

(* ================================================================== *)
(** * Part I: the model *)
(* ================================================================== *)

(** ** Bytes and spans *)

Module Base.

Definition u8 : Type := Byte.byte.
Definition SpanU8 : Type := list u8.

Definition u8v (b : u8) : Z := Z.of_N (Byte.to_N b).

(** [span.size()] *)
Definition size (data : SpanU8) : Z := Z.of_nat (List.length data).

(** [remove_prefix(n)], for [n <= size()] (the callers check it). *)
Definition remove_prefix (n : Z) (data : SpanU8) : SpanU8 :=
  skipn (Z.to_nat n) data.

(** [SpanU8{data->begin(), n}] *)
Definition subspan0 (n : Z) (data : SpanU8) : SpanU8 :=
  firstn (Z.to_nat n) data.

(** The offset of [rest] inside [orig], when [rest] is a suffix of it. *)
Definition offset_in (orig rest : SpanU8) : Z := size orig - size rest.

(** The integer types [ReadVarInt] is instantiated at. *)
Inductive IntType : Type := U32 | S32 | U64 | S64.

Definition bits (T : IntType) : Z :=
  match T with U32 | S32 => 32 | U64 | S64 => 64 end.

Definition is_signed (T : IntType) : bool :=
  match T with U32 | U64 => false | S32 | S64 => true end.

(** Conversion to the unsigned type of width [bits T]. *)
Definition to_unsigned (T : IntType) (x : Z) : Z := x mod 2 ^ bits T.

(** [static_cast<S>] of a [bits T]-bit unsigned value to the signed type. *)
Definition to_signed (T : IntType) (x : Z) : Z :=
  let x := x mod 2 ^ bits T in
  if x <? 2 ^ (bits T - 1) then x else x - 2 ^ bits T.

(** [static_cast<T>(result)] for an unsigned [result]. *)
Definition static_cast (T : IntType) (x : Z) : Z :=
  if is_signed T then to_signed T x else to_unsigned T x.

(** The reader monad: [optional<A> f(SpanU8* data)]. *)
Definition Reader (A : Type) : Type := SpanU8 -> option A * SpanU8.

Definition ret {A} (a : A) : Reader A := fun data => (Some a, data).
Definition fail {A} : Reader A := fun data => (None, data).

(** [WASP_READ(var, call)]: return [nullopt] when [call] does. *)
Definition bind {A B} (m : Reader A) (k : A -> Reader B) : Reader B :=
  fun data =>
    match m data with
    | (Some a, data') => k a data'
    | (None, data') => (None, data')
    end.

(** How a call ends: it returns, it is left by an exception, or its
    behaviour is undefined. *)
Inductive Exit (A : Type) : Type :=
| Normal (a : A)
| Thrown (what : string)
| Undef (why : string).
Arguments Normal {A}.
Arguments Thrown {A}.
Arguments Undef {A}.

(** A reader that can be left by an exception: the span is the one reached
    when the call ended. *)
Definition ReaderX (A : Type) : Type := SpanU8 -> Exit (option A) * SpanU8.

(** A reader that throws nothing, among those that can. *)
Definition lift {A} (m : Reader A) : ReaderX A := fun data =>
  let (r, data') := m data in (Normal r, data').

(** [WASP_READ(var, call)] for a [call] that can throw. *)
Definition bindX {A B} (m : ReaderX A) (k : A -> ReaderX B) : ReaderX B :=
  fun data =>
    match m data with
    | (Normal (Some a), data') => k a data'
    | (Normal None, data') => (Normal None, data')
    | (Thrown what, data') => (Thrown what, data')
    | (Undef why, data') => (Undef why, data')
    end.

End Base.

Import Base.

Declare Scope reader_scope.
Delimit Scope reader_scope with reader.
Notation "'WASP_READ' x <- c ;; k" := (bind c (fun x => k))
  (at level 61, x name, c at next level, right associativity) : reader_scope.

(** ** [src/binary/reader-inl.h] *)

Module Reader.

Local Open Scope reader_scope.

Definition ReadU8 : Reader u8 := fun data =>
  match data with
  | [] => (None, data)
  | b :: rest => (Some b, rest)
  end.

Definition ReadBytes (N : Z) : Reader SpanU8 := fun data =>
  if size data <? N then (None, data)
  else (Some (subspan0 N data), remove_prefix N data).

(** [SignExtend<S>(x, N)]: shift the bit [N] up to the sign position in the
    unsigned type, convert, and shift back arithmetically. *)
Definition SignExtend (T : IntType) (x : Z) (N : Z) : Z :=
  let k := bits T - N - 1 in
  Z.shiftr (to_signed T (to_unsigned T (Z.shiftl x k))) k.

Definition kMaxBytes (T : IntType) : Z := (bits T + 6) / 7.
Definition kUsedBitsInLastByte (T : IntType) : Z := bits T - 7 * (kMaxBytes T - 1).
Definition kMaskBits (T : IntType) : Z :=
  kUsedBitsInLastByte T - (if is_signed T then 1 else 0).
(** [u8 kMask = ~((1 << kMaskBits) - 1)] *)
Definition kMask (T : IntType) : Z :=
  Z.land (Z.lnot (Z.shiftl 1 (kMaskBits T) - 1)) 255.
Definition kOnes (T : IntType) : Z := Z.land (kMask T) 127.

(** The body of [for (int i = 0;;)]; [fuel] bounds the iterations and
    [None] is "out of fuel" ([ReadVarInt_loop_total]: [kMaxBytes] is enough). *)
Fixpoint ReadVarInt_loop (T : IntType) (fuel : nat) (i : Z) (result : Z)
  (data : SpanU8) : option (option Z * SpanU8) :=
  match fuel with
  | O => None
  | S fuel' =>
    match ReadU8 data with
    | (None, data') => Some (None, data')
    | (Some b, data') =>
      let byte := u8v b in
      let shift := i * 7 in
      let result :=
        Z.lor result (to_unsigned T (Z.shiftl (Z.land byte 127) shift)) in
      let i := i + 1 in
      if i =? kMaxBytes T then
        if (Z.land byte (kMask T) =? 0)
           || (is_signed T && (Z.land byte (kMask T) =? kOnes T))
        then Some (Some (static_cast T result), data')
        else Some (None, data')
      else if Z.land byte 128 =? 0 then
        Some (Some (if is_signed T then SignExtend T result (6 + shift)
                    else result), data')
      else ReadVarInt_loop T fuel' i result data'
    end
  end.

Definition ReadVarInt (T : IntType) : Reader Z := fun data =>
  match ReadVarInt_loop T (Z.to_nat (kMaxBytes T)) 0 0 data with
  | Some r => r
  | None => (None, data)
  end.

Definition ReadVarU32 : Reader Z := ReadVarInt U32.
Definition ReadIndex : Reader Z := ReadVarU32.
Definition ReadVarS32 : Reader Z := ReadVarInt S32.
Definition ReadVarS64 : Reader Z := ReadVarInt S64.

(** [ReadF32]/[ReadF64]: the four (eight) bytes are copied into the float;
    the value is kept as its little-endian bit pattern. *)
Definition ReadF32 : Reader SpanU8 := ReadBytes 4.
Definition ReadF64 : Reader SpanU8 := ReadBytes 8.

(** The [for (u32 i = 0; i < len; ++i)] of [ReadVec], [n] elements to go. *)
Fixpoint ReadVec_loop {A} (read_element : Reader A) (n : nat) (result : list A)
  : Reader (list A) :=
  match n with
  | O => ret result
  | S n' =>
    WASP_READ elt <- read_element ;;
    ReadVec_loop read_element n' (result ++ [elt])
  end.

(** [std::vector<T>::reserve(len)] asks the allocator for room for [len]
    elements of [T] and is left by [std::length_error] or [std::bad_alloc]
    when it is not given.  Whether it is given is decided outside this code:
    [reserve T len] says it, for every element type and count. *)
Definition Allocator : Type := Type -> Z -> bool.

(** An allocator that refuses nothing. *)
Definition generous : Allocator := fun _ _ => true.

Definition ReadVec (reserve : Allocator) {A} (read_element : Reader A)
  : ReaderX (list A) := fun data =>
  match ReadVarU32 data with
  | (None, data) => (Normal None, data)
  | (Some len, data) =>
    if reserve A len then
      lift (ReadVec_loop read_element (Z.to_nat len) []) data
    else (Thrown "std::vector::reserve", data)
  end.

Definition ReadVecU8 : Reader SpanU8 :=
  WASP_READ len <- ReadVarU32 ;;
  fun data =>
    if len >? size data then (None, data)
    else (Some (subspan0 len data), remove_prefix len data).

Inductive ValType : Type :=
  VT_I32 | VT_I64 | VT_F32 | VT_F64 | VT_Anyfunc | VT_Func | VT_Void.

(** Modelled from the spec: [src/binary/encoding.h] is not among the sources.
    [encoding::ValType] holds the value types as the signed LEB128 reads them
    (spec 4.2, block type: "negative -> encoded value type"), with the
    values of the WebAssembly binary format: the byte 0x7f is -1, and so on. *)
Module EncodingValType.
Definition I32 : Z := -1.
Definition I64 : Z := -2.
Definition F32 : Z := -3.
Definition F64 : Z := -4.
Definition Anyfunc : Z := -16.
Definition Func : Z := -32.
Definition Void : Z := -64.
End EncodingValType.

Definition ReadValType : Reader ValType :=
  WASP_READ val_s32 <- ReadVarS32 ;;
  if val_s32 =? EncodingValType.I32 then ret VT_I32
  else if val_s32 =? EncodingValType.I64 then ret VT_I64
  else if val_s32 =? EncodingValType.F32 then ret VT_F32
  else if val_s32 =? EncodingValType.F64 then ret VT_F64
  else if val_s32 =? EncodingValType.Anyfunc then ret VT_Anyfunc
  else if val_s32 =? EncodingValType.Func then ret VT_Func
  else if val_s32 =? EncodingValType.Void then ret VT_Void
  else fail.

(** [struct Limits { u32 min; optional<u32> max; }] *)
Record Limits : Type := mkLimits { min : Z; max : option Z }.

Definition kFlags_HasMax : Z := 1.

Definition ReadLimits : Reader Limits :=
  WASP_READ flags <- ReadVarU32 ;;
  WASP_READ min <- ReadVarU32 ;;
  if negb (Z.land flags kFlags_HasMax =? 0) then
    WASP_READ max <- ReadVarU32 ;;
    ret (mkLimits min (Some max))
  else
    ret (mkLimits min None).

Record MemoryType : Type := mkMemoryType { limits : Limits }.

Definition ReadMemoryType : Reader MemoryType :=
  WASP_READ limits <- ReadLimits ;;
  ret (mkMemoryType limits).

(** *** [ReadExpr] *)

(** Modelled from the spec: [src/binary/encoding.h] is not among the sources.
    [encoding::Opcode] holds the opcode bytes of the WebAssembly binary format
    (spec 3: the sentinel [End] is 0x0B); the enumerators appear below in the
    order of the [case] labels of [ReadExpr], each with its byte. *)
Module EncodingOpcode.
Definition End : u8 := x0b.
Definition Block : u8 := x02.
Definition Loop : u8 := x03.
Definition If : u8 := x04.
Definition Else : u8 := x05.

(** "No immediates" *)
Definition bare : list u8 :=
  [ x00 (* Unreachable *); x01 (* Nop *); Else; x0f (* Return *);
    x1a (* Drop *); x1b (* Select *);
    x6a (* I32Add *); x6b (* I32Sub *); x6c (* I32Mul *); x6d (* I32DivS *);
    x6e (* I32DivU *); x6f (* I32RemS *); x70 (* I32RemU *); x71 (* I32And *);
    x72 (* I32Or *); x73 (* I32Xor *); x74 (* I32Shl *); x76 (* I32ShrU *);
    x75 (* I32ShrS *); x78 (* I32Rotr *); x77 (* I32Rotl *);
    x7c (* I64Add *); x7d (* I64Sub *); x7e (* I64Mul *); x7f (* I64DivS *);
    x80 (* I64DivU *); x81 (* I64RemS *); x82 (* I64RemU *); x83 (* I64And *);
    x84 (* I64Or *); x85 (* I64Xor *); x86 (* I64Shl *); x88 (* I64ShrU *);
    x87 (* I64ShrS *); x8a (* I64Rotr *); x89 (* I64Rotl *);
    x92 (* F32Add *); x93 (* F32Sub *); x94 (* F32Mul *); x95 (* F32Div *);
    x96 (* F32Min *); x97 (* F32Max *); x98 (* F32Copysign *);
    xa0 (* F64Add *); xa1 (* F64Sub *); xa2 (* F64Mul *); xa3 (* F64Div *);
    xa4 (* F64Min *); xa5 (* F64Max *); xa6 (* F64Copysign *);
    x46 (* I32Eq *); x47 (* I32Ne *); x48 (* I32LtS *); x4c (* I32LeS *);
    x49 (* I32LtU *); x4d (* I32LeU *); x4a (* I32GtS *); x4e (* I32GeS *);
    x4b (* I32GtU *); x4f (* I32GeU *);
    x51 (* I64Eq *); x52 (* I64Ne *); x53 (* I64LtS *); x57 (* I64LeS *);
    x54 (* I64LtU *); x58 (* I64LeU *); x55 (* I64GtS *); x59 (* I64GeS *);
    x56 (* I64GtU *); x5a (* I64GeU *);
    x5b (* F32Eq *); x5c (* F32Ne *); x5d (* F32Lt *); x5f (* F32Le *);
    x5e (* F32Gt *); x60 (* F32Ge *);
    x61 (* F64Eq *); x62 (* F64Ne *); x63 (* F64Lt *); x65 (* F64Le *);
    x64 (* F64Gt *); x66 (* F64Ge *);
    x67 (* I32Clz *); x68 (* I32Ctz *); x69 (* I32Popcnt *);
    x79 (* I64Clz *); x7a (* I64Ctz *); x7b (* I64Popcnt *);
    x8b (* F32Abs *); x8c (* F32Neg *); x8d (* F32Ceil *); x8e (* F32Floor *);
    x8f (* F32Trunc *); x90 (* F32Nearest *); x91 (* F32Sqrt *);
    x99 (* F64Abs *); x9a (* F64Neg *); x9b (* F64Ceil *); x9c (* F64Floor *);
    x9d (* F64Trunc *); x9e (* F64Nearest *); x9f (* F64Sqrt *);
    xa8 (* I32TruncSF32 *); xaa (* I32TruncSF64 *); xa9 (* I32TruncUF32 *);
    xab (* I32TruncUF64 *); xa7 (* I32WrapI64 *);
    xae (* I64TruncSF32 *); xb0 (* I64TruncSF64 *); xaf (* I64TruncUF32 *);
    xb1 (* I64TruncUF64 *); xac (* I64ExtendSI32 *); xad (* I64ExtendUI32 *);
    xb2 (* F32ConvertSI32 *); xb3 (* F32ConvertUI32 *);
    xb4 (* F32ConvertSI64 *); xb5 (* F32ConvertUI64 *);
    xb6 (* F32DemoteF64 *); xbe (* F32ReinterpretI32 *);
    xb7 (* F64ConvertSI32 *); xb8 (* F64ConvertUI32 *);
    xb9 (* F64ConvertSI64 *); xba (* F64ConvertUI64 *);
    xbb (* F64PromoteF32 *); xbf (* F64ReinterpretI64 *);
    xbc (* I32ReinterpretF32 *); xbd (* I64ReinterpretF64 *);
    x45 (* I32Eqz *); x50 (* I64Eqz *) ].

(** "Type immediate" *)
Definition with_type : list u8 := [ Block; Loop; If ].

(** "Index immediate" *)
Definition with_index : list u8 :=
  [ x0c (* Br *); x0d (* BrIf *); x23 (* GetGlobal *); x20 (* GetLocal *);
    x24 (* SetGlobal *); x21 (* SetLocal *); x10 (* Call *);
    x22 (* TeeLocal *) ].

Definition CallIndirect : u8 := x11.
Definition BrTable : u8 := x0e.

(** "Memarg (alignment, offset) immediates" *)
Definition with_memarg : list u8 :=
  [ x2c (* I32Load8S *); x2d (* I32Load8U *); x2e (* I32Load16S *);
    x2f (* I32Load16U *); x30 (* I64Load8S *); x31 (* I64Load8U *);
    x32 (* I64Load16S *); x33 (* I64Load16U *); x34 (* I64Load32S *);
    x35 (* I64Load32U *); x28 (* I32Load *); x29 (* I64Load *);
    x2a (* F32Load *); x2b (* F64Load *); x3a (* I32Store8 *);
    x3b (* I32Store16 *); x3c (* I64Store8 *); x3d (* I64Store16 *);
    x3e (* I64Store32 *); x36 (* I32Store *); x37 (* I64Store *);
    x38 (* F32Store *); x39 (* F64Store *) ].

Definition I32Const : u8 := x41.
Definition I64Const : u8 := x42.
Definition F32Const : u8 := x43.
Definition F64Const : u8 := x44.
End EncodingOpcode.

Definition mem_u8 (b : u8) (l : list u8) : bool := existsb (Byte.eqb b) l.

(** The groups of [case] labels of the [switch (opcode)] in [ReadExpr]. *)
Inductive OpcodeCase : Type :=
| CaseEnd | CaseBare | CaseType | CaseIndex | CaseCallIndirect | CaseBrTable
| CaseMemarg | CaseI32Const | CaseI64Const | CaseF32Const | CaseF64Const
| CaseDefault.

Definition switch_opcode (opcode : u8) : OpcodeCase :=
  if Byte.eqb opcode EncodingOpcode.End then CaseEnd
  else if mem_u8 opcode EncodingOpcode.bare then CaseBare
  else if mem_u8 opcode EncodingOpcode.with_type then CaseType
  else if mem_u8 opcode EncodingOpcode.with_index then CaseIndex
  else if Byte.eqb opcode EncodingOpcode.CallIndirect then CaseCallIndirect
  else if Byte.eqb opcode EncodingOpcode.BrTable then CaseBrTable
  else if mem_u8 opcode EncodingOpcode.with_memarg then CaseMemarg
  else if Byte.eqb opcode EncodingOpcode.I32Const then CaseI32Const
  else if Byte.eqb opcode EncodingOpcode.I64Const then CaseI64Const
  else if Byte.eqb opcode EncodingOpcode.F32Const then CaseF32Const
  else if Byte.eqb opcode EncodingOpcode.F64Const then CaseF64Const
  else CaseDefault.

Inductive HookResult : Type := Continue | Stop.

(** The calls [ReadExpr] makes on its hooks, one constructor per method. *)
Inductive ExprEvent : Type :=
| OnOpcodeBare (opcode : u8)
| OnOpcodeType (opcode : u8) (type : ValType)
| OnOpcodeIndex (opcode : u8) (index : Z)
| OnOpcodeCallIndirect (opcode : u8) (index : Z) (reserved : u8)
| OnOpcodeBrTable (opcode : u8) (targets : list Z) (default_target : Z)
| OnOpcodeMemarg (opcode : u8) (align_log2 offset : Z)
| OnOpcodeI32Const (opcode : u8) (value : Z)
| OnOpcodeI64Const (opcode : u8) (value : Z)
| OnOpcodeF32Const (opcode : u8) (value : SpanU8)
| OnOpcodeF64Const (opcode : u8) (value : SpanU8).

(** The [Hooks] template parameter: an object with state [H]. *)
Record ExprHooks (H : Type) : Type := mkExprHooks {
  OnOpcode : ExprEvent -> H -> HookResult * H;
  OnError : string -> H -> H
}.
Arguments OnOpcode {H}.
Arguments OnError {H}.

(** [absl::StrFormat("%02x", b)] *)
Definition hex_digit (n : Z) : ascii :=
  if n <? 10 then ascii_of_nat (Z.to_nat (48 + n))
  else ascii_of_nat (Z.to_nat (87 + n)).

Definition hex02 (b : u8) : string :=
  String (hex_digit (u8v b / 16)) (String (hex_digit (u8v b mod 16)) EmptyString).

(** The ends of [int], 32 bits wide. *)
Definition INT_MAX : Z := 2 ^ 31 - 1.
Definition INT_MIN : Z := - 2 ^ 31.

Section ReadExpr.
Context (reserve : Allocator).
Context {H : Type} (hooks : ExprHooks H).

(** A step of [ReadExpr]: the span and the hooks are updated; [Normal None]
    is a [return nullopt]. *)
Definition ExprM (A : Type) : Type :=
  SpanU8 -> H -> Exit (option A) * SpanU8 * H.

Definition eret {A} (a : A) : ExprM A :=
  fun data h => (Normal (Some a), data, h).

Definition ebind {A B} (m : ExprM A) (k : A -> ExprM B) : ExprM B :=
  fun data h =>
    match m data h with
    | (Normal (Some a), data', h') => k a data' h'
    | (Normal None, data', h') => (Normal None, data', h')
    | (Thrown what, data', h') => (Thrown what, data', h')
    | (Undef why, data', h') => (Undef why, data', h')
    end.

(** [WASP_READ_OR_ERROR(var, call, desc)]; an exception that leaves [call]
    leaves the macro. *)
Definition WASP_READ_OR_ERROR {A} (call : ReaderX A) (desc : string)
  : ExprM A :=
  fun data h =>
    match call data with
    | (Normal (Some a), data') => (Normal (Some a), data', h)
    | (Normal None, data') =>
      (Normal None, data',
       OnError hooks (String.append "Unable to read " desc) h)
    | (Thrown what, data') => (Thrown what, data', h)
    | (Undef why, data') => (Undef why, data', h)
    end.

(** [WASP_HOOK(call)] *)
Definition WASP_HOOK (ev : ExprEvent) : ExprM unit :=
  fun data h =>
    match OnOpcode hooks ev h with
    | (Continue, h') => (Normal (Some tt), data, h')
    | (Stop, h') => (Normal None, data, h')
    end.

(** [++ends_expected] and [--ends_expected] on an [int]: past either end of
    the type the behaviour is undefined. *)
Definition increment (ends_expected : Z) : ExprM Z :=
  fun data h =>
    if ends_expected =? INT_MAX then
      (Undef "signed overflow of ends_expected", data, h)
    else (Normal (Some (ends_expected + 1)), data, h).

Definition decrement (ends_expected : Z) : ExprM Z :=
  fun data h =>
    if ends_expected =? INT_MIN then
      (Undef "signed overflow of ends_expected", data, h)
    else (Normal (Some (ends_expected - 1)), data, h).

Local Notation "x <~ c ;; k" := (ebind c (fun x => k))
  (at level 61, c at next level, right associativity).
Local Notation "c ;;; k" := (ebind c (fun _ => k))
  (at level 61, right associativity).

(** The [switch] for an [opcode] already read; the result is the new value
    of [ends_expected]. *)
Definition ReadExpr_switch (opcode : u8) (ends_expected : Z) : ExprM Z :=
  match switch_opcode opcode with
  | CaseEnd =>
    ends_expected <~ decrement ends_expected ;;
    WASP_HOOK (OnOpcodeBare opcode) ;;;
    eret ends_expected
  | CaseBare =>
    WASP_HOOK (OnOpcodeBare opcode) ;;;
    eret ends_expected
  | CaseType =>
    type <~ WASP_READ_OR_ERROR (lift ReadValType) "type index" ;;
    WASP_HOOK (OnOpcodeType opcode type) ;;;
    increment ends_expected
  | CaseIndex =>
    index <~ WASP_READ_OR_ERROR (lift ReadIndex) "index" ;;
    WASP_HOOK (OnOpcodeIndex opcode index) ;;;
    eret ends_expected
  | CaseCallIndirect =>
    index <~ WASP_READ_OR_ERROR (lift ReadIndex) "index" ;;
    reserved <~ WASP_READ_OR_ERROR (lift ReadU8) "reserved" ;;
    WASP_HOOK (OnOpcodeCallIndirect opcode index reserved) ;;;
    eret ends_expected
  | CaseBrTable =>
    targets <~
      WASP_READ_OR_ERROR (ReadVec reserve ReadIndex) "br_table targets" ;;
    default_target <~
      WASP_READ_OR_ERROR (lift ReadIndex) "br_table default target" ;;
    WASP_HOOK (OnOpcodeBrTable opcode targets default_target) ;;;
    eret ends_expected
  | CaseMemarg =>
    align_log2 <~ WASP_READ_OR_ERROR (lift ReadVarU32) "alignment" ;;
    offset <~ WASP_READ_OR_ERROR (lift ReadVarU32) "offset" ;;
    WASP_HOOK (OnOpcodeMemarg opcode align_log2 offset) ;;;
    eret ends_expected
  | CaseI32Const =>
    value <~ WASP_READ_OR_ERROR (lift ReadVarS32) "i32 constant" ;;
    WASP_HOOK (OnOpcodeI32Const opcode value) ;;;
    eret ends_expected
  | CaseI64Const =>
    value <~ WASP_READ_OR_ERROR (lift ReadVarS64) "i64 constant" ;;
    WASP_HOOK (OnOpcodeI64Const opcode value) ;;;
    eret ends_expected
  | CaseF32Const =>
    value <~ WASP_READ_OR_ERROR (lift ReadF32) "f32 constant" ;;
    WASP_HOOK (OnOpcodeF32Const opcode value) ;;;
    eret ends_expected
  | CaseF64Const =>
    value <~ WASP_READ_OR_ERROR (lift ReadF64) "f64 constant" ;;
    WASP_HOOK (OnOpcodeF64Const opcode value) ;;;
    eret ends_expected
  | CaseDefault =>
    fun data h =>
      (Normal None, data,
       OnError hooks (String.append "Unknown opcode 0x" (hex02 opcode)) h)
  end.

(** One turn of the [while (ends_expected != 0)] loop. *)
Definition ReadExpr_body (ends_expected : Z) : ExprM Z :=
  opcode <~ WASP_READ_OR_ERROR (lift ReadU8) "opcode" ;;
  ReadExpr_switch opcode ends_expected.

(** The loop; the outer [None] is "out of fuel" ([ReadExpr_loop_total]: one
    more than the number of bytes is enough, every turn reads a byte). *)
Fixpoint ReadExpr_loop (fuel : nat) (ends_expected : Z) (data : SpanU8) (h : H)
  : option (Exit (option unit) * SpanU8 * H) :=
  if ends_expected =? 0 then Some (Normal (Some tt), data, h)
  else
    match fuel with
    | O => None
    | S fuel' =>
      match ReadExpr_body ends_expected data h with
      | (Normal (Some ends_expected'), data', h') =>
        ReadExpr_loop fuel' ends_expected' data' h'
      | (Normal None, data', h') => Some (Normal None, data', h')
      | (Thrown what, data', h') => Some (Thrown what, data', h')
      | (Undef why, data', h') => Some (Undef why, data', h')
      end
    end.

(** [Expr{SpanU8{start, len}}] with [len = data->data() - start]. *)
Definition ReadExpr : ExprM SpanU8 := fun data h =>
  let start := data in
  match ReadExpr_loop (S (List.length data)) 1 data h with
  | Some (Normal (Some _), data', h') =>
    let len := size start - size data' in
    (Normal (Some (subspan0 len start)), data', h')
  | Some (Normal None, data', h') => (Normal None, data', h')
  | Some (Thrown what, data', h') => (Thrown what, data', h')
  | Some (Undef why, data', h') => (Undef why, data', h')
  | None => (Normal None, data, h)
  end.

End ReadExpr.

(** Hooks that record every call and never stop. *)
Definition TraceHooks : ExprHooks (list ExprEvent * list string) :=
  {| OnOpcode := fun ev h => (Continue, (fst h ++ [ev], snd h));
     OnError := fun msg h => (fst h, snd h ++ [msg]) |}.

(** *** [ReadSection] and [ReadModule] *)

(** Modelled from the spec: the declaration of [ReadResult] is not among the
    sources.  A function that returns [ReadResult] leaves with [return {}]
    after it reported an error ([WASP_READ_OR_ERROR]), so the
    value-initialised [ReadResult] is the error result (spec 7: an error is
    reported and the entity abandoned). *)
Inductive ReadResult : Type := Error | Ok.
Definition ReadResult_init : ReadResult := Error.

(** What a call does: it returns, or its behaviour is undefined. *)
Inductive Outcome (A : Type) : Type :=
| Returns (a : A)
| Undefined (why : string).
Arguments Returns {A}.
Arguments Undefined {A}.

(** [*opt]: defined only when [opt] holds a value. *)
Definition deref {A} (opt : option A) : Outcome A :=
  match opt with
  | Some a => Returns a
  | None => Undefined "operator* on an optional that holds no value"
  end.

(** [opt != value] for an [optional<SpanU8>] and a span (spans compare by
    their elements). *)
Definition optional_ne (opt : option SpanU8) (value : SpanU8) : bool :=
  match opt with
  | Some s => if list_eq_dec Byte.byte_eq_dec s value then false else true
  | None => true
  end.

(** Modelled from the spec: [encoding::Magic] and [encoding::Version] are
    declared in [src/binary/encoding.h], not among the sources (spec 6:
    magic [00 61 73 6D], version [01 00 00 00]). *)
Definition kMagic : SpanU8 := [x00; x61; x73; x6d].
Definition kVersion : SpanU8 := [x01; x00; x00; x00].

(** The hooks of [ReadSection] and [ReadModule]; [OnModuleError] is their
    [OnError]. *)
Record ModuleHooks (H : Type) : Type := mkModuleHooks {
  OnSection : Z -> SpanU8 -> H -> HookResult * H;
  OnModuleError : string -> H -> H
}.
Arguments OnSection {H}.
Arguments OnModuleError {H}.

(** ["%zd"] *)
Definition format_zd (n : Z) : string := NilZero.string_of_int (Z.to_int n).

Section ReadModule.
Context {H : Type} (hooks : ModuleHooks H).
(** [wasp::ToString(SpanU8)] is declared in [src/base/to_string.h], not among
    the sources; the readers only pass its result on to [OnError]. *)
Context (ToString : SpanU8 -> string).

Definition ReadSection (data : SpanU8) (h : H) : ReadResult * SpanU8 * H :=
  match ReadVarU32 data with
  | (None, data) =>
    (ReadResult_init, data,
     OnModuleError hooks "Unable to read section code" h)
  | (Some code, data) =>
    match ReadVarU32 data with
    | (None, data) =>
      (ReadResult_init, data,
       OnModuleError hooks "Unable to read section length" h)
    | (Some len, data) =>
      if len >? size data then
        (Error, data,
         OnModuleError hooks
           (String.append "Section length is too long: "
              (String.append (format_zd len)
                 (String.append " > " (format_zd (size data))))) h)
      else
        match OnSection hooks code (subspan0 len data) h with
        | (Stop, h) => (ReadResult_init, data, h)
        | (Continue, h) => (Ok, remove_prefix len data, h)
        end
    end
  end.

(** [while (!data.empty())]; the outer [None] is "out of fuel"
    ([ReadModule_loop_total]). *)
Fixpoint ReadModule_loop (fuel : nat) (data : SpanU8) (h : H)
  : option (ReadResult * H) :=
  match data with
  | [] => Some (Ok, h)
  | _ :: _ =>
    match fuel with
    | O => None
    | S fuel' =>
      match ReadSection data h with
      | (Error, _, h) => Some (Error, h)
      | (Ok, data, h) => ReadModule_loop fuel' data h
      end
    end
  end.

Definition ReadModule (data : SpanU8) (h : H) : Outcome ReadResult * H :=
  let (opt_magic, data) := ReadBytes 4 data in
  if optional_ne opt_magic kMagic then
    match deref opt_magic with
    | Undefined why => (Undefined why, h)
    | Returns magic =>
      (Returns Error,
       OnModuleError hooks
         (String.append "Magic mismatch: expected "
            (String.append (ToString kMagic)
               (String.append ", got " (ToString magic)))) h)
    end
  else
    let (opt_version, data) := ReadBytes 4 data in
    if optional_ne opt_version kVersion then
      match deref opt_version with
      | Undefined why => (Undefined why, h)
      | Returns version =>
        (Returns Error,
         OnModuleError hooks
           (String.append "Version mismatch: expected "
              (String.append (ToString kVersion)
                 (String.append ", got " (ToString version)))) h)
      end
    else
      match ReadModule_loop (List.length data) data h with
      | Some (r, h) => (Returns r, h)
      | None => (Returns Error, h)
      end.

End ReadModule.

End Reader.

(** ** The readers with an error channel ([wasp/binary/read/*.h]) *)

Module Read.

(** [struct ErrorContext { Location loc; std::string desc; }]
    ([test/test_utils.h]); a [Location] is the span that starts at the
    reported position. *)
Record ErrorContext : Type := mkErrorContext { loc : SpanU8; desc : string }.

(** [using Error = std::vector<ErrorContext>] *)
Definition Error : Type := list ErrorContext.

(** [class TestErrors]: its two members. *)
Record TestErrors : Type := mkTestErrors {
  context_stack : list ErrorContext;
  errors : list Error
}.

Definition no_errors : TestErrors := mkTestErrors [] [].

(** Modelled from the spec: the bodies of [TestErrors]' handlers
    ([test/test_utils.cc]) are not among the sources.  Spec 4.2 and 6: the
    reader keeps a stack of contexts, and an error carries its position, its
    message and the stack of contexts in effect when it was emitted. *)
Definition HandlePushContext (l : SpanU8) (d : string) (e : TestErrors)
  : TestErrors :=
  mkTestErrors (context_stack e ++ [mkErrorContext l d]) (errors e).

Definition HandlePopContext (e : TestErrors) : TestErrors :=
  mkTestErrors (removelast (context_stack e)) (errors e).

Definition HandleOnError (l : SpanU8) (message : string) (e : TestErrors)
  : TestErrors :=
  mkTestErrors (context_stack e)
    (errors e ++ [context_stack e ++ [mkErrorContext l message]]).

(** [optional<A> Read(SpanU8* data, Errors& errors, Tag<A>)] *)
Definition ReadE (A : Type) : Type :=
  SpanU8 -> TestErrors -> option A * SpanU8 * TestErrors.

Definition ret {A} (a : A) : ReadE A := fun data e => (Some a, data, e).

(** [WASP_TRY_READ(var, call)] *)
Definition bind {A B} (m : ReadE A) (k : A -> ReadE B) : ReadE B :=
  fun data e =>
    match m data e with
    | (Some a, data', e') => k a data' e'
    | (None, data', e') => (None, data', e')
    end.

(** [errors.OnError(loc, message) at the position of the span; return nullopt;] *)
Definition error {A} (message : string) : ReadE A :=
  fun data e => (None, data, HandleOnError data message e).

(** Modelled from the spec: [wasp/binary/errors_context_guard.h] is not among
    the sources.  Spec 9: a context frame is a scoped resource, pushed when
    the guard is built (at the position of [*data]) and popped on every way
    out of the scope. *)
Definition ErrorsContextGuard {A} (d : string) (body : ReadE A) : ReadE A :=
  fun data e =>
    let '(r, data', e') := body data (HandlePushContext data d e) in
    (r, data', HandlePopContext e').

(** Modelled from the spec: [wasp/binary/read/macros.h] is not among the
    sources.  [WASP_TRY_READ_CONTEXT(var, call, desc)] runs [call] inside a
    context frame [desc] (the trail of spec 8 shows "flags" below "limits"). *)
Definition WASP_TRY_READ_CONTEXT {A} (call : ReadE A) (d : string) : ReadE A :=
  ErrorsContextGuard d call.

(** Modelled from the spec: [wasp/binary/read/read_u8.h] is not among the
    sources.  Spec 8: reading a [u8] past the end reports "Unable to read u8". *)
Definition Read_u8 : ReadE u8 := fun data e =>
  match data with
  | [] => (None, data, HandleOnError data "Unable to read u8" e)
  | b :: rest => (Some b, rest, e)
  end.

(** Modelled from the spec: [wasp/binary/read/read_u32.h] is not among the
    sources.  Spec 4.1: an unsigned LEB128 of width 32, decoded as
    [Reader.ReadVarInt] does; a failure is reported at the position reached. *)
Definition Read_u32 : ReadE Z := fun data e =>
  match Reader.ReadVarInt U32 data with
  | (Some v, data') => (Some v, data', e)
  | (None, data') => (None, data', HandleOnError data' "Unable to read u32" e)
  end.

(** [wasp/binary/limits.h]: [Limits{min}] and [Limits{min, max}]. *)
Record Limits : Type := mkLimits { min : Z; max : option Z }.

(** [wasp/binary/encoding/limits_encoding.h] *)
Module EncodingLimits.
Definition Flags_NoMax : u8 := x00.
Definition Flags_HasMax : u8 := x01.
End EncodingLimits.

Local Notation "x <~ c ;; k" := (bind c (fun x => k))
  (at level 61, c at next level, right associativity).

(** [format("Invalid flags value: {}", flags)] *)
Definition Invalid_flags_value (flags : u8) : string :=
  String.append "Invalid flags value: " (Reader.format_zd (u8v flags)).

(** [Read(SpanU8*, Errors&, Tag<Limits>)] of [read_limits.h]. *)
Definition Read_Limits : ReadE Limits :=
  ErrorsContextGuard "limits" (
    flags <~ WASP_TRY_READ_CONTEXT Read_u8 "flags" ;;
    if Byte.eqb flags EncodingLimits.Flags_NoMax then
      min <~ WASP_TRY_READ_CONTEXT Read_u32 "min" ;;
      ret (mkLimits min None)
    else if Byte.eqb flags EncodingLimits.Flags_HasMax then
      min <~ WASP_TRY_READ_CONTEXT Read_u32 "min" ;;
      max <~ WASP_TRY_READ_CONTEXT Read_u32 "max" ;;
      ret (mkLimits min (Some max))
    else
      error (Invalid_flags_value flags)).

Record MemoryType : Type := mkMemoryType { limits : Limits }.
Record Memory : Type := mkMemory { memory_type : MemoryType }.

(** Modelled from the spec: [wasp/binary/read/read_memory_type.h] is not
    among the sources.  Spec 3: a memory type is made of its limits; spec 8:
    its frame in the trail is "memory type". *)
Definition Read_MemoryType : ReadE MemoryType :=
  ErrorsContextGuard "memory type" (
    limits <~ Read_Limits ;;
    ret (mkMemoryType limits)).

(** Modelled from the spec: [wasp/binary/read/read_memory.h] is not among the
    sources.  Spec 8: the frame of a memory is "memory", above "memory type". *)
Definition Read_Memory : ReadE Memory :=
  ErrorsContextGuard "memory" (
    memory_type <~ Read_MemoryType ;;
    ret (mkMemory memory_type)).

(** [ExpectedError]: each frame by its offset in the original input
    ([ErrorContextLoc]). *)
Definition to_expected (orig : SpanU8) (err : Error) : list (Z * string) :=
  map (fun c => (offset_in orig (loc c), desc c)) err.

End Read.

(** ** [wasp/binary/encoding/value_type_encoding.h] *)

Module Encoding.

(** A row [WASP_V(val, Name, str)] of [wasp/binary/value_type.def]: the byte
    and the enumerator of [::wasp::binary::ValueType] it stands for, by name. *)
Definition Row : Type := (u8 * string)%type.

Section ValueType.
(** [wasp/binary/value_type.def] is not among the sources: the table is a
    parameter of [Encode] and [Decode], which the header builds from it. *)
Context (value_type_def : list Row).

(** [switch (decoded) { case ValueType::Name: return val; ...
    default: WASP_UNREACHABLE(); }], [None] being the unreachable default. *)
Fixpoint Encode_switch (rows : list Row) (decoded : string) : option u8 :=
  match rows with
  | [] => None
  | (val, name) :: rows' =>
    if String.eqb name decoded then Some val else Encode_switch rows' decoded
  end.

Definition Encode (decoded : string) : option u8 :=
  Encode_switch value_type_def decoded.

(** [switch (val) { case Name: return ValueType::Name; ...
    default: return nullopt; }] *)
Fixpoint Decode_switch (rows : list Row) (val : u8) : option string :=
  match rows with
  | [] => None
  | (v, name) :: rows' =>
    if Byte.eqb v val then Some name else Decode_switch rows' val
  end.

Definition Decode (val : u8) : option string :=
  Decode_switch value_type_def val.

(** The enumerators of [ValueType], one per row. *)
Definition ValueTypes : list string := map snd value_type_def.
(** The bytes of the table. *)
Definition encodings : list u8 := map fst value_type_def.

End ValueType.

(** Modelled from the spec: the rows of [wasp/binary/value_type.def], for the
    value types spec 3 lists (i32, i64, f32, f64, v128, funcref, externref,
    exnref) with their bytes in the WebAssembly binary format. *)
Definition value_type_def : list Row :=
  [ (x7f, "I32"); (x7e, "I64"); (x7d, "F32"); (x7c, "F64"); (x7b, "V128");
    (x70, "Funcref"); (x6f, "Externref"); (x68, "Exnref") ]%string.

End Encoding.

(** ** [wasp/text/read/tokenizer-inl.h] *)

Module TextTokenizer.

Section Tokenizer.
(** [wasp/text/read/token.h] is not among the sources: a [Token] has a
    [type] of the enumeration [TokenType], one of which is [Lpar]. *)
Context {Token TokenType : Type}.
Context (type : Token -> TokenType).
(** [==] on the enumeration. *)
Context (TokenType_eq_dec : forall a b : TokenType, {a = b} + {a <> b}).
Context (Lpar : TokenType).
(** A default-constructed [Token]. *)
Context (Token_init : Token).
(** [LexNoWhitespaceCollectAnnots(SpanU8* data)] is declared in [lex.h] and
    defined elsewhere: it returns the next token with the annotations skipped
    before it, and advances [data]. *)
Context (LexNoWhitespaceCollectAnnots :
           SpanU8 -> (Token * list (list Token)) * SpanU8).

(** The members of [class Tokenizer]; [tokens_] is an array of two tokens
    and [current_] an index into it. *)
Record Tokenizer : Type := mkTokenizer {
  data_ : SpanU8;
  annots_ : list (list Token);
  tokens_ : Token * Token;
  previous_token_ : Token;
  current_ : bool;
  count_ : Z
}.

(** [tokens_[i]] and [tokens_[i] = t], for [i] in {0, 1}. *)
Definition tokens_get (a : Token * Token) (i : bool) : Token :=
  if i then snd a else fst a.
Definition tokens_set (a : Token * Token) (i : bool) (t : Token)
  : Token * Token :=
  if i then (fst a, t) else (t, snd a).

(** [Tokenizer::Tokenizer(SpanU8 data) : data_{data} {}] *)
Definition new (data : SpanU8) : Tokenizer :=
  mkTokenizer data [] (Token_init, Token_init) Token_init false 0.

Definition empty (s : Tokenizer) : bool := count_ s =? 0.
Definition count (s : Tokenizer) : Z := count_ s.
Definition annotations (s : Tokenizer) : list (list Token) := annots_ s.
Definition Previous (s : Tokenizer) : Token := previous_token_ s.

Definition Read (s : Tokenizer) : Token * Tokenizer :=
  if count_ s =? 0 then
    let '((cur, annots), data) := LexNoWhitespaceCollectAnnots (data_ s) in
    (cur,
     mkTokenizer data (annots_ s ++ annots) (tokens_ s) cur
       (current_ s) (count_ s))
  else
    let previous := tokens_get (tokens_ s) (current_ s) in
    (previous,
     mkTokenizer (data_ s) (annots_ s) (tokens_ s) previous
       (negb (current_ s)) (count_ s - 1)).

(** The first [if (count_ == 0)] of [Peek]. *)
Definition Peek_fill0 (s : Tokenizer) : Tokenizer :=
  if count_ s =? 0 then
    let '((cur, annots), data) := LexNoWhitespaceCollectAnnots (data_ s) in
    mkTokenizer data (annots_ s ++ annots)
      (tokens_set (tokens_ s) (current_ s) cur) (previous_token_ s)
      (current_ s) (count_ s + 1)
  else s.

(** The [if (count_ == 1)] of the branch [at == 1]. *)
Definition Peek_fill1 (s : Tokenizer) : Tokenizer :=
  if count_ s =? 1 then
    let '((cur, annots), data) := LexNoWhitespaceCollectAnnots (data_ s) in
    mkTokenizer data (annots_ s ++ annots)
      (tokens_set (tokens_ s) (negb (current_ s)) cur) (previous_token_ s)
      (current_ s) (count_ s + 1)
  else s.

(** [Peek(unsigned at)]; the branch for [at != 0] asserts [at == 1]. *)
Definition Peek (at_ : nat) (s : Tokenizer) : Token * Tokenizer :=
  let s := Peek_fill0 s in
  match at_ with
  | O => (tokens_get (tokens_ s) (current_ s), s)
  | S _ =>
    let s := Peek_fill1 s in
    (tokens_get (tokens_ s) (negb (current_ s)), s)
  end.

Definition Match (token_type : TokenType) (s : Tokenizer)
  : option Token * Tokenizer :=
  let (t, s) := Peek 0 s in
  if TokenType_eq_dec (type t) token_type then
    let (t, s) := Read s in (Some t, s)
  else (None, s).

(** The right operand of [&&] is evaluated only when the left one holds. *)
Definition MatchLpar (token_type : TokenType) (s : Tokenizer)
  : option Token * Tokenizer :=
  let (t0, s) := Peek 0 s in
  if TokenType_eq_dec (type t0) Lpar then
    let (t1, s) := Peek 1 s in
    if TokenType_eq_dec (type t1) token_type then
      let (_, s) := Read s in
      let (t, s) := Read s in
      (Some t, s)
    else (None, s)
  else (None, s).

(** The tokens already lexed and not yet read, oldest first. *)
Definition cached (s : Tokenizer) : list Token :=
  if count_ s =? 0 then []
  else if count_ s =? 1 then [tokens_get (tokens_ s) (current_ s)]
  else [tokens_get (tokens_ s) (current_ s);
        tokens_get (tokens_ s) (negb (current_ s))].

(** The next [n] tokens of the stream that starts with the tokens [cache]
    and goes on with what the lexer finds in [data]. *)
Fixpoint stream (n : nat) (cache : list Token) (data : SpanU8) : list Token :=
  match n with
  | O => []
  | S n' =>
    match cache with
    | t :: cache' => t :: stream n' cache' data
    | [] =>
      let '((t, _), data') := LexNoWhitespaceCollectAnnots data in
      t :: stream n' [] data'
    end
  end.

(** The next [n] tokens a tokenizer in state [s] will deliver. *)
Definition upcoming (n : nat) (s : Tokenizer) : list Token :=
  stream n (cached s) (data_ s).

(** The states a tokenizer can be in: built by the constructor, then used
    through its member functions. *)
Inductive reachable : Tokenizer -> Prop :=
| reachable_new data : reachable (new data)
| reachable_Read s : reachable s -> reachable (snd (Read s))
| reachable_Peek s at_ :
    reachable s -> (at_ <= 1)%nat -> reachable (snd (Peek at_ s))
| reachable_Match s k : reachable s -> reachable (snd (Match k s))
| reachable_MatchLpar s k : reachable s -> reachable (snd (MatchLpar k s)).

(** At most two tokens are cached. *)
Definition wf (s : Tokenizer) : Prop := 0 <= count_ s <= 2.

End Tokenizer.

(** A lexer for examples: every byte is a token, its own type; at the end of
    the input the token is the byte 0. *)
Definition byte_lexer (data : SpanU8) : (u8 * list (list u8)) * SpanU8 :=
  match data with
  | [] => ((x00, []), [])
  | b :: rest => ((b, []), rest)
  end.

(** The tokenizer over the two bytes of ["(a"], after [Peek(1)]. *)
Definition example_tokenizer : @Tokenizer u8 :=
  snd (Peek byte_lexer 1 (new x00 [x28; x61])).

End TextTokenizer.

(** ** The text reader: function types and folded expressions

    [wasp/text/read.h] and its implementation are not among the sources;
    [test/text/read_test.cc] is.  What follows is modelled from the
    specification, and the expectations of the tests are kept as they are
    written there. *)

Module Text.

Inductive ValueType : Type := I32 | I64 | F32 | F64.

Definition ValueType_eqb (a b : ValueType) : bool :=
  match a, b with
  | I32, I32 | I64, I64 | F32, F32 | F64, F64 => true
  | _, _ => false
  end.

(** [FunctionType{params, results}]; its equality is structural. *)
Record FunctionType : Type := mkFunctionType {
  params : list ValueType;
  results : list ValueType
}.

Fixpoint ValueTypeList_eqb (a b : list ValueType) : bool :=
  match a, b with
  | [], [] => true
  | x :: a', y :: b' => ValueType_eqb x y && ValueTypeList_eqb a' b'
  | _, _ => false
  end.

Definition FunctionType_eqb (a b : FunctionType) : bool :=
  ValueTypeList_eqb (params a) (params b)
  && ValueTypeList_eqb (results a) (results b).

(** [BoundValueType{name, type}] and [BoundFunctionType{params, results}]:
    a function type whose parameters may be named. *)
Record BoundValueType : Type := mkBoundValueType {
  bvt_name : option string;
  bvt_type : ValueType
}.

Record BoundFunctionType : Type := mkBoundFunctionType {
  bound_params : list BoundValueType;
  bound_results : list ValueType
}.

Definition ToFunctionType (b : BoundFunctionType) : FunctionType :=
  mkFunctionType (map bvt_type (bound_params b)) (bound_results b).

(** *** [FunctionTypeMap] *)

(** Modelled from the spec: the class [FunctionTypeMap] is not among the
    sources.  Spec 3 and 4.5: the module's type index space, with the
    function types that were used without a [(type N)] and are not defined
    yet kept aside (deferred) until [EndModule]. *)
Record FunctionTypeMap : Type := mkFunctionTypeMap {
  list_ : list FunctionType;
  deferred_list_ : list FunctionType
}.

Definition FunctionTypeMap_init : FunctionTypeMap := mkFunctionTypeMap [] [].

Definition Has (l : list FunctionType) (ft : FunctionType) : bool :=
  existsb (FunctionType_eqb ft) l.

(** The index of the first type of [l] structurally equal to [ft]. *)
Fixpoint FindIndex (l : list FunctionType) (ft : FunctionType) (i : Z)
  : option Z :=
  match l with
  | [] => None
  | x :: l' => if FunctionType_eqb ft x then Some i else FindIndex l' ft (i + 1)
  end.

(** Modelled from the spec: an explicit [(type (func ...))] entry always
    gets an index of its own ("two distinct explicit types with identical
    structure remain distinct"). *)
Definition Define (b : BoundFunctionType) (m : FunctionTypeMap)
  : FunctionTypeMap :=
  mkFunctionTypeMap (list_ m ++ [ToFunctionType b]) (deferred_list_ m).

(** Modelled from the spec: "if a structurally equal type is already
    present, its index is used.  Otherwise the type is deferred"; the
    deferred types are the "deduplication cache for implicitly defined
    function types" of spec 3 (spec 8: two uses of [(param i32)] leave one
    entry), so a type that is deferred already is not deferred again. *)
Definition Use (ft : FunctionType) (m : FunctionTypeMap) : FunctionTypeMap :=
  if Has (list_ m) ft then m
  else if Has (deferred_list_ m) ft then m
  else mkFunctionTypeMap (list_ m) (deferred_list_ m ++ [ft]).

(** Modelled from the spec: "[EndModule] on the FunctionTypeMap flushes
    deferred entries": they are "appended at the end of the type section
    after all explicit types, in first-seen order". *)
Definition EndModule (m : FunctionTypeMap) : FunctionTypeMap :=
  mkFunctionTypeMap (list_ m ++ deferred_list_ m) [].

Definition Size (m : FunctionTypeMap) : Z := Z.of_nat (List.length (list_ m)).
Definition Get (i : Z) (m : FunctionTypeMap) : option FunctionType :=
  nth_error (list_ m) (Z.to_nat i).
Definition Find (ft : FunctionType) (m : FunctionTypeMap) : option Z :=
  FindIndex (list_ m) ft 0.

(** The uses of a function type in a module, in source order. *)
Inductive TypeEvent : Type :=
| Explicit (b : BoundFunctionType)   (* [(type (func ...))] *)
| Anonymous (ft : FunctionType).     (* [(param ...) (result ...)] alone *)

Definition on_event (m : FunctionTypeMap) (ev : TypeEvent) : FunctionTypeMap :=
  match ev with
  | Explicit b => Define b m
  | Anonymous ft => Use ft m
  end.

Definition read_module (evs : list TypeEvent) : FunctionTypeMap :=
  EndModule (fold_left on_event evs FunctionTypeMap_init).

Definition explicit_types (evs : list TypeEvent) : list FunctionType :=
  flat_map (fun ev => match ev with
                      | Explicit b => [ToFunctionType b]
                      | Anonymous _ => []
                      end) evs.

(** The anonymous types of [evs] that were absent at their use: no explicit
    type defined before the use is structurally equal; [defined] holds the
    explicit types so far. *)
Fixpoint absent_at_use (defined : list FunctionType) (evs : list TypeEvent)
  : list FunctionType :=
  match evs with
  | [] => []
  | Explicit b :: evs' => absent_at_use (defined ++ [ToFunctionType b]) evs'
  | Anonymous ft :: evs' =>
    if Has defined ft then absent_at_use defined evs'
    else ft :: absent_at_use defined evs'
  end.

(** [l] without its repetitions, each type where it is first seen. *)
Fixpoint first_seen (l : list FunctionType) : list FunctionType :=
  match l with
  | [] => []
  | x :: l' =>
    x :: filter (fun y => negb (FunctionType_eqb y x)) (first_seen l')
  end.

(** The types that differ from [x]. *)
Definition differs (x : FunctionType) : FunctionType -> bool :=
  fun y => negb (FunctionType_eqb y x).

(** The function types of [read_test.cc]. *)
Definition ft_i32 : FunctionType := mkFunctionType [I32] [].
Definition ft_f32 : FunctionType := mkFunctionType [F32] [].
Definition ft_i64 : FunctionType := mkFunctionType [I64] [].
Definition bound (ft : FunctionType) : BoundFunctionType :=
  mkBoundFunctionType (map (mkBoundValueType None) (params ft)) (results ft).

(** *** Folded expressions *)

Inductive BlockOpcode : Type := Block | Loop.

Section Expression.
(** A plain instruction: its opcode and the immediates written after it. *)
Context {Plain : Type}.

Inductive Instruction : Type :=
| IPlain (p : Plain)
| IBlock (b : BlockOpcode)
| IIf
| IElse
| IEnd.

Definition InstructionList : Type := list Instruction.

(** The tokens of an expression: a parenthesis, a plain instruction (with
    its immediates), or one of the keywords [block], [loop], [if], [then],
    [else]. *)
Inductive Token : Type :=
| TLpar | TRpar
| TPlain (p : Plain)
| TBlock (b : BlockOpcode)
| TIf | TThen | TElse.

(** A [(] followed by an instruction keyword starts a folded expression. *)
Definition IsExpression (ts : list Token) : bool :=
  match ts with
  | TLpar :: (TPlain _ | TBlock _ | TIf) :: _ => true
  | _ => false
  end.

(** Modelled from the spec: [ReadExpression], [ReadExpressionList] and
    [ReadInstructionList] are not among the sources.  Spec 4.4: recursive
    descent; each function appends to the instruction list [out] it is given
    (as the helpers of [read_test.cc] call them) and returns the tokens left.
    "A folded expression emits its operand instructions first and then the
    head instruction; [(if cond (then ...) (else ...))] emits cond, if,
    then-body, else, else-body, end; [(block ...)], [(loop ...)] likewise."
    [None] is a syntax error, or [fuel] used up
    ([ReadExpression_ForTesting] gives enough). *)
Fixpoint ReadExpression (fuel : nat) (ts : list Token) (out : InstructionList)
  : option (InstructionList * list Token) :=
  match fuel with
  | O => None
  | S fuel' =>
    match ts with
    | TLpar :: TPlain p :: ts =>
      match ReadExpressionList fuel' ts out with
      | Some (out, TRpar :: ts) => Some (out ++ [IPlain p], ts)
      | _ => None
      end
    | TLpar :: TBlock b :: ts =>
      match ReadInstructionList fuel' ts (out ++ [IBlock b]) with
      | Some (out, TRpar :: ts) => Some (out ++ [IEnd], ts)
      | _ => None
      end
    | TLpar :: TIf :: ts =>
      match ReadExpressionList fuel' ts out with
      | Some (out, TLpar :: TThen :: ts) =>
        match ReadInstructionList fuel' ts (out ++ [IIf]) with
        | Some (out, TRpar :: TLpar :: TElse :: ts) =>
          match ReadInstructionList fuel' ts (out ++ [IElse]) with
          | Some (out, TRpar :: TRpar :: ts) => Some (out ++ [IEnd], ts)
          | _ => None
          end
        | Some (out, TRpar :: TRpar :: ts) => Some (out ++ [IEnd], ts)
        | _ => None
        end
      | _ => None
      end
    | _ => None
    end
  end
with ReadExpressionList (fuel : nat) (ts : list Token) (out : InstructionList)
  : option (InstructionList * list Token) :=
  match fuel with
  | O => None
  | S fuel' =>
    if IsExpression ts then
      match ReadExpression fuel' ts out with
      | Some (out, ts) => ReadExpressionList fuel' ts out
      | None => None
      end
    else Some (out, ts)
  end
with ReadInstructionList (fuel : nat) (ts : list Token) (out : InstructionList)
  : option (InstructionList * list Token) :=
  match fuel with
  | O => None
  | S fuel' =>
    match ts with
    | TPlain p :: ts' => ReadInstructionList fuel' ts' (out ++ [IPlain p])
    | _ =>
      if IsExpression ts then
        match ReadExpression fuel' ts out with
        | Some (out, ts) => ReadInstructionList fuel' ts out
        | None => None
        end
      else Some (out, ts)
    end
  end.

(** [ReadExpression_ForTesting]: a fresh list, then [ReadExpression]. *)
Definition ReadExpression_ForTesting (ts : list Token)
  : option (InstructionList * list Token) :=
  ReadExpression (List.length ts) ts [].

(** The grammar of folded expressions with the instructions each phrase
    stands for: [folded ts is] when the tokens [ts] are one folded
    expression whose flattening is [is]. *)
Inductive folded : list Token -> InstructionList -> Prop :=
| folded_plain p ops_t ops_i :
    folded_list ops_t ops_i ->
    folded (TLpar :: TPlain p :: ops_t ++ [TRpar]) (ops_i ++ [IPlain p])
| folded_block b body_t body_i :
    instr_list body_t body_i ->
    folded (TLpar :: TBlock b :: body_t ++ [TRpar])
           (IBlock b :: body_i ++ [IEnd])
| folded_if cond_t cond_i then_t then_i :
    folded_list cond_t cond_i ->
    instr_list then_t then_i ->
    folded (TLpar :: TIf :: cond_t ++ TLpar :: TThen :: then_t
              ++ [TRpar; TRpar])
           (cond_i ++ IIf :: then_i ++ [IEnd])
| folded_if_else cond_t cond_i then_t then_i else_t else_i :
    folded_list cond_t cond_i ->
    instr_list then_t then_i ->
    instr_list else_t else_i ->
    folded (TLpar :: TIf :: cond_t ++ TLpar :: TThen :: then_t
              ++ TRpar :: TLpar :: TElse :: else_t ++ [TRpar; TRpar])
           (cond_i ++ IIf :: then_i ++ IElse :: else_i ++ [IEnd])
(** operands: folded expressions one after the other *)
with folded_list : list Token -> InstructionList -> Prop :=
| folded_nil : folded_list [] []
| folded_cons t i ts is_ :
    folded t i -> folded_list ts is_ -> folded_list (t ++ ts) (i ++ is_)
(** a body: plain instructions and folded expressions *)
with instr_list : list Token -> InstructionList -> Prop :=
| instr_nil : instr_list [] []
| instr_plain p ts is_ :
    instr_list ts is_ -> instr_list (TPlain p :: ts) (IPlain p :: is_)
| instr_folded t i ts is_ :
    folded t i -> instr_list ts is_ -> instr_list (t ++ ts) (i ++ is_).

End Expression.

Scheme folded_mut := Induction for folded Sort Prop
with folded_list_mut := Induction for folded_list Sort Prop
with instr_list_mut := Induction for instr_list Sort Prop.

Combined Scheme folded_mutind
  from folded_mut, folded_list_mut, instr_list_mut.

(** What may follow a body: neither an instruction nor an expression. *)
Definition ends_body {Plain : Type} (rest : list (@Token Plain)) : Prop :=
  IsExpression rest = false /\ forall p r, rest <> TPlain p :: r.

End Text.

(** ** The last byte of a LEB128 integer, bit by bit *)

Module VarIntSpec.
Import Reader.

(** The continuation bit of a byte. *)
Definition continues (b : u8) : bool := Z.testbit (u8v b) 7.

(** Bits [from .. 6] of a byte all equal [v]. *)
Definition bits_from_all (from : Z) (v : bool) (b : u8) : bool :=
  forallb (fun j => Bool.eqb (Z.testbit (u8v b) j) v)
    (map Z.of_nat (seq (Z.to_nat from) (7 - Z.to_nat from))).

(** The bits of the last byte that carry no bit of the value: from
    [kUsedBitsInLastByte] to 6. *)
Definition unused_bits_all (T : IntType) (v : bool) (b : u8) : bool :=
  bits_from_all (kUsedBitsInLastByte T) v b.

(** The sign of a signed value, as its last byte holds it. *)
Definition sign_bit (T : IntType) (b : u8) : bool :=
  Z.testbit (u8v b) (kUsedBitsInLastByte T - 1).

(** What [ReadVarInt] accepts as the byte number [kMaxBytes]: no
    continuation bit, and the unused bits all zero (unsigned, or signed and
    not negative) or all one (signed and negative). *)
Definition final_byte_ok (T : IntType) (b : u8) : bool :=
  negb (continues b)
  && (if is_signed T then
        (negb (sign_bit T b) && unused_bits_all T false b)
        || (sign_bit T b && unused_bits_all T true b)
      else unused_bits_all T false b).

(** The rule as the specification words it, the continuation bit left out
    of the "unused high bits". *)
Definition spec_final_byte_rule (T : IntType) (b : u8) : bool :=
  if is_signed T then
    (negb (sign_bit T b) && unused_bits_all T false b)
    || (sign_bit T b && unused_bits_all T true b)
  else unused_bits_all T false b.

(** The same rule with the continuation bit counted among them. *)
Definition spec_final_byte_rule_bit7 (T : IntType) (b : u8) : bool :=
  if is_signed T then
    (negb (sign_bit T b) && unused_bits_all T false b && negb (continues b))
    || (sign_bit T b && unused_bits_all T true b && continues b)
  else unused_bits_all T false b && negb (continues b).

(** The bound of the specification: the ceiling of (W+6)/7. *)
Definition spec_max_bytes (T : IntType) : Z := (bits T + 6 + 6) / 7.

End VarIntSpec.

(** ** Nesting levels of an expression *)

Module ExprSpec.
Import Reader.

(** The opcode an event was raised for. *)
Definition ev_opcode (ev : ExprEvent) : u8 :=
  match ev with
  | OnOpcodeBare op | OnOpcodeType op _ | OnOpcodeIndex op _
  | OnOpcodeCallIndirect op _ _ | OnOpcodeBrTable op _ _
  | OnOpcodeMemarg op _ _ | OnOpcodeI32Const op _ | OnOpcodeI64Const op _
  | OnOpcodeF32Const op _ | OnOpcodeF64Const op _ => op
  end.

(** An instruction opens a nesting level when its opcode is [Block], [Loop]
    or [If], and closes one when it is [End]. *)
Definition opens (op : u8) : bool :=
  mem_u8 op [EncodingOpcode.Block; EncodingOpcode.Loop; EncodingOpcode.If].
Definition closes (op : u8) : bool := Byte.eqb op EncodingOpcode.End.

Definition delta (ev : ExprEvent) : Z :=
  (if opens (ev_opcode ev) then 1 else 0)
  - (if closes (ev_opcode ev) then 1 else 0).

(** [ends_expected] after the instructions [evs], from [n]. *)
Definition run (n : Z) (evs : list ExprEvent) : Z :=
  fold_left (fun n ev => n + delta ev) evs n.

(** The number of levels open after the instructions [evs], the implicit
    outer level included. *)
Definition level (evs : list ExprEvent) : Z := run 1 evs.

(** A reader moves its span forward: what is left is a suffix. *)
Definition advances {A} (m : Reader A) : Prop :=
  forall data r data', m data = (r, data') ->
    exists consumed, data = consumed ++ data'.

(** A successful turn reads the opcode and its immediates, reports one
    instruction to the hooks, and moves [ends_expected] by its [delta];
    a turn that fails has reported an error or was stopped by the hooks; a
    turn left by an exception met a [br_table] whose count of targets was
    refused, and reported nothing; a turn without defined behaviour would
    have moved [ends_expected] past an end of [int]. *)
Definition turn_ok {H : Type} (reserve : Allocator) (hooks : ExprHooks H)
  (ends_expected : Z) (data : SpanU8) (h : H)
  (res : Exit (option Z) * SpanU8 * H) : Prop :=
  match res with
  | (Normal (Some ends'), data', h') =>
    exists opcode imm ev,
      data = opcode :: imm ++ data'
      /\ OnOpcode hooks ev h = (Continue, h')
      /\ ev_opcode ev = opcode
      /\ ends' = ends_expected + delta ev
      /\ (closes opcode = true -> ev = OnOpcodeBare opcode /\ imm = [])
  | (Normal None, data', h') =>
    (exists msg, h' = OnError hooks msg h)
    \/ (exists ev h0, OnOpcode hooks ev h = (Stop, h0) /\ h' = h0)
  | (Thrown what, data', h') =>
    h' = h
    /\ exists count d,
        data = EncodingOpcode.BrTable :: d
        /\ ReadVarU32 d = (Some count, data')
        /\ reserve Z count = false
  | (Undef why, data', h') =>
    (ends_expected = INT_MAX
     /\ exists ev, OnOpcode hooks ev h = (Continue, h') /\ delta ev = 1)
    \/ (ends_expected = INT_MIN /\ h' = h)
  end.

(** The opcode of the exception-handling proposal's [try]. *)
Definition Try : u8 := x06.

End ExprSpec.

(** ** The outcomes of [ReadModule] *)

Module ModuleSpec.
Import Reader.

(** What [ReadModule] does, by the length of the input and its first eight
    bytes; behind them the loop over the sections ends and [ReadModule]
    returns what the loop found. *)
Definition ReadModule_outcome {H : Type} (hooks : ModuleHooks H)
  (data : SpanU8) (h : H) (r : Outcome ReadResult * H) : Prop :=
  if size data <? 4 then
    fst r = Undefined "operator* on an optional that holds no value"
  else if optional_ne (Some (subspan0 4 data)) kMagic then
    fst r = Returns Error
  else if size data <? 8 then
    fst r = Undefined "operator* on an optional that holds no value"
  else if optional_ne (Some (subspan0 4 (remove_prefix 4 data))) kVersion then
    fst r = Returns Error
  else
    let sections := remove_prefix 4 (remove_prefix 4 data) in
    exists res h',
      ReadModule_loop hooks (List.length sections) sections h = Some (res, h')
      /\ r = (Returns res, h').

End ModuleSpec.

(** ** The value of a LEB128 integer *)

Module VarIntValue.
Import Reader.

(** The seven data bits of a byte. *)
Definition low7 (b : u8) : Z := Z.land (u8v b) 127.

(** The number the data bits of [bytes] spell, least significant group
    first. *)
Definition leb_value (bytes : list u8) : Z :=
  fold_right (fun b acc => low7 b + 128 * acc) 0 bytes.

(** A [k]-bit two's complement number read as a signed one. *)
Definition sign_extend_at (k : Z) (x : Z) : Z :=
  if x <? 2 ^ (k - 1) then x else x - 2 ^ k.

(** The values of the type [T]. *)
Definition in_range (T : IntType) (v : Z) : Prop :=
  if is_signed T then - 2 ^ (bits T - 1) <= v < 2 ^ (bits T - 1)
  else 0 <= v < 2 ^ bits T.

(** The value [ReadVarInt<T>] is to return for the bytes it consumed. *)
Definition decoded (T : IntType) (consumed : list u8) : Z :=
  if is_signed T then
    sign_extend_at (7 * Z.of_nat (List.length consumed)) (leb_value consumed)
  else leb_value consumed.

End VarIntValue.

(** ** [src/binary/reader-inl.h]: the other entity readers *)

Module ReaderMore.
Import Reader.
Local Open Scope reader_scope.

Inductive ExternalKind : Type := EK_Func | EK_Table | EK_Memory | EK_Global.
Inductive Mutability : Type := Mut_Const | Mut_Var.

(** Modelled from the spec: [src/binary/encoding.h] is not among the sources.
    [encoding::ExternalKind] and [encoding::Mutability] hold the bytes of the
    WebAssembly binary format (spec 6). *)
Module EncodingExternalKind.
Definition Func : u8 := x00.
Definition Table : u8 := x01.
Definition Memory : u8 := x02.
Definition Global : u8 := x03.
End EncodingExternalKind.

Module EncodingMutability.
Definition Const : u8 := x00.
Definition Var : u8 := x01.
End EncodingMutability.

Definition ReadExternalKind : Reader ExternalKind :=
  WASP_READ byte <- ReadU8 ;;
  if Byte.eqb byte EncodingExternalKind.Func then ret EK_Func
  else if Byte.eqb byte EncodingExternalKind.Table then ret EK_Table
  else if Byte.eqb byte EncodingExternalKind.Memory then ret EK_Memory
  else if Byte.eqb byte EncodingExternalKind.Global then ret EK_Global
  else fail.

Definition ReadMutability : Reader Mutability :=
  WASP_READ byte <- ReadU8 ;;
  if Byte.eqb byte EncodingMutability.Var then ret Mut_Var
  else if Byte.eqb byte EncodingMutability.Const then ret Mut_Const
  else fail.

(** [ReadStr]: the [string_view] over the bytes is kept as the bytes. *)
Definition ReadStr : Reader SpanU8 :=
  WASP_READ len <- ReadVarU32 ;;
  fun data =>
    if len >? size data then (None, data)
    else (Some (subspan0 len data), remove_prefix len data).

(** [TableType{limits, elemtype}], [GlobalType{type, mut}],
    [LocalDecl{count, type}] *)
Record TableType : Type := mkTableType {
  tt_limits : Limits;
  tt_elemtype : ValType
}.
Record GlobalType : Type := mkGlobalType {
  gt_type : ValType;
  gt_mut : Mutability
}.
Record LocalDecl : Type := mkLocalDecl { ld_count : Z; ld_type : ValType }.

Definition ReadTableType : Reader TableType :=
  WASP_READ elemtype <- ReadValType ;;
  WASP_READ limits <- ReadLimits ;;
  ret (mkTableType limits elemtype).

Definition ReadGlobalType : Reader GlobalType :=
  WASP_READ type <- ReadValType ;;
  WASP_READ mut <- ReadMutability ;;
  ret (mkGlobalType type mut).

Definition ReadLocalDecl : Reader LocalDecl :=
  WASP_READ count <- ReadIndex ;;
  WASP_READ type <- ReadValType ;;
  ret (mkLocalDecl count type).

(** What a reader returns is decided by the bytes it consumes, a prefix of
    its input. *)
Definition local {A} (rd : Reader A) : Prop :=
  forall data v rest,
    rd data = (Some v, rest) ->
    exists consumed,
      data = consumed ++ rest
      /\ forall rest', rd (consumed ++ rest') = (Some v, rest').

(** The same for a step of [ReadExpr], hooks included. *)
Definition elocal {H A} (m : SpanU8 -> H -> Exit (option A) * SpanU8 * H)
  : Prop :=
  forall data h v rest h',
    m data h = (Normal (Some v), rest, h') ->
    exists consumed,
      data = consumed ++ rest
      /\ forall rest',
          m (consumed ++ rest') h = (Normal (Some v), rest', h').

(** The same for a reader that an exception can leave. *)
Definition localX {A} (rd : ReaderX A) : Prop :=
  forall data v rest,
    rd data = (Normal (Some v), rest) ->
    exists consumed,
      data = consumed ++ rest
      /\ forall rest', rd (consumed ++ rest') = (Normal (Some v), rest').

(** [rd] reads the elements [xs] one after the other, from [data] down to
    [rest]. *)
Inductive reads_seq {A} (rd : Reader A) : SpanU8 -> list A -> SpanU8 -> Prop :=
| reads_nil data : reads_seq rd data [] data
| reads_cons data x data' xs rest :
    rd data = (Some x, data') ->
    reads_seq rd data' xs rest ->
    reads_seq rd data (x :: xs) rest.

(** A count, then that many elements one after the other: what a vector is
    in the binary format, with no word on where it is kept. *)
Definition vector_of {A} (read_element : Reader A) : Reader (list A) :=
  WASP_READ len <- ReadVarU32 ;;
  ReadVec_loop read_element (Z.to_nat len) [].

End ReaderMore.

(** ** [src/binary/reader-inl.h]: the section readers *)

Module Sections.
Import Reader ReaderMore.

(** The entities handed to the hooks, fields in the order of their
    initialisers: [Func{type_index}], [Export{kind, name, index}], ... *)
Record FuncType : Type := mkFuncType {
  param_types : list ValType;
  result_types : list ValType
}.
Record FuncImport : Type := mkFuncImport {
  fi_module : SpanU8; fi_name : SpanU8; fi_type_index : Z
}.
Record TableImport : Type := mkTableImport {
  ti_module : SpanU8; ti_name : SpanU8; ti_table_type : TableType
}.
Record MemoryImport : Type := mkMemoryImport {
  mi_module : SpanU8; mi_name : SpanU8; mi_memory_type : MemoryType
}.
Record GlobalImport : Type := mkGlobalImport {
  gi_module : SpanU8; gi_name : SpanU8; gi_global_type : GlobalType
}.
Record Func : Type := mkFunc { type_index : Z }.
Record Table : Type := mkTable { table_type : TableType }.
Record Memory : Type := mkMemory { memory_type : MemoryType }.
Record Export : Type := mkExport {
  ex_kind : ExternalKind; ex_name : SpanU8; ex_index : Z
}.
Record Start : Type := mkStart { func_index : Z }.
(** [Expr{SpanU8}]: an expression is the span of its bytes. *)
Record Global : Type := mkGlobal {
  global_type : GlobalType; init_expr : SpanU8
}.
Record ElementSegment : Type := mkElementSegment {
  es_table_index : Z; es_offset : SpanU8; es_init : list Z
}.
Record DataSegment : Type := mkDataSegment {
  ds_table_index : Z; ds_offset : SpanU8; ds_init : SpanU8
}.

(** The calls the section readers make on their hooks, one constructor per
    method. *)
Inductive SectionEvent : Type :=
| OnTypeCount (count : Z)
| OnFuncType (i : Z) (func_type : FuncType)
| OnImportCount (count : Z)
| OnFuncImport (i : Z) (import : FuncImport)
| OnTableImport (i : Z) (import : TableImport)
| OnMemoryImport (i : Z) (import : MemoryImport)
| OnGlobalImport (i : Z) (import : GlobalImport)
| OnFuncCount (count : Z)
| OnFunc (i : Z) (func : Func)
| OnTableCount (count : Z)
| OnTable (i : Z) (table : Table)
| OnMemoryCount (count : Z)
| OnMemory (i : Z) (memory : Memory)
| OnExportCount (count : Z)
| OnExport (i : Z) (export : Export)
| OnStart (start : Start)
| OnCodeCount (count : Z)
| OnCode (i : Z) (code : SpanU8)
| OnGlobalCount (count : Z)
| OnGlobal (i : Z) (global : Global)
| OnElementSegmentCount (count : Z)
| OnElementSegment (i : Z) (segment : ElementSegment)
| OnDataSegmentCount (count : Z)
| OnDataSegment (i : Z) (segment : DataSegment)
| OnCodeContents (local_decls : list LocalDecl) (body : SpanU8).

Record SectionHooks (H : Type) : Type := mkSectionHooks {
  OnEvent : SectionEvent -> H -> HookResult * H;
  OnError : string -> H -> H
}.
Arguments OnEvent {H}.
Arguments OnError {H}.

Section SectionReaders.
Context (reserve : Allocator).
Context {H : Type} (hooks : SectionHooks H).
(** ["%d"] of a [ValType]: the enumerators' values are set in
    [src/binary/types.h], not among the sources; the reader only passes the
    text on to [OnError]. *)
Context (format_ValType_d : ValType -> string).

(** A step of a section reader: the span (a copy: the readers take it by
    value) and the hooks are updated; [Normal None] is a [return {}]. *)
Definition SecM (A : Type) : Type :=
  SpanU8 -> H -> Exit (option A) * SpanU8 * H.

Definition sret {A} (a : A) : SecM A :=
  fun data h => (Normal (Some a), data, h).

Definition sbind {A B} (m : SecM A) (k : A -> SecM B) : SecM B :=
  fun data h =>
    match m data h with
    | (Normal (Some a), data', h') => k a data' h'
    | (Normal None, data', h') => (Normal None, data', h')
    | (Thrown what, data', h') => (Thrown what, data', h')
    | (Undef why, data', h') => (Undef why, data', h')
    end.

(** [WASP_READ_OR_ERROR(var, call, desc)]; an exception that leaves [call]
    leaves the macro. *)
Definition WASP_READ_OR_ERROR {A} (call : ReaderX A) (desc : string)
  : SecM A :=
  fun data h =>
    match call data with
    | (Normal (Some a), data') => (Normal (Some a), data', h)
    | (Normal None, data') =>
      (Normal None, data',
       OnError hooks (String.append "Unable to read " desc) h)
    | (Thrown what, data') => (Thrown what, data', h)
    | (Undef why, data') => (Undef why, data', h)
    end.

(** [WASP_HOOK(call)] *)
Definition WASP_HOOK (ev : SectionEvent) : SecM unit :=
  fun data h =>
    match OnEvent hooks ev h with
    | (Continue, h') => (Normal (Some tt), data, h')
    | (Stop, h') => (Normal None, data, h')
    end.

(** [hooks.OnError(message); return ReadResult::Error;] *)
Definition serror {A} (message : string) : SecM A :=
  fun data h => (Normal None, data, OnError hooks message h).

Definition ErrorUnlessAtSectionEnd (data : SpanU8) (h : H) : ReadResult * H :=
  if negb (size data =? 0) then
    (Error, OnError hooks "Expected end of section" h)
  else (Ok, h).

(** A section reader: its steps, then [return ErrorUnlessAtSectionEnd(data,
    hooks)]; a step that left with [return {}] gives the value-initialised
    result, and an exception that leaves a step leaves the reader. *)
Definition section (steps : SecM unit) (data : SpanU8) (h : H)
  : Exit ReadResult * H :=
  match steps data h with
  | (Normal (Some _), data', h') =>
    let (result, h'') := ErrorUnlessAtSectionEnd data' h' in
    (Normal result, h'')
  | (Normal None, _, h') => (Normal ReadResult_init, h')
  | (Thrown what, _, h') => (Thrown what, h')
  | (Undef why, _, h') => (Undef why, h')
  end.

Local Notation "x <~ c ;; k" := (sbind c (fun x => k))
  (at level 61, c at next level, right associativity).
Local Notation "c ;;; k" := (sbind c (fun _ => k))
  (at level 61, right associativity).

(** The [for (Index i = 0; i < count; ++i)] loops, [n] turns to go. *)
Fixpoint ReadTypeSection_loop (n : nat) (i : Z) : SecM unit :=
  match n with
  | O => sret tt
  | S n' =>
    form <~ WASP_READ_OR_ERROR (lift ReadValType) "type form" ;;
    match form with
    | VT_Func =>
      param_types <~
        WASP_READ_OR_ERROR (ReadVec reserve ReadValType) "param types" ;;
      result_types <~
        WASP_READ_OR_ERROR (ReadVec reserve ReadValType) "result types" ;;
      WASP_HOOK (OnFuncType i (mkFuncType param_types result_types)) ;;;
      ReadTypeSection_loop n' (i + 1)
    | _ =>
      serror (String.append "Unknown type form: " (format_ValType_d form))
    end
  end.

Definition ReadTypeSection : SpanU8 -> H -> Exit ReadResult * H :=
  section (
    count <~ WASP_READ_OR_ERROR (lift ReadIndex) "type count" ;;
    WASP_HOOK (OnTypeCount count) ;;;
    ReadTypeSection_loop (Z.to_nat count) 0).

Fixpoint ReadImportSection_loop (n : nat) (i : Z) : SecM unit :=
  match n with
  | O => sret tt
  | S n' =>
    module <~ WASP_READ_OR_ERROR (lift ReadStr) "module name" ;;
    name <~ WASP_READ_OR_ERROR (lift ReadStr) "field name" ;;
    kind <~ WASP_READ_OR_ERROR (lift ReadExternalKind) "import kind" ;;
    match kind with
    | EK_Func =>
      type_index <~ WASP_READ_OR_ERROR (lift ReadIndex) "func type index" ;;
      WASP_HOOK (OnFuncImport i (mkFuncImport module name type_index))
    | EK_Table =>
      table_type <~ WASP_READ_OR_ERROR (lift ReadTableType) "table type" ;;
      WASP_HOOK (OnTableImport i (mkTableImport module name table_type))
    | EK_Memory =>
      memory_type <~ WASP_READ_OR_ERROR (lift ReadMemoryType) "memory type" ;;
      WASP_HOOK (OnMemoryImport i (mkMemoryImport module name memory_type))
    | EK_Global =>
      global_type <~ WASP_READ_OR_ERROR (lift ReadGlobalType) "global type" ;;
      WASP_HOOK (OnGlobalImport i (mkGlobalImport module name global_type))
    end ;;;
    ReadImportSection_loop n' (i + 1)
  end.

Definition ReadImportSection : SpanU8 -> H -> Exit ReadResult * H :=
  section (
    count <~ WASP_READ_OR_ERROR (lift ReadIndex) "import count" ;;
    WASP_HOOK (OnImportCount count) ;;;
    ReadImportSection_loop (Z.to_nat count) 0).

Fixpoint ReadFunctionSection_loop (n : nat) (i : Z) : SecM unit :=
  match n with
  | O => sret tt
  | S n' =>
    type_index <~ WASP_READ_OR_ERROR (lift ReadIndex) "func type index" ;;
    WASP_HOOK (OnFunc i (mkFunc type_index)) ;;;
    ReadFunctionSection_loop n' (i + 1)
  end.

Definition ReadFunctionSection : SpanU8 -> H -> Exit ReadResult * H :=
  section (
    count <~ WASP_READ_OR_ERROR (lift ReadIndex) "func count" ;;
    WASP_HOOK (OnFuncCount count) ;;;
    ReadFunctionSection_loop (Z.to_nat count) 0).

Fixpoint ReadTableSection_loop (n : nat) (i : Z) : SecM unit :=
  match n with
  | O => sret tt
  | S n' =>
    table_type <~ WASP_READ_OR_ERROR (lift ReadTableType) "table type" ;;
    WASP_HOOK (OnTable i (mkTable table_type)) ;;;
    ReadTableSection_loop n' (i + 1)
  end.

Definition ReadTableSection : SpanU8 -> H -> Exit ReadResult * H :=
  section (
    count <~ WASP_READ_OR_ERROR (lift ReadIndex) "table count" ;;
    WASP_HOOK (OnTableCount count) ;;;
    ReadTableSection_loop (Z.to_nat count) 0).

Fixpoint ReadMemorySection_loop (n : nat) (i : Z) : SecM unit :=
  match n with
  | O => sret tt
  | S n' =>
    memory_type <~ WASP_READ_OR_ERROR (lift ReadMemoryType) "memory type" ;;
    WASP_HOOK (OnMemory i (mkMemory memory_type)) ;;;
    ReadMemorySection_loop n' (i + 1)
  end.

Definition ReadMemorySection : SpanU8 -> H -> Exit ReadResult * H :=
  section (
    count <~ WASP_READ_OR_ERROR (lift ReadIndex) "memory count" ;;
    WASP_HOOK (OnMemoryCount count) ;;;
    ReadMemorySection_loop (Z.to_nat count) 0).

Fixpoint ReadExportSection_loop (n : nat) (i : Z) : SecM unit :=
  match n with
  | O => sret tt
  | S n' =>
    name <~ WASP_READ_OR_ERROR (lift ReadStr) "export name" ;;
    kind <~ WASP_READ_OR_ERROR (lift ReadExternalKind) "export kind" ;;
    index <~ WASP_READ_OR_ERROR (lift ReadIndex) "export index" ;;
    WASP_HOOK (OnExport i (mkExport kind name index)) ;;;
    ReadExportSection_loop n' (i + 1)
  end.

Definition ReadExportSection : SpanU8 -> H -> Exit ReadResult * H :=
  section (
    count <~ WASP_READ_OR_ERROR (lift ReadIndex) "export count" ;;
    WASP_HOOK (OnExportCount count) ;;;
    ReadExportSection_loop (Z.to_nat count) 0).

Definition ReadStartSection : SpanU8 -> H -> Exit ReadResult * H :=
  section (
    func_index <~
      WASP_READ_OR_ERROR (lift ReadIndex) "start function index" ;;
    WASP_HOOK (OnStart (mkStart func_index))).

(** [if (len > data.size()) { hooks.OnError(...); return ReadResult::Error; }] *)
Definition code_length_check (len : Z) : SecM unit :=
  fun data h =>
    if len >? size data then
      serror (String.append "Code length is too long: "
                (String.append (format_zd len)
                   (String.append " > " (format_zd (size data))))) data h
    else sret tt data h.

(** [WASP_HOOK(hooks.OnCode(i, data.subspan(0, len))); data.remove_prefix(len);] *)
Definition code_body (i len : Z) : SecM unit :=
  fun data h =>
    match WASP_HOOK (OnCode i (subspan0 len data)) data h with
    | (Normal (Some _), _, h') =>
      (Normal (Some tt), remove_prefix len data, h')
    | other => other
    end.

Fixpoint ReadCodeSection_loop (n : nat) (i : Z) : SecM unit :=
  match n with
  | O => sret tt
  | S n' =>
    len <~ WASP_READ_OR_ERROR (lift ReadIndex) "code length" ;;
    code_length_check len ;;;
    code_body i len ;;;
    ReadCodeSection_loop n' (i + 1)
  end.

Definition ReadCodeSection : SpanU8 -> H -> Exit ReadResult * H :=
  section (
    count <~ WASP_READ_OR_ERROR (lift ReadIndex) "code count" ;;
    WASP_HOOK (OnCodeCount count) ;;;
    ReadCodeSection_loop (Z.to_nat count) 0).

(** [ReadExpr(&data)]: the hooks are a default-constructed [ExprHooksNop],
    declared in [src/binary/hooks.h], not among the sources, and gone when
    the call returns; whatever they are, the caller sees the result and the
    span. *)
Context {HN : Type} (ExprHooksNop : ExprHooks HN) (ExprHooksNop_init : HN).

Definition ReadExpr_default : ReaderX SpanU8 := fun data =>
  let '(result, data', _) :=
    ReadExpr reserve ExprHooksNop data ExprHooksNop_init in
  (result, data').

Fixpoint ReadGlobalSection_loop (n : nat) (i : Z) : SecM unit :=
  match n with
  | O => sret tt
  | S n' =>
    global_type <~ WASP_READ_OR_ERROR (lift ReadGlobalType) "global type" ;;
    init_expr <~
      WASP_READ_OR_ERROR ReadExpr_default "global initializer expression" ;;
    WASP_HOOK (OnGlobal i (mkGlobal global_type init_expr)) ;;;
    ReadGlobalSection_loop n' (i + 1)
  end.

Definition ReadGlobalSection : SpanU8 -> H -> Exit ReadResult * H :=
  section (
    count <~ WASP_READ_OR_ERROR (lift ReadIndex) "global count" ;;
    WASP_HOOK (OnGlobalCount count) ;;;
    ReadGlobalSection_loop (Z.to_nat count) 0).

Fixpoint ReadElementSection_loop (n : nat) (i : Z) : SecM unit :=
  match n with
  | O => sret tt
  | S n' =>
    table_index <~
      WASP_READ_OR_ERROR (lift ReadIndex) "element segment table index" ;;
    offset <~ WASP_READ_OR_ERROR ReadExpr_default "element segment offset" ;;
    init <~
      WASP_READ_OR_ERROR (ReadVec reserve ReadIndex)
        "element segment initializers" ;;
    WASP_HOOK
      (OnElementSegment i (mkElementSegment table_index offset init)) ;;;
    ReadElementSection_loop n' (i + 1)
  end.

Definition ReadElementSection : SpanU8 -> H -> Exit ReadResult * H :=
  section (
    count <~ WASP_READ_OR_ERROR (lift ReadIndex) "element segment count" ;;
    WASP_HOOK (OnElementSegmentCount count) ;;;
    ReadElementSection_loop (Z.to_nat count) 0).

Definition ReadCode : SpanU8 -> H -> Exit ReadResult * H :=
  section (
    local_decls <~
      WASP_READ_OR_ERROR (ReadVec reserve ReadLocalDecl) "locals" ;;
    body <~ WASP_READ_OR_ERROR ReadExpr_default "body" ;;
    WASP_HOOK (OnCodeContents local_decls body)).

Fixpoint ReadDataSection_loop (n : nat) (i : Z) : SecM unit :=
  match n with
  | O => sret tt
  | S n' =>
    table_index <~
      WASP_READ_OR_ERROR (lift ReadIndex) "data segment table index" ;;
    offset <~ WASP_READ_OR_ERROR ReadExpr_default "data segment offset" ;;
    init <~ WASP_READ_OR_ERROR (lift ReadVecU8) "data segment initializer" ;;
    WASP_HOOK (OnDataSegment i (mkDataSegment table_index offset init)) ;;;
    ReadDataSection_loop n' (i + 1)
  end.

Definition ReadDataSection : SpanU8 -> H -> Exit ReadResult * H :=
  section (
    count <~ WASP_READ_OR_ERROR (lift ReadIndex) "data segment count" ;;
    WASP_HOOK (OnDataSegmentCount count) ;;;
    ReadDataSection_loop (Z.to_nat count) 0).

End SectionReaders.

(** Hooks that record every call and never stop. *)
Definition TraceHooks : SectionHooks (list SectionEvent * list string) :=
  {| OnEvent := fun ev h => (Continue, (fst h ++ [ev], snd h));
     OnError := fun msg h => (fst h, snd h ++ [msg]) |}.

(** Module hooks that record every section and never stop. *)
Definition TraceModuleHooks : ModuleHooks (list (Z * SpanU8) * list string) :=
  {| OnSection := fun code body h => (Continue, (fst h ++ [(code, body)], snd h));
     OnModuleError := fun msg h => (fst h, snd h ++ [msg]) |}.

(** *** What the sections hold, as readers of [ReaderMore]'s kind *)

Local Open Scope reader_scope.

(** A section of a module: its code, then its contents behind their length. *)
Definition section_frame : Reader (Z * SpanU8) :=
  WASP_READ code <- ReadVarU32 ;;
  WASP_READ contents <- ReadVecU8 ;;
  ret (code, contents).

(** An entry of the type section: the form [Func], the parameter types and
    the result types. *)
Definition func_type_entry (reserve : Allocator) : ReaderX FuncType :=
  bindX (lift ReadValType) (fun form =>
  match form with
  | VT_Func =>
    bindX (ReadVec reserve ReadValType) (fun params =>
    bindX (ReadVec reserve ReadValType) (fun results =>
    lift (ret (mkFuncType params results))))
  | _ => lift fail
  end).

(** An entry of the import section. *)
Inductive Import : Type :=
| ImportFunc (import : FuncImport)
| ImportTable (import : TableImport)
| ImportMemory (import : MemoryImport)
| ImportGlobal (import : GlobalImport).

Definition import_entry : Reader Import :=
  WASP_READ module <- ReadStr ;;
  WASP_READ name <- ReadStr ;;
  WASP_READ kind <- ReadExternalKind ;;
  match kind with
  | EK_Func =>
    WASP_READ type_index <- ReadIndex ;;
    ret (ImportFunc (mkFuncImport module name type_index))
  | EK_Table =>
    WASP_READ table_type <- ReadTableType ;;
    ret (ImportTable (mkTableImport module name table_type))
  | EK_Memory =>
    WASP_READ memory_type <- ReadMemoryType ;;
    ret (ImportMemory (mkMemoryImport module name memory_type))
  | EK_Global =>
    WASP_READ global_type <- ReadGlobalType ;;
    ret (ImportGlobal (mkGlobalImport module name global_type))
  end.

Definition OnImport (i : Z) (import : Import) : SectionEvent :=
  match import with
  | ImportFunc f => OnFuncImport i f
  | ImportTable t => OnTableImport i t
  | ImportMemory m => OnMemoryImport i m
  | ImportGlobal g => OnGlobalImport i g
  end.

(** An entry of the export section. *)
Definition export_entry : Reader Export :=
  WASP_READ name <- ReadStr ;;
  WASP_READ kind <- ReadExternalKind ;;
  WASP_READ index <- ReadIndex ;;
  ret (mkExport kind name index).

Section ExprEntries.
Context (reserve : Allocator).
Context {HN : Type} (ExprHooksNop : ExprHooks HN) (ExprHooksNop_init : HN).

(** An entry of the global section: the type and the initializer. *)
Definition global_entry : ReaderX Global :=
  bindX (lift ReadGlobalType) (fun global_type =>
  bindX (ReadExpr_default reserve ExprHooksNop ExprHooksNop_init)
    (fun init_expr =>
  lift (ret (mkGlobal global_type init_expr)))).

(** An entry of the element section. *)
Definition element_entry : ReaderX ElementSegment :=
  bindX (lift ReadIndex) (fun table_index =>
  bindX (ReadExpr_default reserve ExprHooksNop ExprHooksNop_init)
    (fun offset =>
  bindX (ReadVec reserve ReadIndex) (fun init =>
  lift (ret (mkElementSegment table_index offset init))))).

(** An entry of the data section. *)
Definition data_entry : ReaderX DataSegment :=
  bindX (lift ReadIndex) (fun table_index =>
  bindX (ReadExpr_default reserve ExprHooksNop ExprHooksNop_init)
    (fun offset =>
  bindX (lift ReadVecU8) (fun init =>
  lift (ret (mkDataSegment table_index offset init))))).

(** The contents of a code: the locals and the body. *)
Definition code_contents : ReaderX (list LocalDecl * SpanU8) :=
  bindX (ReadVec reserve ReadLocalDecl) (fun local_decls =>
  bindX (ReadExpr_default reserve ExprHooksNop ExprHooksNop_init)
    (fun body =>
  lift (ret (local_decls, body)))).

End ExprEntries.

(** The calls for the entries [xs], numbered from [i]. *)
Fixpoint entries {A} (on : Z -> A -> SectionEvent) (i : Z) (xs : list A)
  : list SectionEvent :=
  match xs with
  | [] => []
  | x :: xs' => on i x :: entries on (i + 1) xs'
  end.

(** A count, then that many entries one after the other, for entries whose
    reader can be left by an exception. *)
Fixpoint entries_ofX {A} (entry : ReaderX A) (n : nat) (acc : list A)
  : ReaderX (list A) :=
  match n with
  | O => fun data => (Normal (Some acc), data)
  | S n' => bindX entry (fun x => entries_ofX entry n' (acc ++ [x]))
  end.

Definition vector_ofX {A} (entry : ReaderX A) : ReaderX (list A) :=
  bindX (lift ReadVarU32) (fun len => entries_ofX entry (Z.to_nat len) []).

(** What a section reader does with the recording hooks. *)
Definition Traced : Type :=
  SpanU8 -> list SectionEvent * list string
  -> Exit ReadResult * (list SectionEvent * list string).

(** A section that holds a vector of entries read by [entry]: it is read
    without error exactly when the vector fills it, the hooks are then told
    the count and each entry with its index; any other contents end in one
    error. *)
Definition vector_section {A} (read_section : Traced) (entry : Reader A)
  (on_count : Z -> SectionEvent) (on : Z -> A -> SectionEvent) : Prop :=
  forall data,
    match vector_of entry data with
    | (Some xs, []) =>
      read_section data ([], [])
      = (Normal Ok,
         (on_count (Z.of_nat (List.length xs)) :: entries on 0 xs, []))
    | _ =>
      exists events message,
        read_section data ([], []) = (Normal Error, (events, [message]))
    end.

(** Bytes left behind the vector are an error, reported after the hooks
    were told of every entry. *)
Definition reports_trailing {A} (read_section : Traced) (entry : Reader A)
  (on_count : Z -> SectionEvent) (on : Z -> A -> SectionEvent) : Prop :=
  forall data xs b rest,
    vector_of entry data = (Some xs, b :: rest) ->
    read_section data ([], [])
    = (Normal Error,
       (on_count (Z.of_nat (List.length xs)) :: entries on 0 xs,
        ["Expected end of section"%string])).

(** The same for entries whose reader can be left by an exception, or have
    no defined behaviour: the section reader is then left by the same
    exception, with no error reported, or has no defined behaviour. *)
Definition vector_sectionX {A} (read_section : Traced) (entry : ReaderX A)
  (on_count : Z -> SectionEvent) (on : Z -> A -> SectionEvent) : Prop :=
  forall data,
    match vector_ofX entry data with
    | (Normal (Some xs), []) =>
      read_section data ([], [])
      = (Normal Ok,
         (on_count (Z.of_nat (List.length xs)) :: entries on 0 xs, []))
    | (Normal _, _) =>
      exists events message,
        read_section data ([], []) = (Normal Error, (events, [message]))
    | (Thrown what, _) =>
      exists events, read_section data ([], []) = (Thrown what, (events, []))
    | (Undef why, _) =>
      exists events, read_section data ([], []) = (Undef why, (events, []))
    end.

Definition reports_trailingX {A} (read_section : Traced) (entry : ReaderX A)
  (on_count : Z -> SectionEvent) (on : Z -> A -> SectionEvent) : Prop :=
  forall data xs b rest,
    vector_ofX entry data = (Normal (Some xs), b :: rest) ->
    read_section data ([], [])
    = (Normal Error,
       (on_count (Z.of_nat (List.length xs)) :: entries on 0 xs,
        ["Expected end of section"%string])).

End Sections.

(** ** [src/base/formatters-inl.h] *)

Module Formatters.
Import Reader.
Local Open Scope string_scope.

(** The double quote and the backslash. *)
Definition dquote : string := String (ascii_of_nat 34) EmptyString.
Definition backslash : string := String (ascii_of_nat 92) EmptyString.

(** [formatter<SpanU8>::format]: [buf] after each [format_to]; ["{:02x}"]
    writes a byte as [absl]'s ["%02x"] does. *)
Definition format_SpanU8 (self : SpanU8) : string :=
  let buf := dquote in
  let buf :=
    fold_left (fun buf x => buf ++ (backslash ++ hex02 x)) self buf in
  buf ++ dquote.

Section Vector.
(** ["{}"] for an element. *)
Context {T : Type} (format_T : T -> string).

(** [formatter<std::vector<T>>::format]: the state of the loop is [buf] and
    [space]. *)
Definition format_vector (self : list T) : string :=
  let buf := "[" in
  let space := "" in
  let '(buf, space) :=
    fold_left (fun '(buf, space) x => (buf ++ (space ++ format_T x), " "))
      self (buf, space) in
  buf ++ "]".

End Vector.



End Formatters.

(** ** The tokenizer and its lexer *)

Module TokenizerSync.
Import TextTokenizer.

Section Sync.
Context {Token TokenType : Type}.
Context (type : Token -> TokenType).
Context (TokenType_eq_dec : forall a b : TokenType, {a = b} + {a <> b}).
Context (Lpar : TokenType).
Context (Token_init : Token).
Context (LexNoWhitespaceCollectAnnots :
           SpanU8 -> (Token * list (list Token)) * SpanU8).

(** [n] calls of the lexer in a row, from [data]: the tokens returned, the
    annotations collected, both in the order found, and what is left. *)
Fixpoint lexed (n : nat) (data : SpanU8)
  : list Token * list (list Token) * SpanU8 :=
  match n with
  | O => ([], [], data)
  | S n' =>
    let '(tokens, annots, data') := lexed n' data in
    let '((cur, more), data'') := LexNoWhitespaceCollectAnnots data' in
    (tokens ++ [cur], annots ++ more, data'')
  end.

(** The tokenizer has lexed the first [n] tokens of [data]: it holds what is
    left of [data] and all the annotations found so far, and its cache is
    the last [count_] tokens lexed. *)
Definition in_sync (data : SpanU8) (s : Tokenizer) : Prop :=
  exists n tokens annots,
    lexed n data = (tokens, annots, data_ s)
    /\ annots_ s = annots
    /\ 0 <= count_ s <= 2
    /\ (Z.to_nat (count_ s) <= n)%nat
    /\ cached s = skipn (n - Z.to_nat (count_ s)) tokens.

(** The states of a tokenizer built over [data]. *)
Inductive reachable_from (data : SpanU8) : Tokenizer -> Prop :=
| from_new : reachable_from data (new Token_init data)
| from_Read s :
    reachable_from data s ->
    reachable_from data (snd (Read LexNoWhitespaceCollectAnnots s))
| from_Peek s at_ :
    reachable_from data s -> (at_ <= 1)%nat ->
    reachable_from data (snd (Peek LexNoWhitespaceCollectAnnots at_ s))
| from_Match s k :
    reachable_from data s ->
    reachable_from data
      (snd (Match type TokenType_eq_dec LexNoWhitespaceCollectAnnots k s))
| from_MatchLpar s k :
    reachable_from data s ->
    reachable_from data
      (snd (MatchLpar type TokenType_eq_dec Lpar
              LexNoWhitespaceCollectAnnots k s)).

End Sync.

(** A lexer for examples: a byte other than [@] is a token; an [@] and the
    byte behind it are an annotation before the next token. *)
Fixpoint annot_lexer_from (fuel : nat) (annots : list (list u8))
  (data : SpanU8) : (u8 * list (list u8)) * SpanU8 :=
  match fuel, data with
  | S fuel', x40 :: b :: rest => annot_lexer_from fuel' (annots ++ [[b]]) rest
  | _, b :: rest => ((b, annots), rest)
  | _, [] => ((x00, annots), [])
  end.

Definition annot_lexer (data : SpanU8) : (u8 * list (list u8)) * SpanU8 :=
  annot_lexer_from (List.length data) [] data.

(** A tokenizer over [@A ( @B a], after [Peek(1)]. *)
Definition annot_example_data : SpanU8 := [x40; x41; x28; x40; x42; x61].
Definition annot_example_tokenizer : @Tokenizer u8 :=
  snd (Peek annot_lexer 1 (new x00 annot_example_data)).

End TokenizerSync.

(** ** [src/tools/custom.cc] *)

Module Custom.
Local Open Scope string_scope.

Inductive AnnotationOrdering : Type := AO_Before | AO_Inside | AO_After.

(** A span by its place in memory: where it begins and its bytes; it ends
    behind the last of them. *)
Record Located : Type := mkLocated { begin_ : Z; bytes : SpanU8 }.
Definition end_ (s : Located) : Z := begin_ s + size (bytes s).

Definition OrderAnnotation (elem annot : Located) : AnnotationOrdering :=
  if (end_ elem <=? begin_ annot)%Z then AO_After
  else if (end_ annot <=? begin_ elem)%Z then AO_Before
  else AO_Inside.

(** The answer with the two spans exchanged. *)
Definition exchanged (o : AnnotationOrdering) : AnnotationOrdering :=
  match o with
  | AO_Before => AO_After
  | AO_Inside => AO_Inside
  | AO_After => AO_Before
  end.

(** The byte at address [p] belongs to the span. *)
Definition covers (s : Located) (p : Z) : Prop := (begin_ s <= p < end_ s)%Z.

Inductive SectionOrder : Type := Before | After.
Inductive SectionPosition : Type :=
| PosFirst | PosType | PosImport | PosFunction | PosTable | PosMemory
| PosGlobal | PosExport | PosStart | PosElem | PosCode | PosData
| PosDataCount | PosLast.

Record CustomAnnotation : Type := mkCustomAnnotation {
  name : string;
  data : list string;
  order : SectionOrder;
  pos : SectionPosition
}.

(** [text::TokenType] is declared in [wasp/text/types.h], not among the
    sources: the enumerators this file names, and [TT_Other] for the rest. *)
Inductive TokenType : Type :=
| TT_LparAnn | TT_Text | TT_Lpar | TT_Rpar | TT_Reserved | TT_Type
| TT_Import | TT_Func | TT_Table | TT_Memory | TT_Global | TT_Export
| TT_Start | TT_Elem | TT_Data | TT_Other (n : nat).

(** [==] on the enumeration. *)
Definition TokenType_eqb (a b : TokenType) : bool :=
  match a, b with
  | TT_LparAnn, TT_LparAnn | TT_Text, TT_Text | TT_Lpar, TT_Lpar
  | TT_Rpar, TT_Rpar | TT_Reserved, TT_Reserved | TT_Type, TT_Type
  | TT_Import, TT_Import | TT_Func, TT_Func | TT_Table, TT_Table
  | TT_Memory, TT_Memory | TT_Global, TT_Global | TT_Export, TT_Export
  | TT_Start, TT_Start | TT_Elem, TT_Elem | TT_Data, TT_Data => true
  | TT_Other n, TT_Other m => Nat.eqb n m
  | _, _ => false
  end.

Section Extract.
(** [text::Token], [Location] and [tools::TextErrors] are declared
    elsewhere; the function uses a token's [type], its [loc], the text at a
    location, the [text().text] of a text token, the way [concat] writes a
    token, and [errors.OnError(loc, message)]. *)
Context {Token Location Errors : Type}.
Context (type : Token -> TokenType) (loc : Token -> Location).
Context (ToStringView : Location -> string).
Context (text_text : Token -> string).
Context (concat_Token : Token -> string).
Context (OnError : Location -> string -> Errors -> Errors).

(** [ret] and [errors]. *)
Definition State : Type := (list CustomAnnotation * Errors)%type.

(** A step of the body of the loop; [None] is a [return ret]. *)
Definition Step (A : Type) : Type := State -> option A * State.

Definition step_ret {A} (a : A) : Step A := fun st => (Some a, st).

Definition step_bind {A B} (m : Step A) (k : A -> Step B) : Step B :=
  fun st =>
    match m st with
    | (Some a, st') => k a st'
    | (None, st') => (None, st')
    end.

(** [errors.OnError(loc, message); return ret;] *)
Definition step_error {A} (l : Location) (message : string) : Step A :=
  fun st => (None, (fst st, OnError l message (snd st))).

Local Notation "x <~ c ;; k" := (step_bind c (fun x => k))
  (at level 61, c at next level, right associativity).
Local Notation "c ;;; k" := (step_bind c (fun _ => k))
  (at level 61, right associativity).

(** [tok_it] in an annotation: the token before it and the tokens from it
    to the end ([tok_it] starts behind the first token, so there is one
    before it). *)
Definition Cursor : Type := (Token * list Token)%type.

(** [tok_it++], done only where [tok_it] is not at the end. *)
Definition advance (c : Cursor) : Cursor :=
  match snd c with
  | [] => c
  | tok :: after => (tok, after)
  end.

(** [EXPECT_NOT_END()]; the token [*tok_it] is handed on. *)
Definition EXPECT_NOT_END (c : Cursor) : Step Token :=
  match snd c with
  | [] => step_error (loc (fst c)) "Unexpected end of annotation"
  | tok :: _ => step_ret tok
  end.

(** [EXPECT_TOK(type_, msg)] *)
Definition EXPECT_TOK (c : Cursor) (type_ : TokenType) (msg : string)
  : Step Token :=
  tok <~ EXPECT_NOT_END c ;;
  if negb (TokenType_eqb (type tok) type_) then
    step_error (loc tok)
      ("Expected " ++ msg ++ ". Found token: " ++ concat_Token tok)
  else step_ret tok.

(** [EXPECT_END()] *)
Definition EXPECT_END (c : Cursor) : Step unit :=
  match snd c with
  | tok :: _ =>
    step_error (loc tok)
      ("Expected end of annotation. Found token: " ++ concat_Token tok)
  | [] => step_ret tt
  end.

(** The chain of [if]s on the position token; [None] is its [else]. *)
Definition section_position (tok : Token) : option SectionPosition :=
  let content := ToStringView (loc tok) in
  if TokenType_eqb (type tok) TT_Reserved && (content =? "first") then
    Some PosFirst
  else if TokenType_eqb (type tok) TT_Type then Some PosType
  else if TokenType_eqb (type tok) TT_Import then Some PosImport
  else if TokenType_eqb (type tok) TT_Func then Some PosFunction
  else if TokenType_eqb (type tok) TT_Table then Some PosTable
  else if TokenType_eqb (type tok) TT_Memory then Some PosMemory
  else if TokenType_eqb (type tok) TT_Global then Some PosGlobal
  else if TokenType_eqb (type tok) TT_Export then Some PosExport
  else if TokenType_eqb (type tok) TT_Start then Some PosStart
  else if TokenType_eqb (type tok) TT_Elem then Some PosElem
  else if TokenType_eqb (type tok) TT_Reserved && (content =? "code") then
    Some PosCode
  else if TokenType_eqb (type tok) TT_Data then Some PosData
  else if TokenType_eqb (type tok) TT_Reserved && (content =? "datacount")
  then Some PosDataCount
  else if TokenType_eqb (type tok) TT_Reserved && (content =? "last") then
    Some PosLast
  else None.

(** The chain of [if]s on the text of the after/before token. *)
Definition section_order (tok : Token) : option SectionOrder :=
  let content := ToStringView (loc tok) in
  if content =? "after" then Some After
  else if content =? "before" then Some Before
  else None.

(** The body of [if(tok_it->type == text::TokenType::Lpar)], with [tok_it]
    at the [Lpar]. *)
Definition placement_clause (c : Cursor)
  : Step (SectionOrder * SectionPosition * Cursor) :=
  let c := advance c in
  tok <~ EXPECT_TOK c TT_Reserved "after/before clause" ;;
  order <~
    match section_order tok with
    | Some order => step_ret order
    | None =>
      step_error (loc tok)
        ("Expected after/before clause. Found token: " ++ concat_Token tok)
    end ;;
  let c := advance c in
  tok <~ EXPECT_NOT_END c ;;
  pos <~
    match section_position tok with
    | Some pos => step_ret pos
    | None =>
      step_error (loc tok)
        ("Expected section position. Found token: " ++ concat_Token tok)
    end ;;
  step_ret (order, pos, c).

(** [for(; tok_it != ann_it->end()-1; tok_it++)], with [tok_it] at the head
    of [after]. *)
Fixpoint section_data (prev : Token) (after : list Token) (data : list string)
  : Step (list string * Cursor) :=
  match after with
  | [_] => step_ret (data, (prev, after))
  | [] =>
    EXPECT_TOK (prev, after) TT_Text "section data" ;;;
    step_ret (data, (prev, after))
  | tok :: after' =>
    EXPECT_TOK (prev, after) TT_Text "section data" ;;;
    section_data tok after' (data ++ [text_text tok])%list
  end.

(** [ret.emplace_back(name, std::move(data), order, pos)] *)
Definition emplace_back (a : CustomAnnotation) : Step unit :=
  fun st => (Some tt, ((fst st ++ [a])%list, snd st)).

(** The body of the loop over the custom annotations, for the annotation
    that starts with [front] and goes on with [rest]. *)
Definition ReadCustomAnnotation (front : Token) (rest : list Token)
  : Step unit :=
  let c := (front, rest) in
  tok <~ EXPECT_TOK c TT_Text "section name" ;;
  let name := text_text tok in
  let c := advance c in
  tok <~ EXPECT_NOT_END c ;;
  placed <~
    (if TokenType_eqb (type tok) TT_Lpar then placement_clause c
     else step_ret (After, PosLast, c)) ;;
  let '(order, pos, c) := placed in
  let c := advance c in
  EXPECT_TOK c TT_Rpar "location clause end" ;;;
  let c := advance c in
  EXPECT_NOT_END c ;;;
  read <~ section_data (fst c) (snd c) [] ;;
  let '(data, c) := read in
  emplace_back (mkCustomAnnotation name data order pos) ;;;
  EXPECT_TOK c TT_Rpar "right parenthesis" ;;;
  let c := advance c in
  EXPECT_END c.

(** [for (auto ann_it = custom_it; ann_it != annots.end(); ann_it++)] over
    the annotations the partition put last, each with its first token (the
    partition looked at it); the flag tells whether the loop ran to its end,
    where the annotations are erased. *)
Fixpoint ExtractCustomAnnotations_loop (customs : list (Token * list Token))
  (st : State) : bool * State :=
  match customs with
  | [] => (true, st)
  | (front, rest) :: customs' =>
    match ReadCustomAnnotation front rest st with
    | (Some _, st') => ExtractCustomAnnotations_loop customs' st'
    | (None, st') => (false, st')
    end
  end.

(** *** The annotations the loop takes *)

(** [(@custom "name" (after|before position) "data"* )] behind its first
    token. *)
Definition placed_annotation (rest : list Token) (a : CustomAnnotation)
  : Prop :=
  exists name_tok lpar order_tok pos_tok rpar data_toks last,
    rest = ([name_tok; lpar; order_tok; pos_tok; rpar] ++ data_toks ++ [last])%list
    /\ type name_tok = TT_Text /\ type lpar = TT_Lpar
    /\ type order_tok = TT_Reserved /\ type rpar = TT_Rpar
    /\ Forall (fun tok => type tok = TT_Text) data_toks
    /\ type last = TT_Rpar
    /\ section_order order_tok = Some (order a)
    /\ section_position pos_tok = Some (pos a)
    /\ name a = text_text name_tok
    /\ data a = map text_text data_toks.

(** A name, one token that is not [(], a [)], then data and a [)]. *)
Definition skipped_annotation (rest : list Token) (a : CustomAnnotation)
  : Prop :=
  exists name_tok skipped rpar data_toks last,
    rest = ([name_tok; skipped; rpar] ++ data_toks ++ [last])%list
    /\ type name_tok = TT_Text /\ type skipped <> TT_Lpar
    /\ type rpar = TT_Rpar
    /\ Forall (fun tok => type tok = TT_Text) data_toks
    /\ type last = TT_Rpar
    /\ order a = After /\ pos a = PosLast
    /\ name a = text_text name_tok
    /\ data a = map text_text data_toks.

(** [(@custom "name" "data"* )] behind its first token: no placement. *)
Definition plain_annotation (rest : list Token) : Prop :=
  exists name_tok data_toks last,
    rest = ([name_tok] ++ data_toks ++ [last])%list
    /\ type name_tok = TT_Text
    /\ Forall (fun tok => type tok = TT_Text) data_toks
    /\ type last = TT_Rpar.

End Extract.

(** Tokens for examples: a type and the text at the token's place, which is
    also how the token is written; errors as the list of the calls. *)
Definition ExampleToken : Type := (TokenType * string)%type.
Definition example_OnError (l message : string)
  (errors : list (string * string)) : list (string * string) :=
  (errors ++ [(l, message)])%list.
Definition ExampleLoop (customs : list (ExampleToken * list ExampleToken))
  : State (Errors := list (string * string)) -> bool * State :=
  ExtractCustomAnnotations_loop fst snd (fun l => l) snd snd example_OnError
    customs.
Definition ExampleRead (front : ExampleToken) (rest : list ExampleToken)
  : State (Errors := list (string * string)) -> option unit * State :=
  ReadCustomAnnotation fst snd (fun l => l) snd snd example_OnError
    front rest.

End Custom.

(** ** The encodings [ReadVarInt] takes *)

Module VarIntFormat.
Import Reader VarIntSpec.

(** An encoding for the type [T]: bytes with the continuation bit, then one
    without; at most [kMaxBytes] of them, and when there are that many the
    last one passes the test on the last byte. *)
Definition well_formed (T : IntType) (bytes : list u8) : Prop :=
  exists init last,
    bytes = init ++ [last]
    /\ forallb continues init = true
    /\ Z.of_nat (List.length bytes) <= kMaxBytes T
    /\ if Z.of_nat (List.length bytes) =? kMaxBytes T
       then final_byte_ok T last = true
       else continues last = false.

(** The byte with the value [n]. *)
Definition byte_of (n : Z) : u8 :=
  match Byte.of_N (Z.to_N n) with
  | Some b => b
  | None => x00
  end.

(** The usual encoder of unsigned LEB128: seven bits a byte, least
    significant first, until what is left fits in seven bits. *)
Fixpoint encode_unsigned (fuel : nat) (v : Z) : list u8 :=
  match fuel with
  | O => []
  | S fuel' =>
    if v <? 128 then [byte_of v]
    else byte_of (128 + v mod 128) :: encode_unsigned fuel' (v / 128)
  end.

(** The usual encoder of signed LEB128: until what is left fits in seven
    bits with its sign. *)
Fixpoint encode_signed (fuel : nat) (v : Z) : list u8 :=
  match fuel with
  | O => []
  | S fuel' =>
    if (-64 <=? v) && (v <? 64) then [byte_of (v mod 128)]
    else byte_of (128 + v mod 128) :: encode_signed fuel' (v / 128)
  end.

Definition encode (T : IntType) (v : Z) : list u8 :=
  if is_signed T then encode_signed (Z.to_nat (kMaxBytes T)) v
  else encode_unsigned (Z.to_nat (kMaxBytes T)) v.

End VarIntFormat.

(* ================================================================== *)
(** * Part II: properties *)
(* ================================================================== *)

(** ** LEB128: [ReadVarInt] *)

Module VarIntFacts.
Import Reader VarIntSpec.

Lemma ReadU8_cons b rest : ReadU8 (b :: rest) = (Some b, rest).
Proof. reflexivity. Qed.

Lemma ReadU8_nil : ReadU8 [] = (None, []).
Proof. reflexivity. Qed.

Lemma continues_land b : (Z.land (u8v b) 128 =? 0) = negb (continues b).
Proof. destruct b; reflexivity. Qed.

(** The test of the source on the last byte is [final_byte_ok]. *)
Lemma last_byte_test T b :
  (Z.land (u8v b) (kMask T) =? 0)
  || (is_signed T && (Z.land (u8v b) (kMask T) =? kOnes T))
  = final_byte_ok T b.
Proof. destruct T; destruct b; vm_compute; reflexivity. Qed.

Lemma kMaxBytes_pos T : 1 <= kMaxBytes T.
Proof. destruct T; vm_compute; discriminate. Qed.

(** The loop, run with the fuel that is left before byte number
    [kMaxBytes]. *)
Lemma ReadVarInt_loop_spec T :
  forall fuel i result data,
    i + Z.of_nat fuel = kMaxBytes T -> (1 <= fuel)%nat ->
    exists r data' consumed,
      ReadVarInt_loop T fuel i result data = Some (r, data')
      /\ data = consumed ++ data'
      /\ (List.length consumed <= fuel)%nat
      /\ (List.length consumed = fuel ->
          exists init b, consumed = init ++ [b]
                         /\ (r <> None <-> final_byte_ok T b = true))
      /\ (forallb continues data = true ->
          (List.length data < fuel)%nat -> r = None /\ data' = []).
Proof.
  induction fuel as [|fuel IH]; intros i result data Hi Hfuel; [lia|].
  destruct data as [|b rest].
  - exists None, [], []. cbn.
    split; [reflexivity|]. split; [reflexivity|]. split; [lia|].
    split; [discriminate|]. intros _ _. split; reflexivity.
  - cbn [ReadVarInt_loop]. rewrite ReadU8_cons. cbv zeta.
    destruct (i + 1 =? kMaxBytes T) eqn:Hlast.
    + apply Z.eqb_eq in Hlast. assert (fuel = O) by lia. subst fuel.
      rewrite last_byte_test.
      assert (Hshape : forall r : option Z,
                 (r <> None <-> final_byte_ok T b = true) ->
                 exists (r0 : option Z) (data' consumed : SpanU8),
                   Some (r, rest) = Some (r0, data')
                   /\ b :: rest = consumed ++ data'
                   /\ (List.length consumed <= 1)%nat
                   /\ (List.length consumed = 1%nat ->
                       exists init b0, consumed = init ++ [b0]
                         /\ (r0 <> None <-> final_byte_ok T b0 = true))
                   /\ (forallb continues (b :: rest) = true ->
                       (List.length (b :: rest) < 1)%nat ->
                       r0 = None /\ data' = [])).
      { intros r Hr. exists r, rest, [b].
        split; [reflexivity|]. split; [reflexivity|]. split; [cbn; lia|].
        split.
        - intros _. exists [], b. split; [reflexivity | exact Hr].
        - cbn [List.length]. intros _ Hl. lia. }
      destruct (final_byte_ok T b) eqn:Hok; apply Hshape; rewrite ?Hok.
      * split; [reflexivity | discriminate].
      * split; [congruence | discriminate].
    + apply Z.eqb_neq in Hlast.
      rewrite continues_land.
      destruct (continues b) eqn:Hc; cbn [negb].
      * destruct (IH (i + 1) (Z.lor result
                   (to_unsigned T (Z.shiftl (Z.land (u8v b) 127) (i * 7)))) rest)
          as (r & data' & consumed & Hrun & Hsplit & Hlen & Hfull & Hend);
          [lia | lia |].
        exists r, data', (b :: consumed). split; [exact Hrun|].
        cbn [List.length app].
        split; [now rewrite Hsplit|]. split; [lia|]. split.
        -- intros Hl. destruct Hfull as (init & b' & -> & Hr); [lia|].
           exists (b :: init), b'. split; [reflexivity | exact Hr].
        -- cbn [forallb]. rewrite Hc. cbn [andb]. intros Hall Hl.
           apply Hend; [exact Hall | lia].
      * eexists _, rest, [b]. split; [reflexivity|].
        cbn [List.length app].
        split; [reflexivity|]. split; [lia|]. split.
        -- intros Hl. lia.
        -- cbn [forallb]. rewrite Hc. cbn [andb]. discriminate.
Qed.

(** [kMaxBytes] turns of the loop are enough: the fuel never runs out. *)
Lemma ReadVarInt_loop_total T data :
  ReadVarInt_loop T (Z.to_nat (kMaxBytes T)) 0 0 data
  = Some (ReadVarInt T data).
Proof.
  unfold ReadVarInt.
  destruct (ReadVarInt_loop_spec T (Z.to_nat (kMaxBytes T)) 0 0 data)
    as (r & data' & _ & -> & _); [| | reflexivity];
    pose proof (kMaxBytes_pos T); lia.
Qed.

(** What [ReadVarInt] leaves is a suffix of its input. *)
Lemma ReadVarInt_suffix T data :
  exists consumed, data = consumed ++ snd (ReadVarInt T data).
Proof.
  pose proof (kMaxBytes_pos T) as Hpos.
  destruct (ReadVarInt_loop_spec T (Z.to_nat (kMaxBytes T)) 0 0 data)
    as (r & data' & consumed & Hrun & Hsplit & _); [lia | lia |].
  rewrite ReadVarInt_loop_total in Hrun. injection Hrun as Hrun.
  rewrite Hrun. now exists consumed.
Qed.

(** C1 (as amended).  [ReadVarInt<T>], for each of the four integer types,
    reads at most [kMaxBytes = (W+6) div 7] bytes, a number that does not
    exceed the ceiling of (W+6)/7 the specification gives.  The bytes it
    consumed are a prefix of the input.  When it consumed [kMaxBytes] bytes
    it returns a value exactly when the last of them has no continuation bit
    and its unused high bits are all zero (unsigned, or signed and not
    negative) or all one (signed and negative), and [nullopt] otherwise.
    When the input ends before a byte without continuation bit and before
    byte number [kMaxBytes], it consumes the input and returns [nullopt].
    The optional result carries no error kind. *)
Theorem ReadVarInt_final_byte (T : IntType) (data : SpanU8) :
  exists consumed,
    data = consumed ++ snd (ReadVarInt T data)
    /\ Z.of_nat (List.length consumed) <= kMaxBytes T <= spec_max_bytes T
    /\ (Z.of_nat (List.length consumed) = kMaxBytes T ->
        exists init b,
          consumed = init ++ [b]
          /\ (fst (ReadVarInt T data) <> None <-> final_byte_ok T b = true))
    /\ (forallb continues data = true ->
        Z.of_nat (List.length data) < kMaxBytes T ->
        ReadVarInt T data = (None, [])).
Proof.
  pose proof (kMaxBytes_pos T) as Hpos.
  destruct (ReadVarInt_loop_spec T (Z.to_nat (kMaxBytes T)) 0 0 data)
    as (r & data' & consumed & Hrun & Hsplit & Hlen & Hfull & Hend);
    [lia | lia |].
  rewrite ReadVarInt_loop_total in Hrun. injection Hrun as Hrun.
  rewrite Hrun. cbn [fst snd].
  exists consumed. split; [exact Hsplit|]. split.
  - split; [lia|]. destruct T; vm_compute; discriminate.
  - split.
    + intros Hl. apply Hfull. lia.
    + intros Hall Hl. destruct Hend as [-> ->]; [exact Hall | lia |].
      reflexivity.
Qed.

(** C1, counterexample.  The rule of the specification does not decide the
    last byte, whichever way its "unused high bits" are read, and the two
    failures cannot be told apart.
    - Ten bytes [80]: the maximal number for 64 bits; the unused bits 1..6 of
      the last byte are all zero, yet the unsigned read fails.
    - Nine bytes [FF] and [7F]: the signed read returns -1, although bit 7 of
      the last byte is not one.
    - The result for an integer that is too large is the result for an input
      that ends too early: [nullopt]. *)
Lemma ReadVarInt_final_byte_counterexample :
  (Z.of_nat (List.length (repeat x80 10)) = spec_max_bytes U64
   /\ spec_final_byte_rule U64 x80 = true
   /\ ReadVarInt U64 (repeat x80 10) = (None, []))
  /\ (Z.of_nat (List.length (repeat xff 9 ++ [x7f])) = spec_max_bytes S64
      /\ spec_final_byte_rule_bit7 S64 x7f = false
      /\ ReadVarInt S64 (repeat xff 9 ++ [x7f]) = (Some (-1), []))
  /\ (fst (ReadVarInt U64 (repeat x80 9 ++ [x02])) = None
      /\ fst (ReadVarInt U64 (repeat x80 9)) = None).
Proof. vm_compute. repeat split; reflexivity. Qed.

(** The same at 32 bits, where [ReadVarInt] stops after five bytes. *)
Example ReadVarInt_u32_five_bytes :
  kMaxBytes U32 = 5
  /\ ReadVarInt U32 [x80; x80; x80; x80; x80; x00] = (None, [x00])
  /\ ReadVarInt U32 [xff; xff; xff; xff; x0f] = (Some 4294967295, [])
  /\ ReadVarInt U32 [xff; xff; xff; xff; x1f] = (None, [])
  /\ ReadVarInt S32 [xff; xff; xff; xff; x7f] = (Some (-1), [])
  /\ ReadVarInt S32 [x80; x80; x80; x80; x78] = (Some (-2147483648), [])
  /\ ReadVarInt S32 [xff; xff; xff; xff; x07] = (Some 2147483647, [])
  /\ ReadVarInt S32 [xff; xff; xff; xff; x0f] = (None, []).
Proof. vm_compute. repeat split; reflexivity. Qed.

End VarIntFacts.

(** ** LEB128: the value [ReadVarInt] returns *)

Module VarIntValueFacts.
Import Reader VarIntSpec VarIntValue.

Lemma low7_range b : 0 <= low7 b < 128.
Proof. destruct b; vm_compute; split; congruence. Qed.

Lemma leb_value_range bytes :
  0 <= leb_value bytes < 2 ^ (7 * Z.of_nat (List.length bytes)).
Proof.
  induction bytes as [|b bytes IH]; cbn [leb_value fold_right List.length].
  - cbn. lia.
  - fold (leb_value bytes). pose proof (low7_range b).
    replace (7 * Z.of_nat (S (List.length bytes)))
      with (7 + 7 * Z.of_nat (List.length bytes)) by lia.
    rewrite Z.pow_add_r by lia. change (2 ^ 7) with 128. nia.
Qed.

Lemma leb_value_snoc bytes b :
  leb_value (bytes ++ [b])
  = leb_value bytes + low7 b * 2 ^ (7 * Z.of_nat (List.length bytes)).
Proof.
  induction bytes as [|a bytes IH]; cbn [leb_value fold_right List.length app].
  - cbn. lia.
  - fold (leb_value (bytes ++ [b])). fold (leb_value bytes). rewrite IH.
    replace (7 * Z.of_nat (S (List.length bytes)))
      with (7 + 7 * Z.of_nat (List.length bytes)) by lia.
    rewrite Z.pow_add_r by lia. change (2 ^ 7) with 128. ring.
Qed.

(** Bits that do not overlap add up. *)
Lemma lor_shiftl_low a m s :
  0 <= s -> 0 <= a < 2 ^ s -> Z.lor a (Z.shiftl m s) = a + m * 2 ^ s.
Proof.
  intros Hs Ha. rewrite Z.shiftl_mul_pow2 by lia.
  rewrite <- Z.lxor_lor.
  - symmetry. apply Z.add_nocarry_lxor.
    apply Z.bits_inj'. intros n Hn. rewrite Z.land_spec, Z.bits_0.
    destruct (Z.lt_ge_cases n s) as [Hlt|Hge].
    + rewrite Z.mul_pow2_bits_low by lia. apply andb_false_r.
    + rewrite <- (Z.mod_small a (2 ^ s)) by lia.
      rewrite Z.mod_pow2_bits_high by lia. reflexivity.
  - apply Z.bits_inj'. intros n Hn. rewrite Z.land_spec, Z.bits_0.
    destruct (Z.lt_ge_cases n s) as [Hlt|Hge].
    + rewrite Z.mul_pow2_bits_low by lia. apply andb_false_r.
    + rewrite <- (Z.mod_small a (2 ^ s)) by lia.
      rewrite Z.mod_pow2_bits_high by lia. reflexivity.
Qed.

(** The conversion to the unsigned type keeps the low bits of the group. *)
Lemma to_unsigned_shiftl T c s :
  0 <= s <= bits T ->
  to_unsigned T (Z.shiftl c s) = Z.shiftl (c mod 2 ^ (bits T - s)) s.
Proof.
  intros Hs. unfold to_unsigned. rewrite !Z.shiftl_mul_pow2 by lia.
  replace (2 ^ bits T) with (2 ^ (bits T - s) * 2 ^ s)
    by (rewrite <- Z.pow_add_r by lia; f_equal; lia).
  rewrite Z.mul_mod_distr_r; [reflexivity | |]; apply Z.pow_nonzero; lia.
Qed.

Lemma u8v_range b : 0 <= u8v b < 256.
Proof. destruct b; vm_compute; split; congruence. Qed.

Lemma low7_mod b : low7 b = u8v b mod 128.
Proof. destruct b; reflexivity. Qed.

(** The test on the last byte, as a comparison of numbers. *)
Lemma last_byte_numeric T b :
  (Z.land (u8v b) (kMask T) =? 0)
  || (is_signed T && (Z.land (u8v b) (kMask T) =? kOnes T))
  = (u8v b <? 2 ^ kMaskBits T)
    || (is_signed T && (128 - 2 ^ kMaskBits T <=? u8v b) && (u8v b <? 128)).
Proof. destruct T; destruct b; reflexivity. Qed.

(** [SignExtend<T>(x, 7k - 1)] of a number of [7k] bits. *)
Lemma SignExtend_spec T k x :
  1 <= k -> 7 * k <= bits T -> 0 <= x < 2 ^ (7 * k) ->
  SignExtend T x (6 + (k - 1) * 7) = sign_extend_at (7 * k) x.
Proof.
  intros Hk Hw Hx. unfold SignExtend, sign_extend_at, to_signed, to_unsigned.
  replace (bits T - (6 + (k - 1) * 7) - 1) with (bits T - 7 * k) by lia.
  set (m := bits T - 7 * k). assert (Hm : 0 <= m) by (unfold m; lia).
  rewrite Z.shiftl_mul_pow2 by lia.
  assert (Hpow : 2 ^ bits T = 2 ^ (7 * k) * 2 ^ m)
    by (rewrite <- Z.pow_add_r by lia; f_equal; unfold m; lia).
  assert (Hpow1 : 2 ^ (bits T - 1) = 2 ^ (7 * k - 1) * 2 ^ m)
    by (rewrite <- Z.pow_add_r by lia; f_equal; unfold m; lia).
  assert (H2m : 0 < 2 ^ m) by (apply Z.pow_pos_nonneg; lia).
  assert (Hsmall : 0 <= x * 2 ^ m < 2 ^ bits T) by (rewrite Hpow; nia).
  rewrite !(Z.mod_small _ _ Hsmall). rewrite Hpow1.
  destruct (x <? 2 ^ (7 * k - 1)) eqn:Hlt.
  - apply Z.ltb_lt in Hlt.
    replace (x * 2 ^ m <? 2 ^ (7 * k - 1) * 2 ^ m) with true
      by (symmetry; apply Z.ltb_lt; nia).
    rewrite Z.shiftr_div_pow2 by lia. apply Z.div_mul. lia.
  - apply Z.ltb_ge in Hlt.
    replace (x * 2 ^ m <? 2 ^ (7 * k - 1) * 2 ^ m) with false
      by (symmetry; apply Z.ltb_ge; nia).
    rewrite Z.shiftr_div_pow2 by lia. rewrite Hpow.
    replace (x * 2 ^ m - 2 ^ (7 * k) * 2 ^ m) with ((x - 2 ^ (7 * k)) * 2 ^ m)
      by ring.
    apply Z.div_mul. lia.
Qed.

Lemma sign_extend_at_range k x :
  1 <= k -> 0 <= x < 2 ^ k ->
  - 2 ^ (k - 1) <= sign_extend_at k x < 2 ^ (k - 1).
Proof.
  intros Hk Hx. unfold sign_extend_at.
  assert (H2 : 2 ^ k = 2 * 2 ^ (k - 1))
    by (rewrite <- Z.pow_succ_r by lia; f_equal; lia).
  destruct (x <? 2 ^ (k - 1)) eqn:E;
    [apply Z.ltb_lt in E | apply Z.ltb_ge in E]; lia.
Qed.

(** The last byte, when it is accepted: the value with the bits the type
    has no room for dropped is the value of all the bytes. *)
Lemma last_byte_value T b r :
  0 <= r < 2 ^ (7 * (kMaxBytes T - 1)) ->
  (Z.land (u8v b) (kMask T) =? 0)
  || (is_signed T && (Z.land (u8v b) (kMask T) =? kOnes T)) = true ->
  static_cast T
    (r + low7 b mod 2 ^ (bits T - 7 * (kMaxBytes T - 1))
         * 2 ^ (7 * (kMaxBytes T - 1)))
  = (if is_signed T
     then sign_extend_at (7 * kMaxBytes T)
            (r + low7 b * 2 ^ (7 * (kMaxBytes T - 1)))
     else r + low7 b * 2 ^ (7 * (kMaxBytes T - 1))).
Proof.
  intros Hr. rewrite last_byte_numeric, low7_mod.
  pose proof (u8v_range b) as Hb. set (x := u8v b) in *. clearbody x.
  unfold static_cast, to_signed, to_unsigned, sign_extend_at.
  destruct T; cbn [is_signed andb orb]; intros Hok;
    repeat match goal with
           | H : context [kMaxBytes ?T] |- _ =>
             let v := eval vm_compute in (kMaxBytes T) in
             change (kMaxBytes T) with v in H
           | |- context [kMaxBytes ?T] =>
             let v := eval vm_compute in (kMaxBytes T) in
             change (kMaxBytes T) with v
           | H : context [kMaskBits ?T] |- _ =>
             let v := eval vm_compute in (kMaskBits T) in
             change (kMaskBits T) with v in H
           end;
    cbn [bits] in *;
    repeat match goal with
           | H : context [2 ^ ?e] |- _ =>
             let v := eval vm_compute in (2 ^ e) in
             change (2 ^ e) with v in H
           | |- context [2 ^ ?e] =>
             let v := eval vm_compute in (2 ^ e) in
             change (2 ^ e) with v
           end.
  all: apply orb_true_iff in Hok;
    rewrite ?andb_true_iff, ?Z.ltb_lt, ?Z.leb_le in Hok;
    repeat match goal with
           | |- context [if ?a <? ?c then _ else _] =>
             destruct (Z.ltb_spec a c)
           end;
    Z.div_mod_to_equations; lia.
Qed.

Lemma last_group_fits T : 7 * (kMaxBytes T - 1) <= bits T <= 7 * kMaxBytes T.
Proof. destruct T; vm_compute; split; congruence. Qed.

(** One more byte read: the accumulator is the value of the bytes read so
    far, the bits the type has no room for dropped. *)
Lemma accumulate T pre b :
  Z.of_nat (List.length pre) <= kMaxBytes T - 1 ->
  Z.lor (leb_value pre)
    (to_unsigned T (Z.shiftl (Z.land (u8v b) 127)
                      (Z.of_nat (List.length pre) * 7)))
  = leb_value pre
    + low7 b mod 2 ^ (bits T - 7 * Z.of_nat (List.length pre))
      * 2 ^ (7 * Z.of_nat (List.length pre)).
Proof.
  intros Hi. pose proof (last_group_fits T) as Hfit.
  pose proof (leb_value_range pre) as Hpre.
  replace (Z.of_nat (List.length pre) * 7)
    with (7 * Z.of_nat (List.length pre)) by lia.
  rewrite to_unsigned_shiftl by lia.
  apply lor_shiftl_low; lia.
Qed.

(** One turn of the loop on a byte. *)
Lemma ReadVarInt_loop_cons T fuel i result b data :
  ReadVarInt_loop T (S fuel) i result (b :: data)
  = if i + 1 =? kMaxBytes T then
      if (Z.land (u8v b) (kMask T) =? 0)
         || (is_signed T && (Z.land (u8v b) (kMask T) =? kOnes T))
      then Some (Some (static_cast T
                         (Z.lor result
                            (to_unsigned T
                               (Z.shiftl (Z.land (u8v b) 127) (i * 7))))),
                 data)
      else Some (None, data)
    else if Z.land (u8v b) 128 =? 0 then
      Some (Some (if is_signed T
                  then SignExtend T
                         (Z.lor result
                            (to_unsigned T
                               (Z.shiftl (Z.land (u8v b) 127) (i * 7))))
                         (6 + i * 7)
                  else Z.lor result
                         (to_unsigned T
                            (Z.shiftl (Z.land (u8v b) 127) (i * 7)))),
            data)
    else ReadVarInt_loop T fuel (i + 1)
           (Z.lor result
              (to_unsigned T (Z.shiftl (Z.land (u8v b) 127) (i * 7))))
           data.
Proof. reflexivity. Qed.

Lemma static_cast_in_range T x : in_range T (static_cast T x).
Proof.
  unfold in_range, static_cast, to_signed, to_unsigned.
  assert (H2 : 2 ^ bits T = 2 * 2 ^ (bits T - 1))
    by (rewrite <- Z.pow_succ_r by (destruct T; cbn; lia); f_equal; lia).
  assert (Hpos : 0 < 2 ^ (bits T - 1))
    by (apply Z.pow_pos_nonneg; destruct T; cbn; lia).
  pose proof (Z.mod_pos_bound x (2 ^ bits T) ltac:(lia)) as Hm.
  destruct (is_signed T); [|exact Hm].
  destruct (x mod 2 ^ bits T <? 2 ^ (bits T - 1)) eqn:E;
    [apply Z.ltb_lt in E | apply Z.ltb_ge in E]; lia.
Qed.

Lemma decoded_short_in_range T consumed :
  1 <= Z.of_nat (List.length consumed) <= kMaxBytes T - 1 ->
  in_range T (decoded T consumed).
Proof.
  intros Hlen. pose proof (last_group_fits T) as Hfit.
  pose proof (leb_value_range consumed) as Hv.
  set (k := 7 * Z.of_nat (List.length consumed)) in *.
  assert (Hk : 7 <= k <= bits T) by (unfold k; lia).
  unfold in_range, decoded. fold k. destruct (is_signed T).
  - pose proof (sign_extend_at_range k (leb_value consumed) ltac:(lia) Hv).
    assert (2 ^ (k - 1) <= 2 ^ (bits T - 1)) by (apply Z.pow_le_mono_r; lia).
    lia.
  - assert (2 ^ k <= 2 ^ bits T) by (apply Z.pow_le_mono_r; lia). lia.
Qed.

Ltac returned :=
  match goal with
  | |- Some (Some ?X, ?d) = Some (Some ?v, ?rest) -> _ =>
    let E := fresh "E" in
    intros E;
    assert (X = v) by congruence;
    assert (d = rest) by congruence;
    clear E; subst v rest
  end.

Lemma ReadVarInt_loop_value T :
  forall fuel pre data v rest,
    Z.of_nat (List.length pre) + Z.of_nat fuel = kMaxBytes T ->
    ReadVarInt_loop T fuel (Z.of_nat (List.length pre)) (leb_value pre) data
    = Some (Some v, rest) ->
    exists c, data = c ++ rest /\ c <> [] /\ v = decoded T (pre ++ c)
              /\ in_range T v.
Proof.
  induction fuel as [|fuel IH]; intros pre data v rest Hi; [discriminate|].
  destruct data as [|b data]; [discriminate|].
  rewrite ReadVarInt_loop_cons.
  pose proof (last_group_fits T) as Hfit.
  pose proof (leb_value_range pre) as Hpre.
  rewrite accumulate by lia.
  assert (Hlen : Z.of_nat (List.length (pre ++ [b]))
                 = Z.of_nat (List.length pre) + 1)
    by (rewrite length_app; cbn; lia).
  destruct (Z.of_nat (List.length pre) + 1 =? kMaxBytes T) eqn:Hlast.
  - apply Z.eqb_eq in Hlast.
    destruct ((Z.land (u8v b) (kMask T) =? 0)
              || (is_signed T && (Z.land (u8v b) (kMask T) =? kOnes T)))
      eqn:Hok; [|discriminate].
    returned. exists [b].
    split; [reflexivity|]. split; [discriminate|].
    split; [|apply static_cast_in_range].
    replace (Z.of_nat (List.length pre)) with (kMaxBytes T - 1) by lia.
    rewrite last_byte_value; [| replace (kMaxBytes T - 1)
                                  with (Z.of_nat (List.length pre)) by lia;
                                exact Hpre | exact Hok].
    unfold decoded. rewrite leb_value_snoc, Hlen.
    replace (Z.of_nat (List.length pre)) with (kMaxBytes T - 1) by lia.
    replace (kMaxBytes T - 1 + 1) with (kMaxBytes T) by lia.
    reflexivity.
  - apply Z.eqb_neq in Hlast.
    assert (Hroom : 7 <= bits T - 7 * Z.of_nat (List.length pre)) by lia.
    assert (Hsmall : low7 b mod 2 ^ (bits T - 7 * Z.of_nat (List.length pre))
                     = low7 b).
    { apply Z.mod_small. pose proof (low7_range b).
      assert (2 ^ 7 <= 2 ^ (bits T - 7 * Z.of_nat (List.length pre)))
        by (apply Z.pow_le_mono_r; lia).
      change (2 ^ 7) with 128 in *. lia. }
    rewrite Hsmall, <- leb_value_snoc.
    destruct (Z.land (u8v b) 128 =? 0).
    + returned. exists [b].
      split; [reflexivity|]. split; [discriminate|].
      assert (Hv : (if is_signed T
                    then SignExtend T (leb_value (pre ++ [b]))
                           (6 + Z.of_nat (List.length pre) * 7)
                    else leb_value (pre ++ [b]))
                   = decoded T (pre ++ [b])).
      { unfold decoded. destruct (is_signed T); [|reflexivity].
        rewrite Hlen.
        replace (6 + Z.of_nat (List.length pre) * 7)
          with (6 + (Z.of_nat (List.length pre) + 1 - 1) * 7) by lia.
        apply SignExtend_spec; [lia | lia |].
        rewrite <- Hlen. apply leb_value_range. }
      rewrite Hv. split; [reflexivity|].
      apply decoded_short_in_range. lia.
    + rewrite <- Hlen. intros Hrun.
      apply IH in Hrun; [|lia].
      destruct Hrun as (c & -> & _ & -> & Hrange).
      exists (b :: c). split; [reflexivity|]. split; [discriminate|].
      rewrite <- app_assoc in *. split; [reflexivity | exact Hrange].
Qed.

Lemma ReadVarInt_decoded (T : IntType) (data : SpanU8) (v : Z) (rest : SpanU8) :
  ReadVarInt T data = (Some v, rest) ->
  exists consumed,
    data = consumed ++ rest /\ consumed <> []
    /\ v = decoded T consumed /\ in_range T v.
Proof.
  intros Hread.
  pose proof (VarIntFacts.kMaxBytes_pos T) as Hpos.
  assert (Hrun : ReadVarInt_loop T (Z.to_nat (kMaxBytes T)) 0 0 data
                 = Some (Some v, rest))
    by (rewrite VarIntFacts.ReadVarInt_loop_total; now f_equal).
  apply (ReadVarInt_loop_value T (Z.to_nat (kMaxBytes T)) []) in Hrun;
    [|cbn [List.length]; lia].
  exact Hrun.
Qed.

(** X3.  When [ReadVarInt<T>] returns a value it has consumed at least one
    byte, and the value is the number the seven data bits of the consumed
    bytes spell, least significant group first: as it is for an unsigned
    type, sign-extended from bit 7k-1 for a signed type and k bytes.  The
    value is a value of [T].  Said of the last byte: the bits the type has no
    room for carry no information. *)
Theorem ReadVarInt_value (T : IntType) (data : SpanU8) (v : Z) (rest : SpanU8) :
  ReadVarInt T data = (Some v, rest) ->
  exists consumed,
    data = consumed ++ rest /\ consumed <> []
    /\ v = decoded T consumed /\ in_range T v.
Proof. exact (ReadVarInt_decoded T data v rest). Qed.

(** X3 at [E5 8E 26] (624485) and [C0 BB 78] (-123456). *)
Lemma ReadVarInt_value_witness :
  ReadVarInt S32 [xc0; xbb; x78; x0b] = (Some (-123456), [x0b])
  /\ exists consumed,
      [xc0; xbb; x78; x0b] = consumed ++ [x0b] /\ consumed <> []
      /\ -123456 = decoded S32 consumed /\ in_range S32 (-123456).
Proof.
  split; [reflexivity|].
  exact (ReadVarInt_value S32 [xc0; xbb; x78; x0b] (-123456) [x0b] eq_refl).
Defined.

Example ReadVarInt_value_examples :
  decoded U32 [xe5; x8e; x26] = 624485
  /\ decoded S32 [xc0; xbb; x78] = -123456
  /\ decoded S64 (repeat xff 9 ++ [x7f]) = -1
  /\ decoded S32 [x7f] = -1 /\ decoded U32 [x7f] = 127.
Proof. repeat split. Qed.

End VarIntValueFacts.

(** ** [ReadVarInt]: the encodings it takes *)

Module VarIntFormatFacts.
Import Reader VarIntSpec VarIntValue VarIntFormat.

Lemma ReadVarInt_loop_nil T fuel i result :
  ReadVarInt_loop T (S fuel) i result [] = Some (None, []).
Proof. reflexivity. Qed.

Lemma ReadVarInt_loop_accepts T :
  forall fuel i result data rest,
    i + Z.of_nat fuel = kMaxBytes T ->
    (exists v, ReadVarInt_loop T fuel i result data = Some (Some v, rest))
    <-> exists init last,
          data = init ++ last :: rest
          /\ forallb continues init = true
          /\ (List.length init < fuel)%nat
          /\ if (S (List.length init) =? fuel)%nat
             then final_byte_ok T last = true
             else continues last = false.
Proof.
  induction fuel as [|fuel IH]; intros i result data rest Hfuel.
  - split.
    + intros [v Hv]. discriminate Hv.
    + intros (init & last & _ & _ & Hlen & _). lia.
  - destruct data as [|b data].
    + rewrite ReadVarInt_loop_nil. split.
      * intros [v Hv]. discriminate Hv.
      * intros (init & last & E & _). destruct init; discriminate E.
    + rewrite VarIntValueFacts.ReadVarInt_loop_cons.
      rewrite VarIntFacts.last_byte_test, VarIntFacts.continues_land.
      destruct (i + 1 =? kMaxBytes T) eqn:Hlast.
      * apply Z.eqb_eq in Hlast. assert (fuel = 0%nat) by lia. subst fuel.
        split.
        -- intros [v Hv].
           destruct (final_byte_ok T b) eqn:Hok; [|discriminate Hv].
           injection Hv as _ <-. exists [], b.
           cbn [app forallb List.length Nat.eqb]. repeat split.
           ++ lia.
           ++ exact Hok.
        -- intros (init & last & E & _ & Hlen & Hcond).
           destruct init as [|x init]; [|cbn in Hlen; lia].
           cbn [app List.length Nat.eqb] in E, Hcond.
           injection E as <- <-. rewrite Hcond.
           eexists. reflexivity.
      * apply Z.eqb_neq in Hlast. assert (1 <= fuel)%nat by lia.
        destruct (continues b) eqn:Hb; cbn [negb].
        -- rewrite (IH (i + 1) _ data rest) by lia. split.
           ++ intros (init & last & -> & Hall & Hlen & Hcond).
              exists (b :: init), last. cbn [app forallb List.length].
              rewrite Hb, Hall. repeat split; [lia | exact Hcond].
           ++ intros (init & last & E & Hall & Hlen & Hcond).
              destruct init as [|x init].
              ** cbn [app List.length Nat.eqb] in E, Hcond.
                 injection E as <- <-.
                 destruct fuel; [lia|]. cbn [Nat.eqb] in Hcond. congruence.
              ** cbn [app forallb List.length] in *. injection E as <- ->.
                 apply andb_prop in Hall. destruct Hall as [_ Hall].
                 exists init, last. repeat split; [exact Hall | lia |].
                 exact Hcond.
        -- split.
           ++ intros [v Hv]. injection Hv as _ <-. exists [], b.
              cbn [app forallb List.length Nat.eqb]. repeat split; [lia|].
              destruct fuel; [lia | exact Hb].
           ++ intros (init & last & E & Hall & Hlen & Hcond).
              destruct init as [|x init].
              ** cbn in E. injection E as <- <-. eexists. reflexivity.
              ** cbn [app forallb] in *. injection E as <- ->.
                 apply andb_prop in Hall. destruct Hall as [Hx _].
                 congruence.
Qed.

Lemma ReadVarInt_success_iff :
  forall (T : IntType) (data : SpanU8) (v : Z) (rest : SpanU8),
    ReadVarInt T data = (Some v, rest)
    <-> exists consumed,
          data = consumed ++ rest
          /\ well_formed T consumed
          /\ v = decoded T consumed.
Proof.
  intros T data v rest. pose proof (VarIntFacts.kMaxBytes_pos T) as Hpos.
  assert (Hfuel : 0 + Z.of_nat (Z.to_nat (kMaxBytes T)) = kMaxBytes T) by lia.
  pose proof (ReadVarInt_loop_accepts T _ 0 0 data rest Hfuel) as Hloop.
  rewrite VarIntFacts.ReadVarInt_loop_total in Hloop.
  split.
  - intros Hread.
    destruct (proj1 Hloop) as (init & last & Hdata & Hall & Hlen & Hcond).
    { exists v. now rewrite Hread. }
    destruct (VarIntValueFacts.ReadVarInt_decoded T data v rest Hread)
      as (c & Hc & _ & Hv & _).
    assert (c = init ++ [last]) as ->.
    { apply (app_inv_tail rest). rewrite <- Hc, Hdata, <- app_assoc.
      reflexivity. }
    exists (init ++ [last]). split; [exact Hc|]. split; [|exact Hv].
    exists init, last. split; [reflexivity|]. split; [exact Hall|].
    rewrite length_app. cbn [List.length]. split; [lia|].
    destruct (Nat.eqb_spec (S (List.length init)) (Z.to_nat (kMaxBytes T)))
      as [E|E].
    + replace (Z.of_nat (List.length init + 1) =? kMaxBytes T) with true
        by (symmetry; apply Z.eqb_eq; lia).
      exact Hcond.
    + replace (Z.of_nat (List.length init + 1) =? kMaxBytes T) with false
        by (symmetry; apply Z.eqb_neq; lia).
      exact Hcond.
  - intros (consumed & -> & (init & last & -> & Hall & Hlen & Hcond) & ->).
    rewrite length_app in Hlen, Hcond. cbn [List.length] in Hlen, Hcond.
    destruct (proj2 Hloop) as [v' Hv'].
    { exists init, last. rewrite <- app_assoc. split; [reflexivity|].
      split; [exact Hall|]. split; [lia|].
      destruct (Nat.eqb_spec (S (List.length init)) (Z.to_nat (kMaxBytes T)))
        as [E|E].
      - replace (Z.of_nat (List.length init + 1) =? kMaxBytes T) with true
          in Hcond by (symmetry; apply Z.eqb_eq; lia).
        exact Hcond.
      - replace (Z.of_nat (List.length init + 1) =? kMaxBytes T) with false
          in Hcond by (symmetry; apply Z.eqb_neq; lia).
        exact Hcond. }
    injection Hv' as Hread. rewrite Hread. f_equal. f_equal.
    destruct (VarIntValueFacts.ReadVarInt_decoded T _ v' rest Hread)
      as (c & Hc & _ & Hv & _).
    apply app_inv_tail in Hc. now subst c.
Qed.

(** X21.  [ReadVarInt<T>] returns a value exactly on the encodings for
    [T]: the bytes it consumes are bytes with the continuation bit followed
    by one without, at most [kMaxBytes] of them, the last one passing the
    test on the last byte when there are that many; the value returned is
    the one these bytes spell; and every input that starts with such an
    encoding is read, up to the end of the encoding. *)
Theorem ReadVarInt_accepts :
  forall (T : IntType) (data : SpanU8) (v : Z) (rest : SpanU8),
    ReadVarInt T data = (Some v, rest)
    <-> exists consumed,
          data = consumed ++ rest
          /\ well_formed T consumed
          /\ v = decoded T consumed.
Proof. exact ReadVarInt_success_iff. Qed.

End VarIntFormatFacts.

(** ** [ReadVarInt]: every value is read back *)

Module VarIntEncodeFacts.
Import Reader VarIntSpec VarIntValue VarIntFormat.

Lemma u8v_byte_of n : 0 <= n < 256 -> u8v (byte_of n) = n.
Proof.
  intros Hn. unfold byte_of, u8v.
  destruct (Byte.of_N (Z.to_N n)) as [b|] eqn:E.
  - apply Byte.to_of_N in E. rewrite E. lia.
  - apply Byte.of_N_None_iff in E. lia.
Qed.

Lemma continues_numeric b : continues b = (128 <=? u8v b).
Proof. destruct b; reflexivity. Qed.

Lemma pow7 n : 2 ^ (7 * Z.of_nat (S n)) = 128 * 2 ^ (7 * Z.of_nat n).
Proof.
  replace (7 * Z.of_nat (S n)) with (7 + 7 * Z.of_nat n) by lia.
  rewrite Z.pow_add_r by lia. reflexivity.
Qed.

Lemma pow7_pos n : 0 < 2 ^ (7 * Z.of_nat n).
Proof. apply Z.pow_pos_nonneg; lia. Qed.

Lemma encode_unsigned_spec :
  forall fuel v,
    (1 <= fuel)%nat ->
    0 <= v < 2 ^ (7 * Z.of_nat fuel) ->
    exists init last,
      encode_unsigned fuel v = init ++ [last]
      /\ forallb continues init = true
      /\ continues last = false
      /\ (List.length init < fuel)%nat
      /\ u8v last = v / 2 ^ (7 * Z.of_nat (List.length init))
      /\ leb_value (encode_unsigned fuel v) = v.
Proof.
  induction fuel as [|fuel IH]; intros v Hfuel Hv; [lia|].
  cbn [encode_unsigned]. destruct (Z.ltb_spec v 128) as [Hsmall|Hbig].
  - exists [], (byte_of v).
      assert (Hb : u8v (byte_of v) = v) by (apply u8v_byte_of; lia).
      cbn [app forallb List.length]. repeat split.
      * rewrite continues_numeric, Hb. apply Z.leb_gt. lia.
      * lia.
      * rewrite Hb. cbn. now rewrite Z.div_1_r.
      * cbn [leb_value fold_right].
        rewrite VarIntValueFacts.low7_mod, Hb, Z.mod_small; lia.
  - rewrite pow7 in Hv. pose proof (pow7_pos fuel) as Hpos.
      destruct (IH (v / 128)) as (init & last & E & Hall & Hlast & Hlen
                                 & Hval & Hleb).
      { destruct fuel; [cbn in Hv; lia | lia]. }
      { split; [apply Z.div_pos; lia|].
        apply Z.div_lt_upper_bound; lia. }
      pose proof (Z.mod_pos_bound v 128 ltac:(lia)) as Hmod.
      assert (Hb : u8v (byte_of (128 + v mod 128)) = 128 + v mod 128)
        by (apply u8v_byte_of; lia).
      exists (byte_of (128 + v mod 128) :: init), last.
      rewrite E. cbn [app forallb List.length].
      rewrite continues_numeric, Hb, Hall.
      repeat split.
      * apply andb_true_intro. split; [apply Z.leb_le; lia | reflexivity].
      * exact Hlast.
      * lia.
      * rewrite Hval, pow7, Z.div_div; [reflexivity | lia |].
        apply pow7_pos.
      * rewrite <- E. cbn [leb_value fold_right]. fold (leb_value (encode_unsigned fuel (v / 128))).
        rewrite Hleb, VarIntValueFacts.low7_mod, Hb.
        replace ((128 + v mod 128) mod 128) with (v mod 128).
        -- pose proof (Z.div_mod v 128 ltac:(lia)). lia.
        -- rewrite <- (Z.mod_mod v 128) at 1 by lia.
           rewrite <- (Z_mod_plus_full (v mod 128) 1 128).
           f_equal. lia.
Qed.


Lemma sign_extend_mod k v :
  1 <= k -> - 2 ^ (k - 1) <= v < 2 ^ (k - 1) ->
  sign_extend_at k (v mod 2 ^ k) = v.
Proof.
  intros Hk Hv. unfold sign_extend_at.
  assert (H2 : 2 ^ k = 2 * 2 ^ (k - 1))
    by (rewrite <- Z.pow_succ_r by lia; f_equal; lia).
  assert (Hpos : 0 < 2 ^ (k - 1)) by (apply Z.pow_pos_nonneg; lia).
  destruct (Z.lt_ge_cases v 0) as [Hneg|Hnn].
  - replace (v mod 2 ^ k) with (v + 2 ^ k).
    + destruct (Z.ltb_spec (v + 2 ^ k) (2 ^ (k - 1))); lia.
    + symmetry. rewrite <- (Z_mod_plus_full v 1 (2 ^ k)).
      rewrite Z.mul_1_l. apply Z.mod_small. lia.
  - rewrite Z.mod_small by lia.
    destruct (Z.ltb_spec v (2 ^ (k - 1))); lia.
Qed.

Lemma pow7_half n :
  2 ^ (7 * Z.of_nat (S (S n)) - 1) = 128 * 2 ^ (7 * Z.of_nat (S n) - 1).
Proof.
  replace (7 * Z.of_nat (S (S n)) - 1) with (7 + (7 * Z.of_nat (S n) - 1))
    by lia.
  rewrite Z.pow_add_r by lia. reflexivity.
Qed.

Lemma div128_range v M :
  0 < M -> (- (128 * M) <= v < 128 * M <-> - M <= v / 128 < M).
Proof.
  intros HM. pose proof (Z.div_mod v 128 ltac:(lia)) as Hdm.
  pose proof (Z.mod_pos_bound v 128 ltac:(lia)) as Hmod. lia.
Qed.

Lemma encode_signed_spec :
  forall fuel v,
    (1 <= fuel)%nat ->
    - 2 ^ (7 * Z.of_nat fuel - 1) <= v < 2 ^ (7 * Z.of_nat fuel - 1) ->
    exists init last,
      encode_signed fuel v = init ++ [last]
      /\ forallb continues init = true
      /\ continues last = false
      /\ (List.length init < fuel)%nat
      /\ u8v last = (v / 2 ^ (7 * Z.of_nat (List.length init))) mod 128
      /\ leb_value (encode_signed fuel v)
         = v mod 2 ^ (7 * Z.of_nat (S (List.length init)))
      /\ - 2 ^ (7 * Z.of_nat (S (List.length init)) - 1) <= v
         < 2 ^ (7 * Z.of_nat (S (List.length init)) - 1).
Proof.
  induction fuel as [|fuel IH]; intros v Hfuel Hv; [lia|].
  cbn [encode_signed].
  pose proof (Z.mod_pos_bound v 128 ltac:(lia)) as Hmod.
  destruct (Z.leb_spec (-64) v) as [Hlo|Hlo];
    destruct (Z.ltb_spec v 64) as [Hhi|Hhi]; cbn [andb].
  1: { exists [], (byte_of (v mod 128)).
       assert (Hb : u8v (byte_of (v mod 128)) = v mod 128)
         by (apply u8v_byte_of; lia).
       cbn [app forallb List.length]. repeat split.
       - rewrite continues_numeric, Hb. apply Z.leb_gt. lia.
       - lia.
       - rewrite Hb. cbn. now rewrite Z.div_1_r.
       - cbn [leb_value fold_right].
         rewrite VarIntValueFacts.low7_mod, Hb, Z.mod_mod by lia.
         change (2 ^ (7 * Z.of_nat 1)) with 128. lia.
       - change (2 ^ (7 * Z.of_nat 1 - 1)) with 64. lia.
       - change (2 ^ (7 * Z.of_nat 1 - 1)) with 64. lia. }
  all: destruct fuel as [|fuel];
    [change (2 ^ (7 * Z.of_nat 1 - 1)) with 64 in Hv; lia|].
  all: rewrite pow7_half in Hv;
    assert (HM : 0 < 2 ^ (7 * Z.of_nat (S fuel) - 1))
      by (apply Z.pow_pos_nonneg; lia);
    apply div128_range in Hv; [|exact HM];
    destruct (IH (v / 128) ltac:(lia) Hv)
      as (init & last & E & Hall & Hlast & Hlen & Hval & Hleb & Hrange);
    assert (Hb : u8v (byte_of (128 + v mod 128)) = 128 + v mod 128)
      by (apply u8v_byte_of; lia);
    exists (byte_of (128 + v mod 128) :: init), last;
    rewrite E; cbn [app forallb List.length];
    rewrite continues_numeric, Hb, Hall;
    (split; [reflexivity|]);
    (split; [apply andb_true_intro; split;
             [apply Z.leb_le; lia | reflexivity]|]);
    (split; [exact Hlast|]);
    (split; [lia|]);
    (split; [rewrite Hval, pow7, Z.div_div;
             [reflexivity | lia | apply pow7_pos]|]);
    split.
  all: try (rewrite <- E; cbn [leb_value fold_right];
            fold (leb_value (encode_signed (S fuel) (v / 128)));
            rewrite Hleb, VarIntValueFacts.low7_mod, Hb;
            rewrite (pow7 (S (List.length init)));
            rewrite Z.rem_mul_r by (try lia; apply pow7_pos);
            f_equal;
            rewrite <- (Z.mod_mod v 128) at 2 by lia;
            rewrite <- (Z_mod_plus_full (v mod 128) 1 128);
            f_equal; lia).
  all: rewrite pow7_half;
    apply div128_range; [apply Z.pow_pos_nonneg; lia | exact Hrange].
Qed.

Ltac eval_pow :=
  repeat match goal with
    | |- context [2 ^ ?e] =>
      let x := eval vm_compute in (2 ^ e) in
      lazymatch x with
      | Zpos _ => progress change (2 ^ e) with x
      end
    | H : context [2 ^ ?e] |- _ =>
      let x := eval vm_compute in (2 ^ e) in
      lazymatch x with
      | Zpos _ => progress change (2 ^ e) with x in H
      end
    end.

Lemma encode_well_formed T v :
  in_range T v ->
  well_formed T (encode T v) /\ decoded T (encode T v) = v.
Proof.
  intros Hv. unfold in_range in Hv. unfold well_formed, decoded, encode.
  pose proof (VarIntFacts.kMaxBytes_pos T) as Hpos.
  destruct (is_signed T) eqn:Hs.
  - destruct (encode_signed_spec (Z.to_nat (kMaxBytes T)) v)
      as (init & last & E & Hall & Hlast & Hlen & Hval & Hleb & Hrange).
    { lia. }
    { destruct T; try discriminate Hs; eval_pow; lia. }
    rewrite E in *. rewrite length_app in *. cbn [List.length] in *.
    replace (List.length init + 1)%nat with (S (List.length init)) in * by lia.
    split.
    + exists init, last. repeat split; [exact Hall | lia |].
      destruct (Z.eqb_spec (Z.of_nat (S (List.length init))) (kMaxBytes T))
        as [Hmax|_]; [|exact Hlast].
      rewrite <- VarIntFacts.last_byte_test,
        VarIntValueFacts.last_byte_numeric, Hs, Hval.
      replace (Z.of_nat (List.length init)) with (kMaxBytes T - 1) by lia.
      destruct T; try discriminate Hs; eval_pow;
        cbn [andb];
        apply Bool.orb_true_iff;
        match goal with
        | |- context [(?a / ?b) mod 128] =>
          pose proof (Z.div_mod a b ltac:(lia));
          pose proof (Z.mod_pos_bound a b ltac:(lia));
          pose proof (Z.div_mod (a / b) 128 ltac:(lia));
          pose proof (Z.mod_pos_bound (a / b) 128 ltac:(lia));
          destruct (Z.lt_ge_cases (a / b) 0);
            [right; apply andb_true_intro; split;
             [apply Z.leb_le | apply Z.ltb_lt]
            |left; apply Z.ltb_lt]; lia
        end.
    + rewrite Hleb. apply sign_extend_mod; [lia | exact Hrange].
  - destruct (encode_unsigned_spec (Z.to_nat (kMaxBytes T)) v)
      as (init & last & E & Hall & Hlast & Hlen & Hval & Hleb).
    { lia. }
    { destruct T; try discriminate Hs; eval_pow; lia. }
    split; [|exact Hleb].
    rewrite E in *. rewrite length_app in *. cbn [List.length] in *.
    exists init, last. repeat split; [exact Hall | lia |].
    destruct (Z.eqb_spec (Z.of_nat (List.length init + 1)) (kMaxBytes T))
      as [Hmax|_]; [|exact Hlast].
    rewrite <- VarIntFacts.last_byte_test,
      VarIntValueFacts.last_byte_numeric, Hs, Hval.
    replace (Z.of_nat (List.length init)) with (kMaxBytes T - 1) by lia.
    cbn [andb]. rewrite Bool.orb_false_r. apply Z.ltb_lt.
    destruct T; try discriminate Hs; eval_pow;
      apply Z.div_lt_upper_bound; lia.
Qed.

(** X23.  Every value of [T] is read back from its LEB128 encoding, the
    shortest one the usual encoder writes (seven bits a byte, least
    significant first, the continuation bit on all bytes but the last):
    [ReadVarInt<T>] returns the value and stops behind the encoding,
    whatever follows it.  So the reader is onto the values of the type. *)
Theorem ReadVarInt_encode :
  forall (T : IntType) (v : Z) (rest : SpanU8),
    in_range T v ->
    ReadVarInt T (encode T v ++ rest) = (Some v, rest).
Proof.
  intros T v rest Hv. destruct (encode_well_formed T v Hv) as [Hwf Hdec].
  apply VarIntFormatFacts.ReadVarInt_success_iff.
  exists (encode T v). now repeat split.
Qed.

Lemma ReadVarInt_encode_witness :
  in_range S64 (-9223372036854775808)
  /\ encode S64 (-9223372036854775808)
     = [x80; x80; x80; x80; x80; x80; x80; x80; x80; x7f]
  /\ ReadVarInt S64 (encode S64 (-9223372036854775808) ++ [xff])
     = (Some (-9223372036854775808), [xff]).
Proof.
  assert (Hr : in_range S64 (-9223372036854775808))
    by (vm_compute; split; [discriminate | reflexivity]).
  split; [exact Hr|]. split; [reflexivity|].
  exact (ReadVarInt_encode S64 (-9223372036854775808) [xff] Hr).
Defined.

Example encode_examples :
  encode U32 624485 = [xe5; x8e; x26]
  /\ encode S32 (-123456) = [xc0; xbb; x78]
  /\ encode U32 4294967295 = [xff; xff; xff; xff; x0f]
  /\ encode S32 (-1) = [x7f] /\ encode U64 0 = [x00].
Proof. repeat split. Qed.


End VarIntEncodeFacts.

(** ** Expressions: [ReadExpr] *)

Module ExprFacts.
Import Reader ExprSpec.

Lemma advances_ret {A} (a : A) : advances (ret a).
Proof. intros data r data' [= _ <-]. now exists []. Qed.

Lemma advances_fail {A} : advances (@fail A).
Proof. intros data r data' [= _ <-]. now exists []. Qed.

Lemma advances_bind {A B} (m : Reader A) (k : A -> Reader B) :
  advances m -> (forall a, advances (k a)) -> advances (bind m k).
Proof.
  intros Hm Hk data r data'. unfold bind.
  destruct (m data) as [[a|] d1] eqn:E1; intros E2.
  - destruct (Hm _ _ _ E1) as [c1 ->]. destruct (Hk _ _ _ _ E2) as [c2 ->].
    exists (c1 ++ c2). now rewrite app_assoc.
  - injection E2 as _ <-. exact (Hm _ _ _ E1).
Qed.

Lemma advances_ReadU8 : advances ReadU8.
Proof.
  intros [|b rest] r data' [= _ <-]; [now exists [] | now exists [b]].
Qed.

Lemma advances_ReadBytes N : advances (ReadBytes N).
Proof.
  intros data r data'. unfold ReadBytes.
  destruct (size data <? N); intros [= _ <-]; [now exists []|].
  exists (subspan0 N data). unfold subspan0, remove_prefix.
  now rewrite firstn_skipn.
Qed.

Lemma advances_ReadVarInt T : advances (ReadVarInt T).
Proof.
  intros data r data' E.
  destruct (VarIntFacts.ReadVarInt_suffix T data) as (c & Hc).
  rewrite E in Hc. now exists c.
Qed.

Lemma advances_ReadVec_loop {A} (rd : Reader A) :
  advances rd -> forall n acc, advances (ReadVec_loop rd n acc).
Proof.
  intros Hrd. induction n as [|n IH]; intros acc; cbn [ReadVec_loop].
  - apply advances_ret.
  - apply advances_bind; [exact Hrd | intros a; apply IH].
Qed.

Lemma advances_ReadValType : advances ReadValType.
Proof.
  apply advances_bind; [apply advances_ReadVarInt|]. intros v.
  repeat match goal with
         | |- advances (if ?c then _ else _) => destruct c
         end; auto using advances_ret, advances_fail.
Qed.

Lemma advances_ReadIndex : advances ReadIndex.
Proof. apply advances_ReadVarInt. Qed.

Lemma advances_ReadVarU32 : advances ReadVarU32.
Proof. apply advances_ReadVarInt. Qed.

Lemma advances_ReadVarS32 : advances ReadVarS32.
Proof. apply advances_ReadVarInt. Qed.

Lemma advances_ReadVarS64 : advances ReadVarS64.
Proof. apply advances_ReadVarInt. Qed.

Lemma advances_ReadF32 : advances ReadF32.
Proof. apply advances_ReadBytes. Qed.

Lemma advances_ReadF64 : advances ReadF64.
Proof. apply advances_ReadBytes. Qed.

(** A plain reader is never left by an exception. *)
Lemma lift_inv {A} (rd : Reader A) data r data' :
  lift rd data = (r, data') -> exists o, r = Normal o /\ rd data = (o, data').
Proof.
  unfold lift. destruct (rd data) as [o d]. intros [= <- <-]. now exists o.
Qed.

(** [ReadVec]: the count cannot be read, or the reservation is refused, or
    the elements are read one after the other. *)
Lemma ReadVec_cases (reserve : Allocator) {A} (rd : Reader A) data :
  (exists d1, ReadVarU32 data = (None, d1)
              /\ ReadVec reserve rd data = (Normal None, d1))
  \/ (exists len d1, ReadVarU32 data = (Some len, d1)
                     /\ reserve A len = false
                     /\ ReadVec reserve rd data
                        = (Thrown "std::vector::reserve", d1))
  \/ (exists len d1, ReadVarU32 data = (Some len, d1)
                     /\ reserve A len = true
                     /\ ReadVec reserve rd data
                        = lift (ReadVec_loop rd (Z.to_nat len) []) d1).
Proof.
  unfold ReadVec. destruct (ReadVarU32 data) as [[len|] d1].
  - destruct (reserve A len) eqn:E; [right; right | right; left];
      exists len, d1; now rewrite ?E.
  - left. now exists d1.
Qed.

(** A reader that an exception can leave moves its span forward too. *)
Definition advancesX {A} (m : ReaderX A) : Prop :=
  forall data r data', m data = (r, data') ->
    exists consumed, data = consumed ++ data'.

Lemma advancesX_lift {A} (rd : Reader A) : advances rd -> advancesX (lift rd).
Proof.
  intros Hrd data r data' E. apply lift_inv in E as (o & _ & E).
  exact (Hrd _ _ _ E).
Qed.

Lemma advancesX_ReadVec (reserve : Allocator) {A} (rd : Reader A) :
  advances rd -> advancesX (ReadVec reserve rd).
Proof.
  intros Hrd data r data' E.
  destruct (ReadVec_cases reserve rd data)
    as [(d1 & E1 & E2) | [(len & d1 & E1 & _ & E2) | (len & d1 & E1 & _ & E2)]];
    rewrite E2 in E; apply advances_ReadVarInt in E1 as [c1 ->].
  - injection E as _ <-. now exists c1.
  - injection E as _ <-. now exists c1.
  - apply lift_inv in E as (o & _ & E).
    apply (advances_ReadVec_loop rd Hrd) in E as [c2 ->].
    exists (c1 ++ c2). now rewrite app_assoc.
Qed.

(** The lemma for a reader, chosen by its name. *)
Ltac advances_lemma rd :=
  lazymatch rd with
  | ReadU8 => constr:(advances_ReadU8)
  | ReadIndex => constr:(advances_ReadIndex)
  | ReadVarU32 => constr:(advances_ReadVarU32)
  | ReadVarS32 => constr:(advances_ReadVarS32)
  | ReadVarS64 => constr:(advances_ReadVarS64)
  | ReadF32 => constr:(advances_ReadF32)
  | ReadF64 => constr:(advances_ReadF64)
  | ReadValType => constr:(advances_ReadValType)
  end.

(** What the [switch] makes of [ends_expected], by the opcode alone. *)
Lemma switch_opcode_delta op :
  (if opens op then 1 else 0) - (if closes op then 1 else 0)
  = match switch_opcode op with
    | CaseEnd => -1
    | CaseType => 1
    | _ => 0
    end.
Proof. destruct op; reflexivity. Qed.

Lemma switch_opcode_closes op :
  closes op = match switch_opcode op with CaseEnd => true | _ => false end.
Proof. destruct op; reflexivity. Qed.

Lemma switch_opcode_Try : switch_opcode Try = CaseDefault.
Proof. reflexivity. Qed.

Lemma switch_opcode_BrTable op :
  switch_opcode op = CaseBrTable -> op = EncodingOpcode.BrTable.
Proof. destruct op; cbv; congruence. Qed.

Section AnyHooks.
Context (reserve : Allocator) {H : Type} (hooks : ExprHooks H).

Ltac use_advances :=
  repeat match goal with
         | E : ?rd ?d = (Some _, ?d') |- _ =>
           let c := fresh "c" in
           let Hc := fresh "Hc" in
           let L := advances_lemma rd in
           pose proof (L _ _ _ E) as [c Hc];
           clear E; subst d
         end.

(** One step of a turn: a plain reader, [ReadVec], the counter or a hook. *)
Ltac turn_step :=
  match goal with
  | |- context [lift ?rd ?d] =>
    unfold lift at 1; destruct (rd d) as [[?|] ?] eqn:?
  | |- context [ReadVec reserve ReadIndex ?d] =>
    let E := fresh "Evec" in
    destruct (ReadVec_cases reserve ReadIndex d)
      as [(? & ? & E) | [(? & ? & ? & ? & E) | (? & ? & ? & ? & E)]];
    rewrite E; clear E
  | |- context [?n =? INT_MAX] => destruct (n =? INT_MAX) eqn:?
  | |- context [?n =? INT_MIN] => destruct (n =? INT_MIN) eqn:?
  | |- context [OnOpcode hooks ?ev ?h0] =>
    destruct (OnOpcode hooks ev h0) as [[|] ?] eqn:?
  end.

Lemma ReadExpr_switch_ok opcode ends_expected data h :
  turn_ok reserve hooks ends_expected (opcode :: data) h
    (ReadExpr_switch reserve hooks opcode ends_expected data h).
Proof.
  unfold turn_ok, ReadExpr_switch.
  pose proof (switch_opcode_delta opcode) as Hd.
  pose proof (switch_opcode_closes opcode) as Hcl.
  pose proof (switch_opcode_BrTable opcode) as Hbr.
  destruct (switch_opcode opcode) eqn:Hsw;
    unfold ebind, WASP_READ_OR_ERROR, WASP_HOOK, eret, increment, decrement;
    repeat turn_step.
  all: try (left; eexists; reflexivity).
  all: try (right; do 2 eexists; split; [eassumption | reflexivity]).
  all: try match goal with
       | Hz : (_ =? INT_MIN) = true |- _ =>
         right; apply Z.eqb_eq in Hz; split; [exact Hz | reflexivity]
       | Hz : (_ =? INT_MAX) = true, E : OnOpcode hooks ?ev _ = (Continue, _)
         |- _ =>
         left; apply Z.eqb_eq in Hz; split; [exact Hz|]; exists ev;
         split; [exact E | unfold delta; cbn [ev_opcode]; exact Hd]
       | Hr : reserve Z ?count = false, E : ReadVarU32 ?d = (Some ?count, _)
         |- _ =>
         split; [reflexivity|]; exists count, d;
         rewrite (Hbr eq_refl); repeat split; assumption
       end.
  all: repeat match goal with
       | E : ReadVec_loop ReadIndex _ _ ?d = (Some _, _) |- _ =>
         apply (advances_ReadVec_loop ReadIndex advances_ReadIndex) in E
           as [? ->]
       end.
  all: use_advances.
  all: match goal with
       | E : OnOpcode hooks ?ev _ = (Continue, _) |- _ =>
         exists opcode; eexists; exists ev;
         split; [| split; [exact E | split; [reflexivity | split]]]
       end.
  all: try (unfold delta; cbn [ev_opcode]; rewrite Hd; lia).
  all: try (rewrite Hcl; discriminate).
  all: try (intros _; split; reflexivity).
  all: first [ instantiate (1 := []); reflexivity
             | reflexivity
             | rewrite ?app_assoc; reflexivity ].
Qed.

Lemma ReadExpr_body_ok ends_expected data h :
  turn_ok reserve hooks ends_expected data h
    (ReadExpr_body reserve hooks ends_expected data h).
Proof.
  unfold ReadExpr_body, ebind, WASP_READ_OR_ERROR, lift.
  destruct data as [|opcode data]; cbn [ReadU8].
  - left. eexists. reflexivity.
  - apply ReadExpr_switch_ok.
Qed.

(** One more unit of fuel than there are bytes is enough for the loop. *)
Lemma ReadExpr_loop_total :
  forall fuel ends_expected data h,
    (List.length data < fuel)%nat ->
    ReadExpr_loop reserve hooks fuel ends_expected data h <> None.
Proof.
  induction fuel as [|fuel IH]; intros ends_expected data h Hlen; [lia|].
  cbn [ReadExpr_loop]. destruct (ends_expected =? 0); [discriminate|].
  pose proof (ReadExpr_body_ok ends_expected data h) as Hturn.
  destruct (ReadExpr_body reserve hooks ends_expected data h)
    as [[[[ends'|]|what|why] data'] h']; try discriminate.
  destruct Hturn as (opcode & imm & ev & -> & _).
  apply IH. cbn [List.length] in Hlen. rewrite length_app in Hlen. lia.
Qed.

(** The hooks do not decide what is read: a turn that succeeds reads what
    the recording hooks see read. *)
Lemma ReadExpr_switch_sim opcode ends_expected data h ends' data' h' :
  ReadExpr_switch reserve hooks opcode ends_expected data h
  = (Normal (Some ends'), data', h') ->
  exists ev, forall t,
      ReadExpr_switch reserve TraceHooks opcode ends_expected data t
      = (Normal (Some ends'), data', (fst t ++ [ev], snd t)).
Proof.
  unfold ReadExpr_switch.
  destruct (switch_opcode opcode);
    unfold ebind, WASP_READ_OR_ERROR, WASP_HOOK, eret, increment, decrement.
  all: repeat match goal with
       | |- context [lift ?rd ?d] =>
         change (lift rd d) with (let (r, d') := rd d in (Normal r, d'));
         destruct (rd d) as [[?|] ?] eqn:?
       | |- context [ReadVec reserve ReadIndex ?d] =>
         destruct (ReadVec reserve ReadIndex d) as [[[?|]|?|?] ?] eqn:?
       | |- context [?n =? INT_MAX] => destruct (n =? INT_MAX) eqn:?
       | |- context [?n =? INT_MIN] => destruct (n =? INT_MIN) eqn:?
       | |- context [OnOpcode hooks ?ev ?h0] =>
         destruct (OnOpcode hooks ev h0) as [[|] ?] eqn:?
       end;
    intros [= <- <- <-]; eexists; intros t; reflexivity.
Qed.

Lemma ReadExpr_body_sim ends_expected data h ends' data' h' :
  ReadExpr_body reserve hooks ends_expected data h
  = (Normal (Some ends'), data', h') ->
  exists ev, forall t,
      ReadExpr_body reserve TraceHooks ends_expected data t
      = (Normal (Some ends'), data', (fst t ++ [ev], snd t)).
Proof.
  unfold ReadExpr_body, ebind, WASP_READ_OR_ERROR, lift.
  destruct data as [|opcode data]; cbn [ReadU8]; [discriminate|].
  apply ReadExpr_switch_sim.
Qed.

Lemma ReadExpr_loop_sim :
  forall fuel ends_expected data h u data' h',
    ReadExpr_loop reserve hooks fuel ends_expected data h
    = Some (Normal (Some u), data', h') ->
    forall t, exists evs,
        ReadExpr_loop reserve TraceHooks fuel ends_expected data t
        = Some (Normal (Some u), data', (fst t ++ evs, snd t)).
Proof.
  induction fuel as [|fuel IH]; intros ends_expected data h u data' h';
    cbn [ReadExpr_loop]; destruct (ends_expected =? 0).
  - intros [= <- <- <-] t. exists []. rewrite app_nil_r.
    now destruct t.
  - discriminate.
  - intros [= <- <- <-] t. exists []. rewrite app_nil_r.
    now destruct t.
  - destruct (ReadExpr_body reserve hooks ends_expected data h)
      as [[[[ends'|]|what|why] data1] h1] eqn:Hbody; try discriminate.
    intros Hrun t.
    destruct (ReadExpr_body_sim _ _ _ _ _ _ Hbody) as [ev Hev].
    rewrite Hev.
    destruct (IH _ _ _ _ _ _ Hrun (fst t ++ [ev], snd t)) as [evs Hevs].
    exists (ev :: evs). rewrite Hevs. cbn [fst snd].
    now rewrite <- app_assoc.
Qed.

(** A read that succeeds, whatever the hooks, returns what the read with
    the recording hooks returns. *)
Lemma ReadExpr_sim data h expr rest h' :
  ReadExpr reserve hooks data h = (Normal (Some expr), rest, h') ->
  fst (ReadExpr reserve TraceHooks data ([], []))
  = (Normal (Some expr), rest).
Proof.
  unfold ReadExpr.
  destruct (ReadExpr_loop reserve hooks (S (List.length data)) 1 data h)
    as [[[[[u|]|what|why] data'] h1]|] eqn:Hrun; try discriminate.
  intros [= <- <- <-].
  destruct (ReadExpr_loop_sim _ _ _ _ _ _ _ Hrun ([], [])) as [evs Hevs].
  rewrite Hevs. reflexivity.
Qed.

End AnyHooks.
Lemma delta_range ev : -1 <= delta ev <= 1.
Proof.
  unfold delta. destruct (opens (ev_opcode ev)), (closes (ev_opcode ev)); lia.
Qed.

Lemma delta_closes ev : delta ev = -1 -> closes (ev_opcode ev) = true.
Proof.
  unfold delta. destruct (opens (ev_opcode ev)), (closes (ev_opcode ev));
    (reflexivity || lia).
Qed.

Lemma closes_End op : closes op = true -> op = EncodingOpcode.End.
Proof. unfold closes. apply Byte.byte_dec_bl. Qed.

(** X1.  [ReadExpr] terminates on every input and with every hooks: each
    turn of its loop reads at least the opcode, so one more turn than there
    are bytes is never needed. *)
Theorem ReadExpr_terminates :
  forall (reserve : Allocator) (H : Type) (hooks : ExprHooks H)
         (data : SpanU8) (h : H),
    ReadExpr_loop reserve hooks (S (List.length data)) 1 data h <> None.
Proof.
  intros reserve H hooks data h. apply ReadExpr_loop_total.
  apply Nat.lt_succ_diag_r.
Qed.

(** The loop with the recording hooks: it stops at the first instruction
    that brings [ends_expected] to zero, which is an [End]; it fails with
    one error and a level still open; it is left by the exception of a
    [br_table] whose count of targets was refused; or the instructions
    before it opened more levels than an [int] counts. *)
Lemma ReadExpr_loop_trace (reserve : Allocator) :
  forall fuel ends_expected data evs errs res,
    0 < ends_expected ->
    ReadExpr_loop reserve TraceHooks fuel ends_expected data (evs, errs)
    = Some res ->
    match res with
    | (Normal (Some _), data', (evs', errs')) =>
      exists consumed new,
        data = consumed ++ data' /\ evs' = evs ++ new /\ errs' = errs
        /\ run ends_expected new = 0
        /\ (forall n, (n < List.length new)%nat ->
                      0 < run ends_expected (firstn n new))
        /\ exists new0 consumed0,
            new = new0 ++ [OnOpcodeBare EncodingOpcode.End]
            /\ consumed = consumed0 ++ [EncodingOpcode.End]
    | (Normal None, data', (evs', errs')) =>
      exists new msg,
        evs' = evs ++ new /\ errs' = errs ++ [msg]
        /\ (forall n, (n <= List.length new)%nat ->
                      0 < run ends_expected (firstn n new))
    | (Thrown what, data', (evs', errs')) =>
      exists new consumed count d,
        evs' = evs ++ new /\ errs' = errs
        /\ (forall n, (n <= List.length new)%nat ->
                      0 < run ends_expected (firstn n new))
        /\ data = consumed ++ EncodingOpcode.BrTable :: d
        /\ ReadVarU32 d = (Some count, data')
        /\ reserve Z count = false
    | (Undef why, data', (evs', errs')) =>
      exists new,
        evs' = evs ++ new /\ errs' = errs
        /\ run ends_expected new = INT_MAX + 1
        /\ (forall n, (n <= List.length new)%nat ->
                      0 < run ends_expected (firstn n new))
    end.
Proof.
  induction fuel as [|fuel IH]; intros ends_expected data evs errs res Hpos;
    cbn [ReadExpr_loop];
    (destruct (ends_expected =? 0) eqn:Hz; [apply Z.eqb_eq in Hz; lia|]);
    [discriminate|].
  pose proof (ReadExpr_body_ok reserve TraceHooks ends_expected data
                (evs, errs)) as Hturn.
  destruct (ReadExpr_body reserve TraceHooks ends_expected data (evs, errs))
    as [[[[ends'|]|what|why] data1] h1]; cbn [turn_ok] in Hturn.
  - destruct Hturn as (opcode & imm & ev & -> & Hev & Hop & -> & Hend).
    cbn in Hev. injection Hev as <-.
    pose proof (delta_range ev) as Hrange.
    destruct (Z.eq_dec (ends_expected + delta ev) 0) as [Hzero|Hnz].
    + (* this instruction closes the outer level *)
      assert (Hcl : closes opcode = true)
        by (rewrite <- Hop; apply delta_closes; lia).
      destruct (Hend Hcl) as [-> ->].
      apply closes_End in Hcl. subst opcode.
      rewrite Hzero. destruct fuel; cbn [ReadExpr_loop Z.eqb];
        intros [= <-];
        (exists [EncodingOpcode.End], [OnOpcodeBare EncodingOpcode.End];
         split; [reflexivity|]; split; [reflexivity|]; split; [reflexivity|];
         split; [exact Hzero|]; split;
         [ intros [|n] Hn; [cbn; lia | cbn in Hn; lia]
         | exists [], []; split; reflexivity ]).
    + intros Hrun.
      apply IH in Hrun; [|lia].
      destruct res as [[[[u|]|what|why] data'] [evs' errs']].
      * destruct Hrun as (consumed & new & -> & -> & -> & Hfin & Hpre
                          & new0 & c0 & -> & ->).
        exists (opcode :: imm ++ c0 ++ [EncodingOpcode.End]),
          (ev :: new0 ++ [OnOpcodeBare EncodingOpcode.End]).
        split; [cbn; now rewrite <- !app_assoc|].
        split; [now rewrite <- app_assoc|]. split; [reflexivity|].
        split; [exact Hfin|]. split.
        -- intros [|n] Hn; [cbn; lia|]. cbn [firstn run fold_left].
           apply Hpre. cbn [List.length] in Hn. lia.
        -- exists (ev :: new0), (opcode :: imm ++ c0).
           split; [reflexivity|]. cbn. now rewrite <- app_assoc.
      * destruct Hrun as (new & msg & -> & -> & Hpre).
        exists (ev :: new), msg.
        split; [now rewrite <- app_assoc|]. split; [reflexivity|].
        intros [|n] Hn; [cbn; lia|]. cbn [firstn run fold_left].
        apply Hpre. cbn [List.length] in Hn. lia.
      * destruct Hrun as (new & c & count & d & -> & -> & Hpre & Hc & Hcount
                          & Hres).
        exists (ev :: new), (opcode :: imm ++ c), count, d.
        split; [now rewrite <- app_assoc|]. split; [reflexivity|].
        split; [|split; [|split; assumption]].
        -- intros [|n] Hn; [cbn; lia|]. cbn [firstn run fold_left].
           apply Hpre. cbn [List.length] in Hn. lia.
        -- rewrite Hc. cbn. now rewrite <- app_assoc.
      * destruct Hrun as (new & -> & -> & Hfin & Hpre).
        exists (ev :: new).
        split; [now rewrite <- app_assoc|]. split; [reflexivity|].
        split; [exact Hfin|].
        intros [|n] Hn; [cbn; lia|]. cbn [firstn run fold_left].
        apply Hpre. cbn [List.length] in Hn. lia.
  - intros [= <-]. destruct h1 as [evs' errs'].
    destruct Hturn as [[msg Hmsg] | (ev & h0 & Hstop & _)];
      [|cbn in Hstop; discriminate].
    cbn in Hmsg. injection Hmsg as -> ->.
    exists [], msg. split; [now rewrite app_nil_r|]. split; [reflexivity|].
    intros [|n] Hn; [cbn; lia | cbn in Hn; lia].
  - intros [= <-]. destruct h1 as [evs' errs'].
    destruct Hturn as (Hh & count & d & -> & Hcount & Hres).
    injection Hh as -> ->.
    exists [], [], count, d. split; [now rewrite app_nil_r|].
    split; [reflexivity|]. split; [|repeat split; assumption].
    intros [|n] Hn; [cbn; lia | cbn in Hn; lia].
  - intros [= <-]. destruct h1 as [evs' errs'].
    destruct Hturn as [(Hmax & ev & Hev & Hdelta) | (Hmin & _)];
      [|unfold INT_MIN in Hmin; lia].
    cbn in Hev. injection Hev as <- <-.
    exists [ev]. split; [reflexivity|]. split; [reflexivity|].
    split; [cbn [run fold_left]; lia|].
    intros [|[|n]] Hn; cbn [firstn run fold_left List.length] in *; lia.
Qed.

(** C3 (as amended).  With hooks that record the instructions and never
    stop, [ReadExpr] either returns the bytes it consumed, a prefix of the
    input that ends with the byte [End], having read instructions until the
    first one that closes the implicit outer level (every instruction whose
    opcode is [Block], [Loop] or [If] opens one level, every [End] closes
    one, [level] counts them), or it returns [nullopt] with one error
    reported and the outer level still open.  It returns neither when a
    [br_table] asks for targets that [std::vector::reserve] refuses, the
    exception leaving [ReadExpr] with no error reported, and when the
    instructions open more levels than an [int] counts, where the behaviour
    is undefined.  A read that succeeds with other hooks returns the same
    bytes.  [Try] (0x06) is none of the opcodes: a turn of the loop that
    meets one reports an unknown opcode and returns [nullopt], whatever the
    hooks and the nesting. *)
Theorem ReadExpr_nesting (reserve : Allocator) (data : SpanU8) :
  match ReadExpr reserve TraceHooks data ([], []) with
  | (Normal (Some expr), rest, (evs, errs)) =>
    data = expr ++ rest /\ errs = []
    /\ level evs = 0
    /\ (forall n, (n < List.length evs)%nat -> 0 < level (firstn n evs))
    /\ exists evs0 expr0,
        evs = evs0 ++ [OnOpcodeBare EncodingOpcode.End]
        /\ expr = expr0 ++ [EncodingOpcode.End]
  | (Normal None, rest, (evs, errs)) =>
    (exists msg, errs = [msg])
    /\ (forall n, (n <= List.length evs)%nat -> 0 < level (firstn n evs))
  | (Thrown what, rest, (evs, errs)) =>
    errs = []
    /\ (forall n, (n <= List.length evs)%nat -> 0 < level (firstn n evs))
    /\ exists consumed count d,
        data = consumed ++ EncodingOpcode.BrTable :: d
        /\ ReadVarU32 d = (Some count, rest)
        /\ reserve Z count = false
  | (Undef why, rest, (evs, errs)) =>
    errs = []
    /\ level evs = INT_MAX + 1
    /\ (forall n, (n <= List.length evs)%nat -> 0 < level (firstn n evs))
  end
  /\ (forall (H : Type) (hooks : ExprHooks H) (h : H) expr rest h',
        ReadExpr reserve hooks data h = (Normal (Some expr), rest, h') ->
        fst (ReadExpr reserve TraceHooks data ([], []))
        = (Normal (Some expr), rest))
  /\ (forall (H : Type) (hooks : ExprHooks H) (h : H),
        (forall ends_expected,
            ReadExpr_body reserve hooks ends_expected (Try :: data) h
            = (Normal None, data, OnError hooks "Unknown opcode 0x06" h))
        /\ ReadExpr reserve hooks (Try :: data) h
           = (Normal None, data, OnError hooks "Unknown opcode 0x06" h)).
Proof.
  split; [|split; [intros H hooks h expr rest h'; apply ReadExpr_sim|]].
  - unfold ReadExpr.
    pose proof (ReadExpr_loop_total reserve TraceHooks (S (List.length data))
                  1 data ([], []) (Nat.lt_succ_diag_r _)) as Htotal.
    destruct (ReadExpr_loop reserve TraceHooks (S (List.length data)) 1 data
                ([], []))
      as [res|] eqn:Hrun; [|contradiction].
    apply ReadExpr_loop_trace in Hrun; [|lia].
    destruct res as [[[[u|]|what|why] data'] [evs errs]].
    + destruct Hrun as (consumed & new & -> & Hevs & -> & Hfin & Hpre & Hlast).
      cbn [app] in Hevs. subst evs.
      assert (Hexpr : subspan0 (size (consumed ++ data') - size data')
                        (consumed ++ data') = consumed).
      { unfold subspan0, size. rewrite length_app.
        replace (Z.to_nat _) with (List.length consumed + 0)%nat by lia.
        rewrite firstn_app_2. cbn. apply app_nil_r. }
      rewrite Hexpr.
      split; [reflexivity|]. split; [reflexivity|].
      split; [exact Hfin|]. split; [exact Hpre | exact Hlast].
    + destruct Hrun as (new & msg & Hevs & -> & Hpre).
      cbn [app] in Hevs. subst evs.
      split; [now exists msg | exact Hpre].
    + destruct Hrun as (new & c & count & d & Hevs & -> & Hpre & Hc & Hcount
                        & Hres).
      cbn [app] in Hevs. subst evs.
      split; [reflexivity|]. split; [exact Hpre|].
      exists c, count, d. repeat split; assumption.
    + destruct Hrun as (new & Hevs & -> & Hfin & Hpre).
      cbn [app] in Hevs. subst evs.
      split; [reflexivity|]. split; [exact Hfin | exact Hpre].
  - intros H hooks h.
    assert (Hturn : forall ends_expected,
               ReadExpr_body reserve hooks ends_expected (Try :: data) h
               = (Normal None, data,
                  OnError hooks "Unknown opcode 0x06" h)).
    { intros ends_expected.
      unfold ReadExpr_body, ebind, WASP_READ_OR_ERROR, lift. cbn [ReadU8].
      unfold ReadExpr_switch. rewrite switch_opcode_Try. reflexivity. }
    split; [exact Hturn|].
    unfold ReadExpr. cbn [ReadExpr_loop Z.eqb]. now rewrite Hturn.
Qed.

(** C3, counterexample.  The bytes [06 40 0B 0B] would be [try], its block
    type, the [End] of the [try] and the [End] of the expression, were [Try]
    to open a level; [ReadExpr] stops at the first byte with an error and
    returns no expression. *)
Lemma ReadExpr_Try_counterexample :
  ReadExpr generous TraceHooks [Try; x40; x0b; x0b] ([], [])
  = (Normal None, [x40; x0b; x0b], ([], ["Unknown opcode 0x06"%string]))
  /\ ReadExpr generous TraceHooks [EncodingOpcode.Block; x40; x0b; x0b]
       ([], [])
     = (Normal (Some [EncodingOpcode.Block; x40; x0b; x0b]), [],
        ([OnOpcodeType EncodingOpcode.Block VT_Void;
          OnOpcodeBare EncodingOpcode.End; OnOpcodeBare EncodingOpcode.End],
         [])).
Proof. split; reflexivity. Qed.

(** Nested blocks: the expression ends with the [End] of the outer level,
    and the bytes after it are left unread. *)
Example ReadExpr_nested_blocks :
  ReadExpr generous TraceHooks
    [x02; x40; x03; x40; x04; x40; x01; x05; x0b; x0b; x0b; x0b; x01; x0b]
    ([], [])
  = (Normal
       (Some [x02; x40; x03; x40; x04; x40; x01; x05; x0b; x0b; x0b; x0b]),
     [x01; x0b],
     ([OnOpcodeType x02 VT_Void; OnOpcodeType x03 VT_Void;
       OnOpcodeType x04 VT_Void; OnOpcodeBare x01; OnOpcodeBare x05;
       OnOpcodeBare x0b; OnOpcodeBare x0b; OnOpcodeBare x0b;
       OnOpcodeBare x0b], [])).
Proof. reflexivity. Qed.

(** A [br_table] that announces more targets than the allocator grants:
    [ReadExpr] is left by the exception, and no error is reported. *)
Example ReadExpr_br_table_refused :
  ReadExpr (fun _ count => count <? 2 ^ 32 - 1) TraceHooks
    [x0e; xff; xff; xff; xff; x0f] ([], [])
  = (Thrown "std::vector::reserve", [], ([], [])).
Proof. reflexivity. Qed.

End ExprFacts.

(** ** What the readers depend on *)

Module LocalFacts.
Import Reader ReaderMore.

Lemma local_ret {A} (a : A) : local (ret a).
Proof.
  intros data v rest [= <- <-]. exists []. split; reflexivity.
Qed.

Lemma local_fail {A} : local (@fail A).
Proof. intros data v rest [=]. Qed.

Lemma local_bind {A B} (m : Reader A) (k : A -> Reader B) :
  local m -> (forall a, local (k a)) -> local (Base.bind m k).
Proof.
  intros Hm Hk data v rest. unfold Base.bind.
  destruct (m data) as [[a|] d1] eqn:E1; [|discriminate].
  intros E2.
  destruct (Hm _ _ _ E1) as (c1 & -> & Hm').
  destruct (Hk _ _ _ _ E2) as (c2 & -> & Hk').
  exists (c1 ++ c2). split; [now rewrite app_assoc|].
  intros rest'. rewrite <- app_assoc, Hm'. apply Hk'.
Qed.

Lemma local_if {A} (c : bool) (m1 m2 : Reader A) :
  local m1 -> local m2 -> local (if c then m1 else m2).
Proof. now destruct c. Qed.

Lemma local_ReadU8 : local ReadU8.
Proof.
  intros [|b data] v rest; [discriminate|]. intros [= <- <-].
  exists [b]. split; reflexivity.
Qed.

(** The first [len] bytes, when there are that many. *)
Lemma take_local (len : Z) :
  local (fun data => if len >? size data then (None, data)
                     else (Some (subspan0 len data), remove_prefix len data)).
Proof.
  intros data v rest. cbv beta.
  destruct (len >? size data) eqn:E; [discriminate|].
  intros [= <- <-]. exists (subspan0 len data).
  unfold subspan0, remove_prefix. split; [now rewrite firstn_skipn|].
  intros rest'.
  assert (Hlen : List.length (firstn (Z.to_nat len) data) = Z.to_nat len).
  { apply firstn_length_le. unfold size in E. lia. }
  replace (len >? size (firstn (Z.to_nat len) data ++ rest')) with false.
  - rewrite firstn_app, skipn_app, Hlen, Nat.sub_diag, firstn_O, app_nil_r.
    rewrite firstn_firstn, Nat.min_id.
    rewrite (skipn_all2 (n := Z.to_nat len)) by lia. reflexivity.
  - symmetry. unfold size. rewrite length_app, Hlen.
    rewrite Z.gtb_ltb. apply Z.ltb_ge. lia.
Qed.

Lemma ReadBytes_take N data :
  ReadBytes N data
  = if N >? size data then (None, data)
    else (Some (subspan0 N data), remove_prefix N data).
Proof. unfold ReadBytes. now rewrite Z.gtb_ltb. Qed.

Lemma local_ReadBytes N : local (ReadBytes N).
Proof.
  intros data v rest E. rewrite ReadBytes_take in E.
  destruct (take_local N data v rest E) as (c & -> & Hc).
  exists c. split; [reflexivity|]. intros rest'.
  rewrite ReadBytes_take. apply Hc.
Qed.

Lemma ReadVarInt_loop_local T :
  forall fuel i result data v rest,
    ReadVarInt_loop T fuel i result data = Some (Some v, rest) ->
    exists consumed,
      data = consumed ++ rest
      /\ forall rest',
          ReadVarInt_loop T fuel i result (consumed ++ rest')
          = Some (Some v, rest').
Proof.
  induction fuel as [|fuel IH]; intros i result data v rest; [discriminate|].
  destruct data as [|b data]; [discriminate|].
  rewrite VarIntValueFacts.ReadVarInt_loop_cons.
  destruct (i + 1 =? kMaxBytes T) eqn:Hlast.
  - destruct (_ || _) eqn:Hok; [|discriminate].
    intros [= <- <-]. exists [b]. split; [reflexivity|]. intros rest'.
    cbn [app]. rewrite VarIntValueFacts.ReadVarInt_loop_cons, Hlast, Hok.
    reflexivity.
  - destruct (Z.land (u8v b) 128 =? 0) eqn:Hend.
    + intros [= <- <-]. exists [b]. split; [reflexivity|]. intros rest'.
      cbn [app]. rewrite VarIntValueFacts.ReadVarInt_loop_cons, Hlast, Hend.
      reflexivity.
    + intros Hrun. destruct (IH _ _ _ _ _ Hrun) as (c & -> & Hc).
      exists (b :: c). split; [reflexivity|]. intros rest'.
      cbn [app]. rewrite VarIntValueFacts.ReadVarInt_loop_cons, Hlast, Hend.
      apply Hc.
Qed.

Lemma local_ReadVarInt T : local (ReadVarInt T).
Proof.
  intros data v rest E.
  assert (Hrun : ReadVarInt_loop T (Z.to_nat (kMaxBytes T)) 0 0 data
                 = Some (Some v, rest))
    by (rewrite VarIntFacts.ReadVarInt_loop_total; now f_equal).
  destruct (ReadVarInt_loop_local T _ _ _ _ _ _ Hrun) as (c & -> & Hc).
  exists c. split; [reflexivity|]. intros rest'.
  unfold ReadVarInt. now rewrite Hc.
Qed.

Lemma local_ReadVec_loop {A} (rd : Reader A) :
  local rd -> forall n acc, local (ReadVec_loop rd n acc).
Proof.
  intros Hrd. induction n as [|n IH]; intros acc; cbn [ReadVec_loop].
  - apply local_ret.
  - apply local_bind; [exact Hrd | intros a; apply IH].
Qed.

Lemma localX_lift {A} (rd : Reader A) : local rd -> localX (lift rd).
Proof.
  intros Hrd data v rest E. apply ExprFacts.lift_inv in E as (o & [= <-] & E).
  destruct (Hrd _ _ _ E) as (c & -> & Hc). exists c.
  split; [reflexivity|]. intros rest'. unfold lift. now rewrite Hc.
Qed.

(** The reservation is decided by the count, which is among the bytes
    consumed. *)
Lemma localX_ReadVec (reserve : Allocator) {A} (rd : Reader A) :
  local rd -> localX (ReadVec reserve rd).
Proof.
  intros Hrd data v rest E.
  destruct (ExprFacts.ReadVec_cases reserve rd data)
    as [(d1 & E1 & E2) | [(len & d1 & E1 & Hres & E2)
                         | (len & d1 & E1 & Hres & E2)]];
    rewrite E2 in E; try discriminate.
  apply ExprFacts.lift_inv in E as (o & [= <-] & E).
  destruct (local_ReadVarInt _ _ _ _ E1) as (c1 & -> & Hc1).
  destruct (local_ReadVec_loop rd Hrd _ _ _ _ _ E) as (c2 & -> & Hc2).
  exists (c1 ++ c2). split; [now rewrite app_assoc|]. intros rest'.
  unfold ReadVec, ReadVarU32. rewrite <- app_assoc, Hc1, Hres.
  unfold lift. now rewrite Hc2.
Qed.

Lemma local_ReadVecU8 : local ReadVecU8.
Proof.
  apply local_bind; [apply local_ReadVarInt | intros len; apply take_local].
Qed.

Lemma local_ReadStr : local ReadStr.
Proof.
  apply local_bind; [apply local_ReadVarInt | intros len; apply take_local].
Qed.

Ltac local_ifs :=
  repeat first [ apply local_if | apply local_ret | apply local_fail ].

Lemma local_ReadValType : local ReadValType.
Proof.
  apply local_bind; [apply local_ReadVarInt|]. intros v. local_ifs.
Qed.

Lemma local_ReadExternalKind : local ReadExternalKind.
Proof. apply local_bind; [apply local_ReadU8|]. intros b. local_ifs. Qed.

Lemma local_ReadMutability : local ReadMutability.
Proof. apply local_bind; [apply local_ReadU8|]. intros b. local_ifs. Qed.

Lemma local_ReadLimits : local ReadLimits.
Proof.
  apply local_bind; [apply local_ReadVarInt|]. intros flags.
  apply local_bind; [apply local_ReadVarInt|]. intros min.
  apply local_if; [|apply local_ret].
  apply local_bind; [apply local_ReadVarInt|]. intros max. apply local_ret.
Qed.

Lemma local_ReadMemoryType : local ReadMemoryType.
Proof.
  apply local_bind; [apply local_ReadLimits | intros l; apply local_ret].
Qed.

Lemma local_ReadTableType : local ReadTableType.
Proof.
  apply local_bind; [apply local_ReadValType|]. intros t.
  apply local_bind; [apply local_ReadLimits | intros l; apply local_ret].
Qed.

Lemma local_ReadGlobalType : local ReadGlobalType.
Proof.
  apply local_bind; [apply local_ReadValType|]. intros t.
  apply local_bind; [apply local_ReadMutability | intros m; apply local_ret].
Qed.

Lemma local_ReadLocalDecl : local ReadLocalDecl.
Proof.
  apply local_bind; [apply local_ReadVarInt|]. intros n.
  apply local_bind; [apply local_ReadValType | intros t; apply local_ret].
Qed.

(** X4.  What a reader of [reader-inl.h] returns is decided by the bytes it
    consumes: they are a prefix of its input, and the reader returns the same
    value from these bytes whatever follows them, stopping where they end
    ([ReadVec]: with the same answers of the allocator). *)
Theorem readers_local :
  local ReadU8
  /\ (forall N, local (ReadBytes N))
  /\ (forall T, local (ReadVarInt T))
  /\ (forall (reserve : Allocator) (A : Type) (read_element : Reader A),
         local read_element -> localX (ReadVec reserve read_element))
  /\ local ReadVecU8 /\ local ReadStr
  /\ local ReadValType /\ local ReadExternalKind /\ local ReadMutability
  /\ local ReadLimits /\ local ReadTableType /\ local ReadMemoryType
  /\ local ReadGlobalType /\ local ReadLocalDecl.
Proof.
  repeat split;
    auto using local_ReadU8, local_ReadBytes, local_ReadVarInt,
      @localX_ReadVec, local_ReadVecU8, local_ReadStr, local_ReadValType,
      local_ReadExternalKind, local_ReadMutability, local_ReadLimits,
      local_ReadTableType, local_ReadMemoryType, local_ReadGlobalType,
      local_ReadLocalDecl.
Qed.

End LocalFacts.

(** ** An expression can be read again from its own bytes *)

Module ExprLocalFacts.
Import Reader ReaderMore ExprSpec.

Section AnyHooks.
Context (reserve : Allocator) {H : Type} (hooks : ExprHooks H).

Lemma elocal_eret {A} (a : A) : elocal (@eret H A a).
Proof.
  intros data h v rest h' [= <- <- <-]. exists []. split; reflexivity.
Qed.

Lemma elocal_ebind {A B} (m : ExprM A) (k : A -> ExprM B) :
  elocal m -> (forall a, elocal (k a)) -> elocal (@ebind H A B m k).
Proof.
  intros Hm Hk data h v rest h'. unfold ebind.
  destruct (m data h) as [[[[a|]|what|why] d1] h1] eqn:E1; try discriminate.
  intros E2.
  destruct (Hm _ _ _ _ _ E1) as (c1 & -> & Hm').
  destruct (Hk _ _ _ _ _ _ E2) as (c2 & -> & Hk').
  exists (c1 ++ c2). split; [now rewrite app_assoc|].
  intros rest'. rewrite <- app_assoc, Hm'. apply Hk'.
Qed.

Lemma elocal_READ_OR_ERROR {A} (call : ReaderX A) desc :
  localX call -> elocal (WASP_READ_OR_ERROR hooks call desc).
Proof.
  intros Hc data h v rest h'. unfold WASP_READ_OR_ERROR.
  destruct (call data) as [[[a|]|what|why] d1] eqn:E; try discriminate.
  intros [= <- <- <-].
  destruct (Hc _ _ _ E) as (c & -> & Hc').
  exists c. split; [reflexivity|]. intros rest'. now rewrite Hc'.
Qed.

Lemma elocal_HOOK ev : elocal (WASP_HOOK hooks ev).
Proof.
  intros data h v rest h'. unfold WASP_HOOK.
  destruct (OnOpcode hooks ev h) as [[|] h1] eqn:E; [|discriminate].
  intros [= <- <- <-]. exists []. split; [reflexivity|]. intros rest'.
  reflexivity.
Qed.

Lemma elocal_increment n : elocal (@increment H n).
Proof.
  intros data h v rest h'. unfold increment.
  destruct (n =? INT_MAX); [discriminate|].
  intros [= <- <- <-]. exists []. split; reflexivity.
Qed.

Lemma elocal_decrement n : elocal (@decrement H n).
Proof.
  intros data h v rest h'. unfold decrement.
  destruct (n =? INT_MIN); [discriminate|].
  intros [= <- <- <-]. exists []. split; reflexivity.
Qed.

Ltac elocal_steps :=
  repeat first
    [ apply elocal_eret
    | apply elocal_HOOK
    | apply elocal_increment
    | apply elocal_decrement
    | apply elocal_READ_OR_ERROR
    | apply elocal_ebind; [|intros ?] ].

Lemma elocal_ReadExpr_switch opcode ends_expected :
  elocal (ReadExpr_switch reserve hooks opcode ends_expected).
Proof.
  unfold ReadExpr_switch.
  destruct (switch_opcode opcode); cbv zeta; elocal_steps;
    try first
      [ apply LocalFacts.localX_ReadVec; apply LocalFacts.local_ReadVarInt
      | apply LocalFacts.localX_lift;
        first [ apply LocalFacts.local_ReadValType
              | apply LocalFacts.local_ReadU8
              | apply LocalFacts.local_ReadVarInt
              | apply LocalFacts.local_ReadBytes ] ].
  intros data h v rest h' [=].
Qed.

Lemma elocal_ReadExpr_body ends_expected :
  elocal (ReadExpr_body reserve hooks ends_expected).
Proof.
  unfold ReadExpr_body. apply elocal_ebind.
  - apply elocal_READ_OR_ERROR, LocalFacts.localX_lift,
      LocalFacts.local_ReadU8.
  - intros opcode. apply elocal_ReadExpr_switch.
Qed.

(** A run of the loop that succeeds can be replayed on the bytes it consumed,
    with any fuel that covers them. *)
Lemma ReadExpr_loop_local :
  forall fuel ends_expected data h rest h',
    ReadExpr_loop reserve hooks fuel ends_expected data h
    = Some (Normal (Some tt), rest, h') ->
    exists consumed,
      data = consumed ++ rest
      /\ forall rest' fuel',
          (List.length (consumed ++ rest') < fuel')%nat ->
          ReadExpr_loop reserve hooks fuel' ends_expected (consumed ++ rest') h
          = Some (Normal (Some tt), rest', h').
Proof.
  induction fuel as [|fuel IH]; intros ends_expected data h rest h' Hrun.
  - cbn [ReadExpr_loop] in Hrun.
    destruct (ends_expected =? 0) eqn:E0; [|discriminate].
    injection Hrun as <- <-. exists []. split; [reflexivity|].
    intros rest' [|fuel'] _; cbn [ReadExpr_loop app]; now rewrite E0.
  - cbn [ReadExpr_loop] in Hrun.
    destruct (ends_expected =? 0) eqn:E0.
    + injection Hrun as <- <-. exists []. split; [reflexivity|].
      intros rest' [|fuel'] _; cbn [ReadExpr_loop app]; now rewrite E0.
    + pose proof (ExprFacts.ReadExpr_body_ok reserve hooks ends_expected
                    data h) as Hturn.
      destruct (ReadExpr_body reserve hooks ends_expected data h)
        as [[[[ends'|]|what|why] d1] h1] eqn:Ebody; try discriminate.
      destruct Hturn as (opcode & imm & ev & Hdata & _).
      destruct (elocal_ReadExpr_body _ _ _ _ _ _ Ebody) as (c1 & Hc1 & Hbody).
      assert (Hne : c1 = opcode :: imm).
      { apply (app_inv_tail d1). rewrite <- Hc1, Hdata. reflexivity. }
      destruct (IH _ _ _ _ _ Hrun) as (c2 & -> & Hloop).
      exists (c1 ++ c2). split; [now rewrite Hc1, app_assoc|].
      intros rest' fuel' Hfuel.
      destruct fuel' as [|fuel']; [lia|].
      cbn [ReadExpr_loop]. rewrite E0, <- app_assoc, Hbody.
      apply Hloop. subst c1.
      rewrite <- app_assoc in Hfuel. cbn [app List.length] in Hfuel.
      rewrite length_app in Hfuel. rewrite length_app in *. lia.
Qed.

Lemma ReadExpr_local : elocal (ReadExpr reserve hooks).
Proof.
  intros data h expr rest h'. unfold ReadExpr.
  destruct (ReadExpr_loop reserve hooks (S (List.length data)) 1 data h)
    as [[[[[[]|]|what|why] d1] h1]|] eqn:Hrun; try discriminate.
  cbv zeta. intros [= <- <- <-].
  destruct (ReadExpr_loop_local _ _ _ _ _ _ Hrun) as (c & -> & Hloop).
  assert (Hsub : forall r, subspan0 (size (c ++ r) - size r) (c ++ r) = c).
  { intros r. unfold subspan0, size. rewrite length_app.
    replace (Z.of_nat (List.length c + List.length r) - Z.of_nat (List.length r))
      with (Z.of_nat (List.length c)) by lia.
    rewrite Nat2Z.id, firstn_app, Nat.sub_diag, firstn_O, app_nil_r.
    apply firstn_all. }
  exists c. rewrite Hsub. split; [reflexivity|]. intros rest'.
  rewrite (Hloop rest' (S (List.length (c ++ rest')))) by lia.
  now rewrite Hsub.
Qed.

End AnyHooks.

(** X5.  When [ReadExpr] returns an expression, its span is the bytes the
    call consumed (the input is the expression followed by what is left), and
    reading these bytes again with the same hooks, followed by anything,
    returns the same expression with the same hook calls and stops where they
    end. *)
Theorem ReadExpr_reread :
  forall (reserve : Allocator) (H : Type) (hooks : ExprHooks H)
         (data : SpanU8) (h : H) (expr rest : SpanU8) (h' : H),
    ReadExpr reserve hooks data h = (Normal (Some expr), rest, h') ->
    data = expr ++ rest
    /\ forall rest',
        ReadExpr reserve hooks (expr ++ rest') h
        = (Normal (Some expr), rest', h').
Proof.
  intros reserve H hooks data h expr rest h' Hread.
  destruct (ReadExpr_local reserve hooks _ _ _ _ _ Hread)
    as (c & Hdata & Hc).
  assert (c = expr) as ->.
  { pose proof (Hc rest) as Hagain. rewrite <- Hdata, Hread in Hagain.
    unfold ReadExpr in Hread.
    destruct (ReadExpr_loop reserve hooks (S (List.length data)) 1 data h)
      as [[[[[[]|]|what|why] d1] h1]|]; try discriminate.
    cbv zeta in Hread. injection Hread as <- <- <-.
    subst data. unfold subspan0, size. rewrite length_app.
    replace (Z.of_nat (List.length c + List.length d1) - Z.of_nat (List.length d1))
      with (Z.of_nat (List.length c)) by lia.
    rewrite Nat2Z.id, firstn_app, Nat.sub_diag, firstn_O, app_nil_r.
    symmetry. apply firstn_all. }
  split; [exact Hdata | exact Hc].
Qed.

Lemma ReadExpr_reread_witness :
  ReadExpr generous TraceHooks [x02; x40; x41; x2a; x0b; x0b; x01] ([], [])
  = (Normal (Some [x02; x40; x41; x2a; x0b; x0b]), [x01],
     ([OnOpcodeType x02 VT_Void; OnOpcodeI32Const x41 42;
       OnOpcodeBare x0b; OnOpcodeBare x0b], []))
  /\ forall rest',
       ReadExpr generous TraceHooks
         ([x02; x40; x41; x2a; x0b; x0b] ++ rest') ([], [])
       = (Normal (Some [x02; x40; x41; x2a; x0b; x0b]), rest',
          ([OnOpcodeType x02 VT_Void; OnOpcodeI32Const x41 42;
            OnOpcodeBare x0b; OnOpcodeBare x0b], [])).
Proof.
  split; [reflexivity|].
  exact (proj2 (ReadExpr_reread generous _ TraceHooks
                  [x02; x40; x41; x2a; x0b; x0b; x01] ([], []) _ _ _ eq_refl)).
Defined.

End ExprLocalFacts.

(** ** Length-prefixed reads *)

Module VecFacts.
Import Reader ReaderMore VarIntValue.

Lemma ReadVarU32_nonneg data len rest :
  ReadVarU32 data = (Some len, rest) -> 0 <= len.
Proof.
  intros E. apply VarIntValueFacts.ReadVarInt_decoded in E.
  destruct E as (_ & _ & _ & _ & Hrange). unfold in_range in Hrange.
  cbn in Hrange. lia.
Qed.

Lemma ReadVec_loop_reads {A} (rd : Reader A) :
  forall n acc data xs rest,
    ReadVec_loop rd n acc data = (Some xs, rest) ->
    exists new,
      xs = acc ++ new /\ List.length new = n /\ reads_seq rd data new rest.
Proof.
  induction n as [|n IH]; intros acc data xs rest; cbn [ReadVec_loop].
  - intros [= <- <-]. exists []. rewrite app_nil_r.
    repeat split. constructor.
  - unfold Base.bind. destruct (rd data) as [[x|] d1] eqn:E; [|discriminate].
    intros Hrun. destruct (IH _ _ _ _ Hrun) as (new & -> & Hlen & Hseq).
    exists (x :: new). rewrite <- app_assoc. cbn [app List.length].
    repeat split; [now rewrite Hlen|]. econstructor; eassumption.
Qed.

Lemma reads_ReadVec_loop {A} (rd : Reader A) :
  forall new acc data rest,
    reads_seq rd data new rest ->
    ReadVec_loop rd (List.length new) acc data = (Some (acc ++ new), rest).
Proof.
  induction new as [|x new IH]; intros acc data rest Hseq;
    inversion Hseq as [|? ? d1 ? ? Hx Hxs]; subst;
    cbn [ReadVec_loop List.length].
  - now rewrite app_nil_r.
  - unfold Base.bind. rewrite Hx, (IH _ _ _ Hxs), <- app_assoc. reflexivity.
Qed.

(** X6.  [ReadVec] returns a vector exactly when a count can be read,
    [std::vector::reserve] grants room for that many elements, and that many
    elements can be read one after the other behind the count: the vector
    holds these elements in the order read, and the span is left behind the
    last one.  It is left by an exception exactly when the count can be read
    and the reservation is refused, nothing behind the count being read.
    Its behaviour is always defined. *)
Theorem ReadVec_elements :
  forall (reserve : Allocator) (A : Type) (read_element : Reader A)
         (data : SpanU8),
    (forall xs rest,
        ReadVec reserve read_element data = (Normal (Some xs), rest)
        <-> exists data',
              ReadVarU32 data = (Some (Z.of_nat (List.length xs)), data')
              /\ reserve A (Z.of_nat (List.length xs)) = true
              /\ reads_seq read_element data' xs rest)
    /\ (forall what rest,
           ReadVec reserve read_element data = (Thrown what, rest)
           <-> what = "std::vector::reserve"%string
               /\ exists len,
                    ReadVarU32 data = (Some len, rest)
                    /\ reserve A len = false)
    /\ (forall why rest,
           ReadVec reserve read_element data <> (Undef why, rest)).
Proof.
  intros reserve A rd data. unfold ReadVec, lift. split; [|split].
  - intros xs rest. split.
    + destruct (ReadVarU32 data) as [[len|] d1] eqn:E; [|discriminate].
      destruct (reserve A len) eqn:Hres; [|discriminate].
      destruct (ReadVec_loop rd (Z.to_nat len) [] d1) as [r d2] eqn:Hrun.
      intros [= -> ->]. apply ReadVec_loop_reads in Hrun.
      destruct Hrun as (new & -> & Hlen & Hseq). cbn [app] in *.
      apply ReadVarU32_nonneg in E as Hpos.
      exists d1. rewrite Hlen, Z2Nat.id by exact Hpos.
      repeat split; assumption.
    + intros (d1 & -> & -> & Hseq). rewrite Nat2Z.id.
      now rewrite (reads_ReadVec_loop rd xs [] d1 rest Hseq).
  - intros what rest. split.
    + destruct (ReadVarU32 data) as [[len|] d1] eqn:E; [|discriminate].
      destruct (reserve A len) eqn:Hres.
      * destruct (ReadVec_loop rd (Z.to_nat len) [] d1); discriminate.
      * intros [= <- <-]. split; [reflexivity|]. now exists len.
    + intros (-> & len & -> & ->). reflexivity.
  - intros why rest.
    destruct (ReadVarU32 data) as [[len|] d1]; [|discriminate].
    destruct (reserve A len); [|discriminate].
    destruct (ReadVec_loop rd (Z.to_nat len) [] d1); discriminate.
Qed.

Lemma take_spec (len : Z) (data bytes rest : SpanU8) :
  0 <= len ->
  (if len >? size data then (None, data)
   else (Some (subspan0 len data), remove_prefix len data))
  = (Some bytes, rest)
  <-> data = bytes ++ rest /\ size bytes = len.
Proof.
  intros Hpos. unfold size, subspan0, remove_prefix. split.
  - destruct (len >? _) eqn:E; [discriminate|]. intros [= <- <-].
    rewrite firstn_skipn. split; [reflexivity|].
    rewrite firstn_length_le; lia.
  - intros [-> <-]. rewrite length_app.
    replace (_ >? _) with false by (symmetry; rewrite Z.gtb_ltb; apply Z.ltb_ge; lia).
    rewrite Nat2Z.id, firstn_app, skipn_app, Nat.sub_diag, firstn_O, app_nil_r.
    rewrite firstn_all, skipn_all. reflexivity.
Qed.

(** X7.  [ReadVecU8] and [ReadStr] read the same thing, a count followed by
    that many bytes: they return bytes exactly when a count can be read and
    at least that many bytes follow it, the result is these bytes and the
    span is left behind them.  They fail when the count cannot be read, or
    with the count consumed and nothing else when fewer bytes follow. *)
Theorem ReadVecU8_bytes :
  forall (data : SpanU8),
    ReadStr data = ReadVecU8 data
    /\ (forall bytes rest,
           ReadVecU8 data = (Some bytes, rest)
           <-> exists data',
                 ReadVarU32 data = (Some (size bytes), data')
                 /\ data' = bytes ++ rest)
    /\ (forall rest,
           ReadVecU8 data = (None, rest)
           <-> ReadVarU32 data = (None, rest)
               \/ exists len,
                    ReadVarU32 data = (Some len, rest) /\ size rest < len).
Proof.
  intros data. split; [reflexivity|]. unfold ReadVecU8, Base.bind. split.
  - intros bytes rest. split.
    + destruct (ReadVarU32 data) as [[len|] d1] eqn:E; [|discriminate].
      intros Hrun. apply ReadVarU32_nonneg in E as Hpos.
      apply take_spec in Hrun; [|exact Hpos]. destruct Hrun as [-> <-].
      exists (bytes ++ rest). split; reflexivity.
    + intros (d1 & -> & ->). apply take_spec; [unfold size; lia|].
      split; reflexivity.
  - intros rest. split.
    + destruct (ReadVarU32 data) as [[len|] d1] eqn:E.
      * destruct (len >? size d1) eqn:Hlen; [|discriminate].
        intros [= <-]. right. exists len. split; [reflexivity|]. lia.
      * intros [= <-]. now left.
    + intros [-> | (len & -> & Hlen)]; [reflexivity|].
      replace (len >? size rest) with true; [reflexivity|].
      symmetry. apply Z.gtb_lt. lia.
Qed.

Example ReadVec_ReadVecU8_examples :
  ReadVec generous ReadIndex [x03; x05; x80; x01; xcc; xcc; x02; xff]
  = (Normal (Some [5; 128; 42572]), [xff])
  /\ ReadVec generous ReadIndex [x02; x05] = (Normal None, [])
  /\ ReadVec (fun _ count => count <? 2 ^ 20) ReadIndex
       [x80; x80; x80; x01; x05]
     = (Thrown "std::vector::reserve", [x05])
  /\ ReadVecU8 [x02; x61; x62; x63] = (Some [x61; x62], [x63])
  /\ ReadVecU8 [x03; x61; x62] = (None, [x61; x62])
  /\ ReadStr [x00] = (Some [], []).
Proof. repeat split. Qed.

End VecFacts.

(** ** Limits, memories and the error trail *)

Module LimitsFacts.
Import Read.

(** C2.  The three scenarios of the specification, read by [Read<Limits>]
    of [read_limits.h], and the third one read by [ReadLimits] of
    [reader-inl.h], which tests bit 0 of the flags only: it returns limits
    without a maximum and leaves the last byte unread. *)
Theorem ReadLimits_scenarios :
  Read_Limits [x01; x01; x02] no_errors
  = (Some (mkLimits 1 (Some 2)), [], no_errors)
  /\ Read_Limits [x00; x05] no_errors
     = (Some (mkLimits 5 None), [], no_errors)
  /\ Read_Limits [x02; x01; x02] no_errors
     = (None, [x01; x02],
        mkTestErrors []
          [[mkErrorContext [x02; x01; x02] "limits";
            mkErrorContext [x01; x02] "Invalid flags value: 2"]])
  /\ Reader.ReadLimits [x01; x01; x02]
     = (Some (Reader.mkLimits 1 (Some 2)), [])
  /\ Reader.ReadLimits [x00; x05] = (Some (Reader.mkLimits 5 None), [])
  /\ Reader.ReadLimits [x02; x01; x02]
     = (Some (Reader.mkLimits 1 None), [x02]).
Proof. repeat split; reflexivity. Qed.

(** [Read<Limits>] refuses every flags byte other than 0 and 1, with one
    error in the context "limits", at the position after the flags. *)
Lemma Read_Limits_bad_flags flags rest e :
  flags <> EncodingLimits.Flags_NoMax ->
  flags <> EncodingLimits.Flags_HasMax ->
  Read_Limits (flags :: rest) e
  = (None, rest,
     mkTestErrors (context_stack e)
       (errors e ++ [context_stack e
                       ++ [mkErrorContext (flags :: rest) "limits";
                           mkErrorContext rest (Invalid_flags_value flags)]])).
Proof.
  intros H0 H1.
  unfold Read_Limits, ErrorsContextGuard, WASP_TRY_READ_CONTEXT,
    ErrorsContextGuard, bind, Read_u8, error.
  cbn [HandlePushContext HandlePopContext context_stack errors].
  destruct (Byte.eqb flags EncodingLimits.Flags_NoMax) eqn:E0;
    [apply Byte.byte_dec_bl in E0; contradiction|].
  destruct (Byte.eqb flags EncodingLimits.Flags_HasMax) eqn:E1;
    [apply Byte.byte_dec_bl in E1; contradiction|].
  unfold HandlePopContext, HandleOnError, HandlePushContext.
  cbn [context_stack errors].
  rewrite !removelast_last, <- app_assoc. reflexivity.
Qed.

(** [ReadLimits] of [reader-inl.h] looks at bit 0 of the flags only. *)
Lemma ReadLimits_even_flags rest :
  Reader.ReadLimits (x02 :: rest)
  = match Reader.ReadVarU32 rest with
    | (Some m, rest') => (Some (Reader.mkLimits m None), rest')
    | (None, rest') => (None, rest')
    end.
Proof.
  unfold Reader.ReadLimits, Base.bind.
  change (Reader.ReadVarU32 (x02 :: rest)) with (Some 2, rest).
  cbv beta iota.
  destruct (Reader.ReadVarU32 rest) as [[m|] rest']; reflexivity.
Qed.

(** C7.  Reading a [Memory] from the empty input reports one error: the
    frames "memory", "memory type", "limits" and "flags", all at offset 0,
    then "Unable to read u8"; no value is returned and the context stack is
    empty afterwards.  An error is always made of every frame on the context
    stack, oldest first, followed by its own message. *)
Theorem Read_Memory_PastEnd :
  (exists err,
      Read_Memory [] no_errors = (None, [], mkTestErrors [] [err])
      /\ to_expected [] err
         = [(0, "memory"); (0, "memory type"); (0, "limits"); (0, "flags");
            (0, "Unable to read u8")]%string)
  /\ (forall l message e,
         HandleOnError l message e
         = mkTestErrors (context_stack e)
             (errors e ++ [context_stack e ++ [mkErrorContext l message]])).
Proof.
  split.
  - eexists. split; reflexivity.
  - reflexivity.
Qed.

End LimitsFacts.

(** ** Modules: [ReadSection] and [ReadModule] *)

Module ModuleFacts.
Import Reader ModuleSpec.

Lemma ReadVarInt_nil T : ReadVarInt T [] = (None, []).
Proof. destruct T; reflexivity. Qed.

(** A LEB128 integer takes at least one byte. *)
Lemma ReadVarInt_shorter T data v data' :
  ReadVarInt T data = (Some v, data') ->
  (List.length data' < List.length data)%nat.
Proof.
  intros E.
  destruct (ExprFacts.advances_ReadVarInt T _ _ _ E) as [[|b c] ->].
  - cbn [app] in E. destruct data' as [|b rest].
    + rewrite ReadVarInt_nil in E. discriminate.
    + exfalso.
      destruct (VarIntFacts.ReadVarInt_suffix T (b :: rest)) as (c & Hc).
      rewrite E in Hc. cbn [snd] in Hc.
      apply (f_equal (@List.length _)) in Hc. rewrite length_app in Hc.
      destruct c; cbn in Hc; [|lia].
      (* nothing consumed, yet a value was returned *)
      unfold ReadVarInt in E.
      pose proof (VarIntFacts.kMaxBytes_pos T).
      destruct (Z.to_nat (kMaxBytes T)) as [|fuel] eqn:Hf; [lia|].
      cbn [ReadVarInt_loop] in E. rewrite VarIntFacts.ReadU8_cons in E.
      cbv zeta in E.
      destruct (0 + 1 =? kMaxBytes T).
      * destruct (_ || _) in E; [|discriminate].
        injection E as _ E. apply (f_equal (@List.length _)) in E.
        cbn in E. lia.
      * destruct (Z.land (u8v b) 128 =? 0).
        -- injection E as _ E. apply (f_equal (@List.length _)) in E.
           cbn in E. lia.
        -- destruct (ReadVarInt_loop T fuel (0 + 1) _ rest)
             as [[r d]|] eqn:Hl; [|discriminate].
           injection E as -> ->.
           assert (Hsuf : exists c, rest = c ++ b :: rest).
           { destruct fuel as [|fuel]; [discriminate|].
             destruct (VarIntFacts.ReadVarInt_loop_spec T (S fuel) (0 + 1)
                         (Z.lor 0 (to_unsigned T
                            (Z.shiftl (Z.land (u8v b) 127) (0 * 7)))) rest)
               as (r & d & c & Hrun & Hsplit & _); [lia | lia |].
             rewrite Hl in Hrun. injection Hrun as <- <-. now exists c. }
           destruct Hsuf as [c Hc2].
           apply (f_equal (@List.length _)) in Hc2.
           rewrite length_app in Hc2. cbn in Hc2. lia.
  - rewrite length_app. cbn. lia.
Qed.

Section AnyHooks.
Context {H : Type} (hooks : ModuleHooks H) (ToString : SpanU8 -> string).

(** A section that was read took bytes from the input. *)
Lemma ReadSection_Ok_shorter data h data' h' :
  ReadSection hooks data h = (Ok, data', h') ->
  (List.length data' < List.length data)%nat.
Proof.
  unfold ReadSection.
  destruct (ReadVarU32 data) as [[code|] d1] eqn:E1; [|discriminate].
  destruct (ReadVarU32 d1) as [[len|] d2] eqn:E2; [|discriminate].
  apply ReadVarInt_shorter in E1. apply ReadVarInt_shorter in E2.
  destruct (len >? size d2); [discriminate|].
  destruct (OnSection hooks code (subspan0 len d2) h) as [[|] h0];
    [|discriminate].
  intros [= <- _]. unfold remove_prefix. rewrite length_skipn. lia.
Qed.

(** As many turns as there are bytes are enough for the loop. *)
Lemma ReadModule_loop_total :
  forall fuel data h,
    (List.length data <= fuel)%nat ->
    ReadModule_loop hooks fuel data h <> None.
Proof.
  induction fuel as [|fuel IH]; intros [|b data] h Hlen; cbn [ReadModule_loop];
    try discriminate; [cbn in Hlen; lia|].
  destruct (ReadSection hooks (b :: data) h) as [[[|] d'] h'] eqn:E;
    [discriminate|].
  apply ReadSection_Ok_shorter in E. apply IH. lia.
Qed.

Lemma ReadModule_outcome_ok data h :
  ReadModule_outcome hooks data h (ReadModule hooks ToString data h).
Proof.
  unfold ReadModule_outcome, ReadModule, ReadBytes.
  destruct (size data <? 4) eqn:E4; [reflexivity|].
  destruct (optional_ne (Some (subspan0 4 data)) kMagic); [reflexivity|].
  assert (Hsize : size (remove_prefix 4 data) = size data - 4).
  { unfold size, remove_prefix. rewrite length_skipn.
    apply Z.ltb_ge in E4. unfold size in E4. lia. }
  rewrite Hsize.
  replace (size data - 4 <? 4) with (size data <? 8)
    by (destruct (size data <? 8) eqn:E8; symmetry;
        [apply Z.ltb_lt in E8; apply Z.ltb_lt | apply Z.ltb_ge in E8;
         apply Z.ltb_ge]; lia).
  destruct (size data <? 8); [reflexivity|].
  destruct (optional_ne _ kVersion); [reflexivity|].
  cbv zeta.
  pose proof (ReadModule_loop_total
                (List.length (remove_prefix 4 (remove_prefix 4 data)))
                (remove_prefix 4 (remove_prefix 4 data)) h (Nat.le_refl _))
    as Htotal.
  destruct (ReadModule_loop _ _ _ h) as [[r h']|]; [|contradiction].
  now exists r, h'.
Qed.

End AnyHooks.

(** X2.  [ReadModule], whatever the hooks: its behaviour is undefined on
    an input of fewer than four bytes, and on an input of fewer than eight
    bytes that starts with the magic; it returns an error when the first four
    bytes are not the magic, or the next four not the version; otherwise the
    loop over the sections behind these eight bytes ends, and [ReadModule]
    returns the result of the loop with the hooks as the loop left them.
    The loop ends on every input: a section that is read takes bytes from
    the input, so as many turns as there are bytes are enough. *)
Theorem ReadModule_outcomes :
  forall (H : Type) (hooks : ModuleHooks H) (ToString : SpanU8 -> string),
    (forall (data : SpanU8) (h : H),
        ReadModule_outcome hooks data h (ReadModule hooks ToString data h))
    /\ (forall (fuel : nat) (data : SpanU8) (h : H),
           (List.length data <= fuel)%nat ->
           exists res h', ReadModule_loop hooks fuel data h = Some (res, h')).
Proof.
  intros H hooks ToString. split.
  - intros data h. apply ReadModule_outcome_ok.
  - intros fuel data h Hlen.
    pose proof (ReadModule_loop_total hooks fuel data h Hlen) as Htotal.
    destruct (ReadModule_loop hooks fuel data h) as [[res h']|];
      [now exists res, h' | contradiction].
Qed.

(** C9.  [ReadModule] on the empty input, and on the magic followed by
    fewer than four bytes: the four-byte read fails, the comparison with the
    expected bytes holds, and the error branch applies [operator*] to the
    empty optional before it can report anything. *)
Theorem ReadModule_short_input_undefined :
  forall (H : Type) (hooks : ModuleHooks H) (ToString : SpanU8 -> string)
         (h : H),
    ReadModule hooks ToString [] h
    = (Undefined "operator* on an optional that holds no value", h)
    /\ ReadModule hooks ToString [x00; x61; x73] h
       = (Undefined "operator* on an optional that holds no value", h)
    /\ ReadModule hooks ToString (kMagic ++ [x01; x00; x00]) h
       = (Undefined "operator* on an optional that holds no value", h)
    /\ ReadModule hooks ToString [x00; x61; x73; x6e] h
       = (Returns Error,
          OnModuleError hooks
            (String.append "Magic mismatch: expected "
               (String.append (ToString kMagic)
                  (String.append ", got "
                     (ToString [x00; x61; x73; x6e])))) h).
Proof. intros. repeat split; reflexivity. Qed.

End ModuleFacts.

(** ** The two readers of limits *)

Module LimitsCompareFacts.
Import Read.

Lemma ReadVarU32_small (b : u8) rest :
  u8v b < 128 -> Reader.ReadVarU32 (b :: rest) = (Some (u8v b), rest).
Proof.
  intros Hb. unfold Reader.ReadVarU32, Reader.ReadVarInt.
  change (Z.to_nat (Reader.kMaxBytes U32)) with 5%nat.
  rewrite VarIntValueFacts.ReadVarInt_loop_cons.
  change (0 + 1 =? Reader.kMaxBytes U32) with false. cbv iota.
  destruct b; try (exfalso; vm_compute in Hb; discriminate Hb); reflexivity.
Qed.

Ltac pops :=
  unfold HandlePopContext, HandleOnError, HandlePushContext;
  cbn [context_stack errors];
  rewrite ?removelast_last.

Ltac one_error :=
  eexists [_], _; rewrite <- ?app_assoc; cbn [app]; reflexivity.

(** X13.  [Read<Limits>] of [read_limits.h] and [ReadLimits] of
    [reader-inl.h]: whenever the first returns limits, the second returns
    the same limits from the same bytes, and the first has left the errors
    object as it was.  Whenever the first fails, it has added exactly one
    error, whose trail starts with the contexts in effect and the context
    "limits" at the start of the input, and the context stack is as it was
    before the call. *)
Theorem Read_Limits_outcomes :
  forall (data : SpanU8) (e : TestErrors),
    match Read_Limits data e with
    | (Some l, rest, e') =>
      e' = e
      /\ Reader.ReadLimits data
         = (Some (Reader.mkLimits (min l) (max l)), rest)
    | (None, rest, e') =>
      context_stack e' = context_stack e
      /\ exists trail message,
          errors e'
          = errors e
            ++ [context_stack e
                  ++ mkErrorContext data "limits" :: trail ++ [message]]
    end.
Proof.
  intros data [stack errs].
  unfold Read_Limits, ErrorsContextGuard, WASP_TRY_READ_CONTEXT,
    ErrorsContextGuard, bind, Read_u8, Read_u32, error, ret.
  destruct data as [|flags data].
  - pops. split; [reflexivity|]. one_error.
  - cbn [HandlePushContext HandlePopContext context_stack errors].
    rewrite ?removelast_last.
    destruct (Byte.eqb flags EncodingLimits.Flags_NoMax) eqn:E0.
    { apply Byte.byte_dec_bl in E0. subst flags.
      unfold Reader.ReadLimits, Base.bind.
      rewrite (ReadVarU32_small x00) by (vm_compute; reflexivity).
      change (Reader.ReadVarInt U32) with Reader.ReadVarU32.
      destruct (Reader.ReadVarU32 data) as [[m|] d1].
      - pops. split; reflexivity.
      - pops. split; [reflexivity|]. one_error. }
    destruct (Byte.eqb flags EncodingLimits.Flags_HasMax) eqn:E1.
    { apply Byte.byte_dec_bl in E1. subst flags.
      unfold Reader.ReadLimits, Base.bind.
      rewrite (ReadVarU32_small x01) by (vm_compute; reflexivity).
      change (Reader.ReadVarInt U32) with Reader.ReadVarU32.
      change (negb (Z.land (u8v x01) Reader.kFlags_HasMax =? 0)) with true.
      cbv iota beta.
      destruct (Reader.ReadVarU32 data) as [[m|] d1].
      - pops. destruct (Reader.ReadVarU32 d1) as [[mx|] d2].
        + pops. split; reflexivity.
        + pops. split; [reflexivity|]. one_error.
      - pops. split; [reflexivity|]. one_error. }
    pops. split; [reflexivity|]. exists [], (mkErrorContext data (Invalid_flags_value flags)).
    rewrite <- ?app_assoc. reflexivity.
Qed.

End LimitsCompareFacts.

(** ** The section readers *)

Module SectionFacts.
Import Reader ReaderMore Sections.

#[local] Abbreviation Trace := (list SectionEvent * list string)%type.

Lemma entries_ofX_acc {A} (entry : ReaderX A) :
  forall n acc data,
    entries_ofX entry n acc data
    = match entries_ofX entry n [] data with
      | (Normal (Some xs), rest) => (Normal (Some (acc ++ xs)), rest)
      | other => other
      end.
Proof.
  induction n as [|n IH]; intros acc data; cbn [entries_ofX].
  - now rewrite app_nil_r.
  - unfold bindX. destruct (entry data) as [[[x|]|what|why] d1];
      try reflexivity.
    rewrite (IH (acc ++ [x])), (IH ([] ++ [x])).
    destruct (entries_ofX entry n [] d1) as [[[xs|]|what|why] rest];
      try reflexivity.
    now rewrite <- app_assoc.
Qed.

Lemma entries_ofX_length {A} (entry : ReaderX A) :
  forall n acc data xs rest,
    entries_ofX entry n acc data = (Normal (Some xs), rest) ->
    List.length xs = (List.length acc + n)%nat.
Proof.
  induction n as [|n IH]; intros acc data xs rest; cbn [entries_ofX].
  - intros [= <- _]. lia.
  - unfold bindX. destruct (entry data) as [[[x|]|what|why] d1];
      try discriminate.
    intros E. apply IH in E. rewrite length_app in E. cbn in E. lia.
Qed.

(** Entries that no exception can leave: the vector is the one [vector_of]
    reads. *)
Lemma entries_ofX_lift {A} (rd : Reader A) :
  forall n acc data,
    entries_ofX (lift rd) n acc data = lift (ReadVec_loop rd n acc) data.
Proof.
  induction n as [|n IH]; intros acc data; cbn [entries_ofX ReadVec_loop].
  - reflexivity.
  - unfold bindX, Base.bind, lift at 1 3.
    destruct (rd data) as [[x|] d1]; [apply IH | reflexivity].
Qed.

Lemma vector_ofX_lift {A} (rd : Reader A) data :
  vector_ofX (lift rd) data = lift (vector_of rd) data.
Proof.
  unfold vector_ofX, vector_of, bindX, Base.bind, lift at 1 3.
  destruct (ReadVarU32 data) as [[len|] d1]; [|reflexivity].
  apply entries_ofX_lift.
Qed.

Lemma vector_section_lift {A} read_section (rd : Reader A) on_count on :
  vector_sectionX read_section (lift rd) on_count on ->
  vector_section read_section rd on_count on.
Proof.
  intros HX data. specialize (HX data). rewrite vector_ofX_lift in HX.
  unfold lift in HX. destruct (vector_of rd data) as [[xs|] [|b rest]];
    exact HX.
Qed.

Lemma reports_trailing_lift {A} read_section (rd : Reader A) on_count on :
  reports_trailingX read_section (lift rd) on_count on ->
  reports_trailing read_section rd on_count on.
Proof.
  intros HX data xs b rest E. apply (HX data xs b rest).
  rewrite vector_ofX_lift. unfold lift. now rewrite E.
Qed.

Section Generic.
Context {A : Type} (entry : ReaderX A) (on : Z -> A -> SectionEvent).
Context (loop : nat -> Z -> SecM (H := Trace) unit).
Hypothesis loop_O :
  forall i data h, loop O i data h = (Normal (Some tt), data, h).
Hypothesis loop_S_ok :
  forall n i data x data' events errors,
    entry data = (Normal (Some x), data') ->
    loop (S n) i data (events, errors)
    = loop n (i + 1) data' (events ++ [on i x], errors).
Hypothesis loop_S_error :
  forall n i data data' events errors,
    entry data = (Normal None, data') ->
    exists message data'',
      loop (S n) i data (events, errors)
      = (Normal None, data'', (events, errors ++ [message])).
Hypothesis loop_S_thrown :
  forall n i data what data' events errors,
    entry data = (Thrown what, data') ->
    exists data'',
      loop (S n) i data (events, errors)
      = (Thrown what, data'', (events, errors)).
Hypothesis loop_S_undef :
  forall n i data why data' events errors,
    entry data = (Undef why, data') ->
    exists data'',
      loop (S n) i data (events, errors)
      = (Undef why, data'', (events, errors)).

Lemma loop_entries :
  forall n i data events errors,
    match entries_ofX entry n [] data with
    | (Normal (Some xs), rest) =>
      loop n i data (events, errors)
      = (Normal (Some tt), rest, (events ++ entries on i xs, errors))
    | (Normal None, _) =>
      exists events' data' message,
        loop n i data (events, errors)
        = (Normal None, data', (events', errors ++ [message]))
    | (Thrown what, _) =>
      exists events' data',
        loop n i data (events, errors)
        = (Thrown what, data', (events', errors))
    | (Undef why, _) =>
      exists events' data',
        loop n i data (events, errors)
        = (Undef why, data', (events', errors))
    end.
Proof.
  induction n as [|n IH]; intros i data events errors.
  - cbn [entries_ofX entries]. now rewrite loop_O, app_nil_r.
  - cbn [entries_ofX]. unfold bindX.
    destruct (entry data) as [[[x|]|what|why] d1] eqn:E.
    + rewrite (loop_S_ok _ _ _ _ _ _ _ E), entries_ofX_acc.
      specialize (IH (i + 1) d1 (events ++ [on i x]) errors).
      destruct (entries_ofX entry n [] d1) as [[[xs|]|what|why] rest].
      * rewrite IH. cbn [app entries]. now rewrite <- app_assoc.
      * exact IH.
      * exact IH.
      * exact IH.
    + destruct (loop_S_error n i _ _ events errors E) as (msg & d2 & ->).
      now exists events, d2, msg.
    + destruct (loop_S_thrown n i _ _ _ events errors E) as (d2 & ->).
      now exists events, d2.
    + destruct (loop_S_undef n i _ _ _ events errors E) as (d2 & ->).
      now exists events, d2.
Qed.

Lemma vector_section_generic (on_count : Z -> SectionEvent) (desc : string) :
  vector_sectionX
    (section TraceHooks
       (sbind (WASP_READ_OR_ERROR TraceHooks (lift ReadIndex) desc)
          (fun count =>
             sbind (WASP_HOOK TraceHooks (on_count count))
               (fun _ => loop (Z.to_nat count) 0))))
    entry on_count on.
Proof.
  intros data.
  unfold vector_ofX, bindX, section, sbind, WASP_READ_OR_ERROR, lift.
  unfold ReadIndex.
  destruct (ReadVarU32 data) as [[count|] d1] eqn:Ecount.
  - cbn [WASP_HOOK TraceHooks OnEvent OnError fst snd app].
    pose proof (loop_entries (Z.to_nat count) 0 d1 [on_count count] [])
      as Hloop.
    destruct (entries_ofX entry (Z.to_nat count) [] d1)
      as [[[xs|]|what|why] rest] eqn:E.
    + rewrite Hloop. apply entries_ofX_length in E.
      cbn [List.length Nat.add] in E.
      apply VecFacts.ReadVarU32_nonneg in Ecount.
      destruct rest as [|b rest]; cbn.
      * rewrite E, Z2Nat.id by exact Ecount. reflexivity.
      * eexists _, _. reflexivity.
    + destruct Hloop as (events' & d2 & msg & ->). cbn.
      destruct rest; now exists events', msg.
    + destruct Hloop as (events' & d2 & ->). now exists events'.
    + destruct Hloop as (events' & d2 & ->). now exists events'.
  - cbn. destruct d1; eexists _, _; reflexivity.
Qed.

Lemma reports_trailing_generic (on_count : Z -> SectionEvent) (desc : string) :
  reports_trailingX
    (section TraceHooks
       (sbind (WASP_READ_OR_ERROR TraceHooks (lift ReadIndex) desc)
          (fun count =>
             sbind (WASP_HOOK TraceHooks (on_count count))
               (fun _ => loop (Z.to_nat count) 0))))
    entry on_count on.
Proof.
  intros data xs b rest0.
  unfold vector_ofX, bindX, section, sbind, WASP_READ_OR_ERROR, lift.
  unfold ReadIndex.
  destruct (ReadVarU32 data) as [[count|] d1] eqn:Ecount; [|discriminate].
  cbn [WASP_HOOK TraceHooks OnEvent OnError fst snd app].
  pose proof (loop_entries (Z.to_nat count) 0 d1 [on_count count] [])
    as Hloop.
  intros E. rewrite E in Hloop. rewrite Hloop.
  apply entries_ofX_length in E. cbn [List.length Nat.add] in E.
  apply VecFacts.ReadVarU32_nonneg in Ecount.
  cbn. rewrite E, Z2Nat.id by exact Ecount. reflexivity.
Qed.

Lemma section_generic (on_count : Z -> SectionEvent) (desc : string) :
  let read_section :=
    section TraceHooks
      (sbind (WASP_READ_OR_ERROR TraceHooks (lift ReadIndex) desc)
         (fun count =>
            sbind (WASP_HOOK TraceHooks (on_count count))
              (fun _ => loop (Z.to_nat count) 0))) in
  vector_sectionX read_section entry on_count on
  /\ reports_trailingX read_section entry on_count on.
Proof.
  split; [apply vector_section_generic | apply reports_trailing_generic].
Qed.

End Generic.

(** The same for entries that no exception can leave. *)
Section GenericPlain.
Context {A : Type} (entry : Reader A) (on : Z -> A -> SectionEvent).
Context (loop : nat -> Z -> SecM (H := Trace) unit).
Hypothesis loop_O :
  forall i data h, loop O i data h = (Normal (Some tt), data, h).
Hypothesis loop_S_ok :
  forall n i data x data' events errors,
    entry data = (Some x, data') ->
    loop (S n) i data (events, errors)
    = loop n (i + 1) data' (events ++ [on i x], errors).
Hypothesis loop_S_error :
  forall n i data data' events errors,
    entry data = (None, data') ->
    exists message data'',
      loop (S n) i data (events, errors)
      = (Normal None, data'', (events, errors ++ [message])).

Lemma section_plain (on_count : Z -> SectionEvent) (desc : string) :
  let read_section :=
    section TraceHooks
      (sbind (WASP_READ_OR_ERROR TraceHooks (lift ReadIndex) desc)
         (fun count =>
            sbind (WASP_HOOK TraceHooks (on_count count))
              (fun _ => loop (Z.to_nat count) 0))) in
  vector_section read_section entry on_count on
  /\ reports_trailing read_section entry on_count on.
Proof.
  cbv zeta.
  destruct (section_generic (lift entry) on loop loop_O) with
    (on_count := on_count) (desc := desc) as [Hv Ht].
  - intros n i data x d' events errors E.
    apply ExprFacts.lift_inv in E as (o & [= <-] & E). now apply loop_S_ok.
  - intros n i data d' events errors E.
    apply ExprFacts.lift_inv in E as (o & [= <-] & E).
    now apply (loop_S_error n i data d').
  - intros n i data what d' events errors E.
    apply ExprFacts.lift_inv in E as (o & [=] & _).
  - intros n i data why d' events errors E.
    apply ExprFacts.lift_inv in E as (o & [=] & _).
  - split; [now apply vector_section_lift | now apply reports_trailing_lift].
Qed.

End GenericPlain.

Ltac reads :=
  repeat match goal with
    | H : context [match ?rd ?d with _ => _ end] |- _ =>
      lazymatch type of (rd d) with
      | (option _ * SpanU8)%type =>
        let E := fresh "E" in
        destruct (rd d) as [[?|] ?] eqn:E; try discriminate
      | (Exit (option _) * SpanU8)%type =>
        let E := fresh "E" in
        destruct (rd d) as [[[?|]|?|?] ?] eqn:E; try discriminate
      end
    | H : context [let (_, _) := ?rd ?d in _] |- _ =>
      lazymatch type of (rd d) with
      | (option _ * SpanU8)%type =>
        let E := fresh "E" in
        destruct (rd d) as [[?|] ?] eqn:E; try discriminate
      end
    | H : (Some _, _) = (Some _, _) |- _ => injection H as <- <-
    | H : (None, _) = (None, _) |- _ => injection H as <-
    | H : (Normal (Some _), _) = (Normal (Some _), _) |- _ =>
      injection H as <- <-
    | H : (Normal None, _) = (Normal None, _) |- _ => injection H as <-
    | H : (Thrown _, _) = (Thrown _, _) |- _ => injection H as <- <-
    | H : (Undef _, _) = (Undef _, _) |- _ => injection H as <- <-
    | H : (?x, ?d) = (?y, ?d') |- _ => discriminate H
    | H : ret _ _ = _ |- _ => unfold ret in H
    | H : fail _ = _ |- _ => unfold fail in H
    end.

Ltac step :=
  unfold sbind, WASP_READ_OR_ERROR, WASP_HOOK, serror, sret, lift;
  cbn [TraceHooks OnEvent OnError fst snd].

Lemma ReadFunctionSection_vector :
  vector_section (ReadFunctionSection TraceHooks) ReadIndex OnFuncCount
    (fun i type_index => OnFunc i (mkFunc type_index))
  /\ reports_trailing (ReadFunctionSection TraceHooks) ReadIndex OnFuncCount
    (fun i type_index => OnFunc i (mkFunc type_index)).
Proof.
  apply (section_plain ReadIndex _ (ReadFunctionSection_loop TraceHooks)).
  - reflexivity.
  - intros n i data x d' events errors E.
    cbn [ReadFunctionSection_loop]. step. now rewrite E.
  - intros n i data d' events errors E.
    cbn [ReadFunctionSection_loop]. step. rewrite E. eexists _, _. reflexivity.
Qed.

Lemma ReadTableSection_vector :
  vector_section (ReadTableSection TraceHooks) ReadTableType OnTableCount
    (fun i table_type => OnTable i (mkTable table_type))
  /\ reports_trailing (ReadTableSection TraceHooks) ReadTableType OnTableCount
    (fun i table_type => OnTable i (mkTable table_type)).
Proof.
  apply (section_plain ReadTableType _ (ReadTableSection_loop TraceHooks)).
  - reflexivity.
  - intros n i data x d' events errors E.
    cbn [ReadTableSection_loop]. step. now rewrite E.
  - intros n i data d' events errors E.
    cbn [ReadTableSection_loop]. step. rewrite E. eexists _, _. reflexivity.
Qed.

Lemma ReadMemorySection_vector :
  vector_section (ReadMemorySection TraceHooks) ReadMemoryType OnMemoryCount
    (fun i memory_type => OnMemory i (mkMemory memory_type))
  /\ reports_trailing (ReadMemorySection TraceHooks) ReadMemoryType OnMemoryCount
    (fun i memory_type => OnMemory i (mkMemory memory_type)).
Proof.
  apply (section_plain ReadMemoryType _ (ReadMemorySection_loop TraceHooks)).
  - reflexivity.
  - intros n i data x d' events errors E.
    cbn [ReadMemorySection_loop]. step. now rewrite E.
  - intros n i data d' events errors E.
    cbn [ReadMemorySection_loop]. step. rewrite E. eexists _, _. reflexivity.
Qed.

(** X8.  The function, table and memory sections hold a vector of type
    indices, table types and memory types.  With hooks that never stop, each
    reader returns [Ok] exactly when such a vector fills the section: the
    hooks are told the count, then every entry with its index, in order, and
    no error.  On any other contents the reader returns [Error] after
    exactly one error message. *)
Theorem simple_sections_read_vectors :
  vector_section (ReadFunctionSection TraceHooks) ReadIndex OnFuncCount
    (fun i type_index => OnFunc i (mkFunc type_index))
  /\ vector_section (ReadTableSection TraceHooks) ReadTableType OnTableCount
       (fun i table_type => OnTable i (mkTable table_type))
  /\ vector_section (ReadMemorySection TraceHooks) ReadMemoryType
       OnMemoryCount (fun i memory_type => OnMemory i (mkMemory memory_type)).
Proof.
  split; [|split].
  - exact (proj1 ReadFunctionSection_vector).
  - exact (proj1 ReadTableSection_vector).
  - exact (proj1 ReadMemorySection_vector).
Qed.


Lemma ReadExportSection_vector :
  vector_section (ReadExportSection TraceHooks) export_entry OnExportCount
    OnExport
  /\ reports_trailing (ReadExportSection TraceHooks) export_entry OnExportCount
    OnExport.
Proof.
  apply (section_plain export_entry _ (ReadExportSection_loop TraceHooks)).
  - reflexivity.
  - intros n i data x d' events errors E.
    cbn [ReadExportSection_loop]. step.
    unfold export_entry, Base.bind in E. reads. reflexivity.
  - intros n i data d' events errors E.
    cbn [ReadExportSection_loop]. step.
    unfold export_entry, Base.bind in E. reads; eexists _, _; reflexivity.
Qed.

Lemma ReadImportSection_vector :
  vector_section (ReadImportSection TraceHooks) import_entry OnImportCount
    OnImport
  /\ reports_trailing (ReadImportSection TraceHooks) import_entry OnImportCount
    OnImport.
Proof.
  apply (section_plain import_entry _ (ReadImportSection_loop TraceHooks)).
  - reflexivity.
  - intros n i data x d' events errors E.
    cbn [ReadImportSection_loop]. step.
    unfold import_entry, Base.bind in E. reads.
    match goal with k : ExternalKind |- _ => destruct k end;
      reads; reflexivity.
  - intros n i data d' events errors E.
    cbn [ReadImportSection_loop]. step.
    unfold import_entry, Base.bind in E. reads;
      try (eexists _, _; reflexivity).
    match goal with k : ExternalKind |- _ => destruct k end;
      reads; eexists _, _; reflexivity.
Qed.

Lemma ReadTypeSection_vector (reserve : Allocator)
  (format_ValType_d : ValType -> string) :
  vector_sectionX (ReadTypeSection reserve TraceHooks format_ValType_d)
    (func_type_entry reserve) OnTypeCount OnFuncType
  /\ reports_trailingX (ReadTypeSection reserve TraceHooks format_ValType_d)
    (func_type_entry reserve) OnTypeCount OnFuncType.
Proof.
  apply (section_generic (func_type_entry reserve) _
           (ReadTypeSection_loop reserve TraceHooks format_ValType_d)).
  - reflexivity.
  - intros n i data x d' events errors E.
    cbn [ReadTypeSection_loop]. step.
    unfold func_type_entry, bindX, lift in E. reads.
    match goal with t : ValType |- _ => destruct t end;
      reads; reflexivity.
  - intros n i data d' events errors E.
    cbn [ReadTypeSection_loop]. step.
    unfold func_type_entry, bindX, lift in E. reads;
      try (eexists _, _; reflexivity).
    match goal with t : ValType |- _ => destruct t end;
      reads; eexists _, _; reflexivity.
  - intros n i data what d' events errors E.
    cbn [ReadTypeSection_loop]. step.
    unfold func_type_entry, bindX, lift in E. reads.
    match goal with t : ValType |- _ => destruct t end;
      reads; eexists; reflexivity.
  - intros n i data why d' events errors E.
    cbn [ReadTypeSection_loop]. step.
    unfold func_type_entry, bindX, lift in E. reads.
    match goal with t : ValType |- _ => destruct t end;
      reads; eexists; reflexivity.
Qed.

(** X9.  The type, import and export sections hold a vector of entries: a
    function type is the form [Func], the parameter types and the result
    types; an import is the module name, the field name, the kind and what
    the kind asks for (a type index, a table type, a memory type or a global
    type); an export is the name, the kind and the index.  With hooks that
    never stop, each reader returns [Ok] exactly when such a vector fills the
    section, the hooks being told the count and then every entry with its
    index, in order; on any other contents it returns [Error] after exactly
    one error message.  The parameter and result types of a function type
    are vectors of their own: when [std::vector::reserve] refuses one of
    them, [ReadTypeSection] is left by the exception and reports no error. *)
Theorem entry_sections_read_vectors :
  (forall reserve format_ValType_d,
      vector_sectionX (ReadTypeSection reserve TraceHooks format_ValType_d)
        (func_type_entry reserve) OnTypeCount OnFuncType)
  /\ vector_section (ReadImportSection TraceHooks) import_entry OnImportCount
       OnImport
  /\ vector_section (ReadExportSection TraceHooks) export_entry OnExportCount
       OnExport.
Proof.
  split; [|split].
  - intros reserve f. exact (proj1 (ReadTypeSection_vector reserve f)).
  - exact (proj1 ReadImportSection_vector).
  - exact (proj1 ReadExportSection_vector).
Qed.


Lemma ReadCodeSection_vector :
  vector_section (ReadCodeSection TraceHooks) ReadVecU8 OnCodeCount OnCode
  /\ reports_trailing (ReadCodeSection TraceHooks) ReadVecU8 OnCodeCount OnCode.
Proof.
  apply (section_plain ReadVecU8 _ (ReadCodeSection_loop TraceHooks)).
  - reflexivity.
  - intros n i data x d' events errors E.
    cbn [ReadCodeSection_loop]. unfold code_length_check, code_body. step.
    unfold ReadVecU8, Base.bind in E. unfold ReadIndex.
    destruct (ReadVarU32 data) as [[len|] d1]; [|discriminate].
    destruct (len >? size d1); [discriminate|].
    injection E as <- <-. reflexivity.
  - intros n i data d' events errors E.
    cbn [ReadCodeSection_loop]. unfold code_length_check, code_body. step.
    unfold ReadVecU8, Base.bind in E. unfold ReadIndex.
    destruct (ReadVarU32 data) as [[len|] d1].
    + destruct (len >? size d1); [|discriminate]. eexists _, _. reflexivity.
    + eexists _, _. reflexivity.
Qed.

(** X10.  The code section holds a vector of byte strings, each behind its
    length, as [ReadVecU8] reads them.  With hooks that never stop,
    [ReadCodeSection] returns [Ok] exactly when such a vector fills the
    section: the hooks are told the count, then every code with its index,
    in order, and no error.  On any other contents, a code longer than what
    is left included, it returns [Error] after exactly one error message. *)
Theorem ReadCodeSection_codes :
  vector_section (ReadCodeSection TraceHooks) ReadVecU8 OnCodeCount OnCode.
Proof. exact (proj1 ReadCodeSection_vector). Qed.


(** X11.  Bytes left in a section behind its contents: the reader has told
    the hooks the count and every entry before it finds them, and then
    returns [Error] with the one message "Expected end of section".  The
    start section is read the same way: its one index is reported before the
    end of the section is looked for. *)
Theorem sections_report_trailing_bytes :
  (forall reserve format_ValType_d,
      reports_trailingX (ReadTypeSection reserve TraceHooks format_ValType_d)
        (func_type_entry reserve) OnTypeCount OnFuncType)
  /\ reports_trailing (ReadImportSection TraceHooks) import_entry
       OnImportCount OnImport
  /\ reports_trailing (ReadFunctionSection TraceHooks) ReadIndex OnFuncCount
       (fun i type_index => OnFunc i (mkFunc type_index))
  /\ reports_trailing (ReadTableSection TraceHooks) ReadTableType OnTableCount
       (fun i table_type => OnTable i (mkTable table_type))
  /\ reports_trailing (ReadMemorySection TraceHooks) ReadMemoryType
       OnMemoryCount (fun i memory_type => OnMemory i (mkMemory memory_type))
  /\ reports_trailing (ReadExportSection TraceHooks) export_entry
       OnExportCount OnExport
  /\ reports_trailing (ReadCodeSection TraceHooks) ReadVecU8 OnCodeCount
       OnCode
  /\ (forall data,
         ReadStartSection TraceHooks data ([], [])
         = match ReadIndex data with
           | (Some func_index, []) =>
             (Normal Ok, ([OnStart (mkStart func_index)], []))
           | (Some func_index, _ :: _) =>
             (Normal Error, ([OnStart (mkStart func_index)],
                             ["Expected end of section"%string]))
           | (None, _) =>
             (Normal Error,
              ([], ["Unable to read start function index"%string]))
           end).
Proof.
  repeat apply conj.
  - intros reserve f. exact (proj2 (ReadTypeSection_vector reserve f)).
  - exact (proj2 ReadImportSection_vector).
  - exact (proj2 ReadFunctionSection_vector).
  - exact (proj2 ReadTableSection_vector).
  - exact (proj2 ReadMemorySection_vector).
  - exact (proj2 ReadExportSection_vector).
  - exact (proj2 ReadCodeSection_vector).
  - intros data. unfold ReadStartSection, section. step.
    destruct (ReadIndex data) as [[f|] [|b rest]]; reflexivity.
Qed.


Section DefaultExprHooks.
Context (reserve : Allocator).
Context {HN : Type} (ExprHooksNop : ExprHooks HN) (ExprHooksNop_init : HN).

Ltac close_case :=
  reads;
  first [ reflexivity
        | eexists _, _; reflexivity
        | eexists; reflexivity ].

Lemma ReadGlobalSection_vector :
  vector_sectionX
    (ReadGlobalSection reserve TraceHooks ExprHooksNop ExprHooksNop_init)
    (global_entry reserve ExprHooksNop ExprHooksNop_init)
    OnGlobalCount OnGlobal
  /\ reports_trailingX
       (ReadGlobalSection reserve TraceHooks ExprHooksNop ExprHooksNop_init)
       (global_entry reserve ExprHooksNop ExprHooksNop_init)
       OnGlobalCount OnGlobal.
Proof.
  apply (section_generic
           (global_entry reserve ExprHooksNop ExprHooksNop_init) _
           (ReadGlobalSection_loop reserve TraceHooks ExprHooksNop
              ExprHooksNop_init));
    [ reflexivity
    | intros ? ? ? ? ? ? ? E || intros ? ? ? ? ? ? E;
      cbn [ReadGlobalSection_loop]; step;
      unfold global_entry, bindX, lift in E; close_case.. ].
Qed.

Lemma ReadElementSection_vector :
  vector_sectionX
    (ReadElementSection reserve TraceHooks ExprHooksNop ExprHooksNop_init)
    (element_entry reserve ExprHooksNop ExprHooksNop_init)
    OnElementSegmentCount OnElementSegment
  /\ reports_trailingX
       (ReadElementSection reserve TraceHooks ExprHooksNop ExprHooksNop_init)
       (element_entry reserve ExprHooksNop ExprHooksNop_init)
       OnElementSegmentCount OnElementSegment.
Proof.
  apply (section_generic
           (element_entry reserve ExprHooksNop ExprHooksNop_init) _
           (ReadElementSection_loop reserve TraceHooks ExprHooksNop
              ExprHooksNop_init));
    [ reflexivity
    | intros ? ? ? ? ? ? ? E || intros ? ? ? ? ? ? E;
      cbn [ReadElementSection_loop]; step;
      unfold element_entry, bindX, lift in E; close_case.. ].
Qed.

Lemma ReadDataSection_vector :
  vector_sectionX
    (ReadDataSection reserve TraceHooks ExprHooksNop ExprHooksNop_init)
    (data_entry reserve ExprHooksNop ExprHooksNop_init)
    OnDataSegmentCount OnDataSegment
  /\ reports_trailingX
       (ReadDataSection reserve TraceHooks ExprHooksNop ExprHooksNop_init)
       (data_entry reserve ExprHooksNop ExprHooksNop_init)
       OnDataSegmentCount OnDataSegment.
Proof.
  apply (section_generic
           (data_entry reserve ExprHooksNop ExprHooksNop_init) _
           (ReadDataSection_loop reserve TraceHooks ExprHooksNop
              ExprHooksNop_init));
    [ reflexivity
    | intros ? ? ? ? ? ? ? E || intros ? ? ? ? ? ? E;
      cbn [ReadDataSection_loop]; step;
      unfold data_entry, bindX, lift in E; close_case.. ].
Qed.

Lemma ReadCode_contents data :
  ReadCode reserve TraceHooks ExprHooksNop ExprHooksNop_init data ([], [])
  = match code_contents reserve ExprHooksNop ExprHooksNop_init data with
    | (Normal (Some (local_decls, body)), []) =>
      (Normal Ok, ([OnCodeContents local_decls body], []))
    | (Normal (Some (local_decls, body)), _ :: _) =>
      (Normal Error, ([OnCodeContents local_decls body],
                      ["Expected end of section"%string]))
    | (Normal None, _) =>
      (Normal Error,
       ([], [match ReadVec reserve ReadLocalDecl data with
             | (Normal (Some _), _) => "Unable to read body"
             | _ => "Unable to read locals"
             end%string]))
    | (Thrown what, _) => (Thrown what, ([], []))
    | (Undef why, _) => (Undef why, ([], []))
    end.
Proof.
  unfold ReadCode, section, code_contents, bindX. step.
  destruct (ReadVec reserve ReadLocalDecl data) as [[[l|]|what|why] d1];
    try reflexivity.
  destruct (ReadExpr_default reserve ExprHooksNop ExprHooksNop_init d1)
    as [[[b|]|what|why] [|x d2]]; reflexivity.
Qed.

End DefaultExprHooks.

(** X22.  The global, element and data sections and the contents of a
    code hold expressions, which the readers read with hooks of their own
    ([ExprHooksNop], built for the call).  Whatever these hooks are, and
    with section hooks that never stop: each of the three section readers
    returns [Ok] exactly when a vector of entries fills the section (a
    global: its type and initializer; an element segment: table index,
    offset and indices; a data segment: table index, offset and bytes), the
    hooks being told the count and every entry with its index, in order;
    bytes left behind the vector give "Expected end of section" after the
    entries were reported, and any other contents one error message.
    [ReadCode] reports the locals and the body when they can be read, and
    then wants the end of the code.  An entry holds vectors ([br_table]
    targets, the indices of an element segment, the locals of a code): when
    [std::vector::reserve] refuses one, the reader is left by the exception
    and reports no error; and it has no defined behaviour where reading an
    expression has none. *)
Theorem expression_sections_read_vectors :
  forall (reserve : Allocator) (HN : Type) (ExprHooksNop : ExprHooks HN)
         (ExprHooksNop_init : HN),
    (vector_sectionX
       (ReadGlobalSection reserve TraceHooks ExprHooksNop ExprHooksNop_init)
       (global_entry reserve ExprHooksNop ExprHooksNop_init)
       OnGlobalCount OnGlobal
     /\ reports_trailingX
          (ReadGlobalSection reserve TraceHooks ExprHooksNop
             ExprHooksNop_init)
          (global_entry reserve ExprHooksNop ExprHooksNop_init)
          OnGlobalCount OnGlobal)
    /\ (vector_sectionX
          (ReadElementSection reserve TraceHooks ExprHooksNop
             ExprHooksNop_init)
          (element_entry reserve ExprHooksNop ExprHooksNop_init)
          OnElementSegmentCount OnElementSegment
        /\ reports_trailingX
             (ReadElementSection reserve TraceHooks ExprHooksNop
                ExprHooksNop_init)
             (element_entry reserve ExprHooksNop ExprHooksNop_init)
             OnElementSegmentCount OnElementSegment)
    /\ (vector_sectionX
          (ReadDataSection reserve TraceHooks ExprHooksNop ExprHooksNop_init)
          (data_entry reserve ExprHooksNop ExprHooksNop_init)
          OnDataSegmentCount OnDataSegment
        /\ reports_trailingX
             (ReadDataSection reserve TraceHooks ExprHooksNop
                ExprHooksNop_init)
             (data_entry reserve ExprHooksNop ExprHooksNop_init)
             OnDataSegmentCount OnDataSegment)
    /\ (forall data,
           ReadCode reserve TraceHooks ExprHooksNop ExprHooksNop_init data
             ([], [])
           = match
               code_contents reserve ExprHooksNop ExprHooksNop_init data
             with
             | (Normal (Some (local_decls, body)), []) =>
               (Normal Ok, ([OnCodeContents local_decls body], []))
             | (Normal (Some (local_decls, body)), _ :: _) =>
               (Normal Error, ([OnCodeContents local_decls body],
                               ["Expected end of section"%string]))
             | (Normal None, _) =>
               (Normal Error,
                ([], [match ReadVec reserve ReadLocalDecl data with
                      | (Normal (Some _), _) => "Unable to read body"
                      | _ => "Unable to read locals"
                      end%string]))
             | (Thrown what, _) => (Thrown what, ([], []))
             | (Undef why, _) => (Undef why, ([], []))
             end).
Proof.
  intros reserve HN N n0. split; [|split; [|split]].
  - apply ReadGlobalSection_vector.
  - apply ReadElementSection_vector.
  - apply ReadDataSection_vector.
  - apply ReadCode_contents.
Qed.

(** A global section with one global, [i32] and immutable, initialised by
    [i32.const 42], read with the recording hooks for the expression. *)
Example ReadGlobalSection_example :
  ReadGlobalSection generous TraceHooks Reader.TraceHooks ([], [])
    [x01; x7f; x00; x41; x2a; x0b] ([], [])
  = (Normal Ok,
     ([OnGlobalCount 1;
       OnGlobal 0 (mkGlobal (mkGlobalType VT_I32 Mut_Const)
                     [x41; x2a; x0b])], [])).
Proof. reflexivity. Qed.

(** A type section whose one function type announces more parameter types
    than the allocator grants: the reader is left by the exception after the
    count was reported, and no error is. *)
Example ReadTypeSection_refused :
  forall format_ValType_d,
    ReadTypeSection (fun _ count => count <? 2 ^ 32 - 1) TraceHooks
      format_ValType_d [x01; x60; xff; xff; xff; xff; x0f] ([], [])
    = (Thrown "std::vector::reserve", ([OnTypeCount 1], [])).
Proof. reflexivity. Qed.

End SectionFacts.

(** ** The sections of a module *)

Module ModuleSectionFacts.
Import Reader ReaderMore Sections.

#[local] Abbreviation Trace := (list (Z * SpanU8) * list string)%type.

Lemma ReadSection_frame_ok data code contents data' (h : Trace) :
  section_frame data = (Some (code, contents), data') ->
  ReadSection TraceModuleHooks data h
  = (Ok, data', (fst h ++ [(code, contents)], snd h)).
Proof.
  unfold section_frame, ReadVecU8, ReadSection, Base.bind.
  destruct (ReadVarU32 data) as [[c|] d1]; [|discriminate].
  destruct (ReadVarU32 d1) as [[len|] d2]; [|discriminate].
  destruct (len >? size d2); [discriminate|].
  unfold ret. intros [= <- <- <-]. reflexivity.
Qed.

Lemma ReadSection_frame_error data (h : Trace) :
  fst (section_frame data) = None ->
  exists message data',
    ReadSection TraceModuleHooks data h
    = (Error, data', (fst h, snd h ++ [message])).
Proof.
  unfold section_frame, ReadVecU8, ReadSection, Base.bind.
  destruct (ReadVarU32 data) as [[c|] d1]; [|eexists _, _; reflexivity].
  destruct (ReadVarU32 d1) as [[len|] d2]; [|eexists _, _; reflexivity].
  destruct (len >? size d2); [eexists _, _; reflexivity|].
  discriminate.
Qed.

Lemma ReadModule_loop_sections :
  forall fuel data sections0,
    (List.length data <= fuel)%nat ->
    exists sections rest,
      reads_seq section_frame data sections rest
      /\ ((rest = []
           /\ ReadModule_loop TraceModuleHooks fuel data (sections0, [])
              = Some (Ok, (sections0 ++ sections, [])))
          \/ (rest <> [] /\ fst (section_frame rest) = None
              /\ exists message,
                  ReadModule_loop TraceModuleHooks fuel data (sections0, [])
                  = Some (Error, (sections0 ++ sections, [message])))).
Proof.
  induction fuel as [|fuel IH]; intros [|b data] sections0 Hlen.
  - exists [], []. split; [constructor|]. left. now rewrite app_nil_r.
  - cbn in Hlen. lia.
  - exists [], []. split; [constructor|]. left. now rewrite app_nil_r.
  - cbn [ReadModule_loop].
    destruct (section_frame (b :: data)) as [[[code contents]|] d1] eqn:E.
    + pose proof (ReadSection_frame_ok _ _ _ _ (sections0, []) E) as Hok.
      rewrite Hok. cbn [fst snd].
      apply ModuleFacts.ReadSection_Ok_shorter in Hok.
      destruct (IH d1 (sections0 ++ [(code, contents)])) as
        (sections & rest & Hseq & Hres); [lia|].
      exists ((code, contents) :: sections), rest.
      split; [econstructor; eassumption|].
      rewrite <- app_assoc in Hres. exact Hres.
    + assert (Hnone : fst (section_frame (b :: data)) = None)
        by now rewrite E.
      destruct (ReadSection_frame_error _ (sections0, []) Hnone)
        as (msg & d2 & ->).
      exists [], (b :: data). split; [constructor|]. right.
      split; [discriminate|]. split; [exact Hnone|].
      exists msg. cbn [fst snd app]. now rewrite app_nil_r.
Qed.

Lemma ReadBytes_header (header rest : SpanU8) :
  ReadBytes 4 header = (Some header, []) ->
  ReadBytes 4 (header ++ rest) = (Some header, rest).
Proof.
  intros E. destruct (LocalFacts.local_ReadBytes 4 _ _ _ E) as (c & Hc & Hl).
  rewrite app_nil_r in Hc. subst c. apply Hl.
Qed.

(** X12.  [ReadModule] on the magic, the version and a body, with hooks that
    record the sections and never stop: the sections reported are the
    frames, a code and length-prefixed contents, that can be read one after
    the other from the body.  The result is [Ok], with no error, when these
    frames use up the body; it is [Error], with exactly one error message,
    when no frame can be read at the point reached, the sections before it
    having been reported. *)
Theorem ReadModule_sections :
  forall (ToString : SpanU8 -> string) (body : SpanU8),
    exists sections rest,
      reads_seq section_frame body sections rest
      /\ ((rest = []
           /\ ReadModule TraceModuleHooks ToString (kMagic ++ kVersion ++ body)
                ([], [])
              = (Returns Ok, (sections, [])))
          \/ (rest <> [] /\ fst (section_frame rest) = None
              /\ exists message,
                  ReadModule TraceModuleHooks ToString
                    (kMagic ++ kVersion ++ body) ([], [])
                  = (Returns Error, (sections, [message])))).
Proof.
  intros ToString body.
  destruct (ReadModule_loop_sections (List.length body) body [] (Nat.le_refl _))
    as (sections & rest & Hseq & Hres).
  exists sections, rest. split; [exact Hseq|].
  unfold ReadModule.
  rewrite (ReadBytes_header kMagic (kVersion ++ body) eq_refl).
  change (optional_ne (Some kMagic) kMagic) with false. cbv iota.
  rewrite (ReadBytes_header kVersion body eq_refl).
  change (optional_ne (Some kVersion) kVersion) with false. cbv iota.
  cbn [app] in Hres.
  destruct Hres as [[-> ->] | (Hne & Hnone & msg & ->)].
  - left. split; reflexivity.
  - right. split; [exact Hne|]. split; [exact Hnone|]. now exists msg.
Qed.

Example ReadModule_sections_example :
  ReadModule TraceModuleHooks (fun _ => EmptyString)
    (kMagic ++ kVersion ++ [x01; x02; xaa; xbb; x0a; x00; x03; x01; xcc])
    ([], [])
  = (Returns Ok, ([(1, [xaa; xbb]); (10, []); (3, [xcc])], []))
  /\ ReadModule TraceModuleHooks (fun _ => EmptyString)
       (kMagic ++ kVersion ++ [x01; x01; xaa; x05; x03; x01])
       ([], [])
     = (Returns Error,
        ([(1, [xaa])], ["Section length is too long: 3 > 1"%string])).
Proof. split; reflexivity. Qed.

End ModuleSectionFacts.

(** ** Value types: [Encode] and [Decode] *)

Module EncodingFacts.
Import Encoding.

Section Table.
Context (table : list Row).
(** The enumerators of an enumeration have different names, and the [case]
    labels of a [switch] different values: the rows of the table differ in
    their names and in their bytes. *)
Hypothesis names_differ : NoDup (ValueTypes table).
Hypothesis bytes_differ : NoDup (encodings table).

Lemma Decode_switch_In rows b vt :
  Decode_switch rows b = Some vt -> In (b, vt) rows.
Proof.
  induction rows as [|[v name] rows IH]; cbn; [discriminate|].
  destruct (Byte.eqb v b) eqn:E.
  - apply Byte.byte_dec_bl in E. intros [= <-]. left. now subst.
  - intros Hd. right. now apply IH.
Qed.

Lemma Encode_switch_In rows b vt :
  Encode_switch rows vt = Some b -> In (b, vt) rows.
Proof.
  induction rows as [|[v name] rows IH]; cbn; [discriminate|].
  destruct (String.eqb name vt) eqn:E.
  - apply String.eqb_eq in E. intros [= <-]. left. now subst.
  - intros Hd. right. now apply IH.
Qed.

Lemma In_Decode_switch rows b vt :
  NoDup (map fst rows) -> In (b, vt) rows -> Decode_switch rows b = Some vt.
Proof.
  induction rows as [|[v name] rows IH]; cbn; [contradiction|].
  intros Hnd [Hin|Hin].
  - injection Hin as -> ->. now rewrite (Byte.byte_dec_lb eq_refl).
  - inversion Hnd as [|? ? Hnotin Hnd']; subst.
    destruct (Byte.eqb v b) eqn:E; [|now apply IH].
    apply Byte.byte_dec_bl in E. subst v. exfalso. apply Hnotin.
    change b with (fst (b, vt)). now apply in_map.
Qed.

Lemma In_Encode_switch rows b vt :
  NoDup (map snd rows) -> In (b, vt) rows -> Encode_switch rows vt = Some b.
Proof.
  induction rows as [|[v name] rows IH]; cbn; [contradiction|].
  intros Hnd [Hin|Hin].
  - injection Hin as -> ->. now rewrite String.eqb_refl.
  - inversion Hnd as [|? ? Hnotin Hnd']; subst.
    destruct (String.eqb name vt) eqn:E; [|now apply IH].
    apply String.eqb_eq in E. subst name. exfalso. apply Hnotin.
    change vt with (snd (b, vt)). now apply in_map.
Qed.

Lemma Decode_switch_None rows b :
  ~ In b (map fst rows) -> Decode_switch rows b = None.
Proof.
  induction rows as [|[v name] rows IH]; cbn; [reflexivity|].
  intros Hnot. destruct (Byte.eqb v b) eqn:E.
  - apply Byte.byte_dec_bl in E. exfalso. apply Hnot. now left.
  - apply IH. intros Hin. apply Hnot. now right.
Qed.

(** C10.  For a table whose rows differ in their names and in their bytes:
    every value type is encoded, and decoding its byte gives it back; a byte
    that decodes to a value type is the encoding of that type; and a byte
    that is not in the table decodes to nothing. *)
Theorem ValueType_Encode_Decode :
  (forall vt, In vt (ValueTypes table) ->
              exists b, Encode table vt = Some b /\ Decode table b = Some vt)
  /\ (forall b vt, Decode table b = Some vt -> Encode table vt = Some b)
  /\ (forall b, ~ In b (encodings table) -> Decode table b = None).
Proof.
  split; [|split].
  - intros vt Hin. unfold ValueTypes in Hin. apply in_map_iff in Hin.
    destruct Hin as ([b vt'] & Hvt & Hin). cbn in Hvt. subst vt'.
    exists b. split.
    + now apply In_Encode_switch.
    + now apply In_Decode_switch.
  - intros b vt Hd. apply In_Encode_switch; [exact names_differ|].
    now apply Decode_switch_In.
  - intros b. apply Decode_switch_None.
Qed.

End Table.

(** C10 at the table of the value types the specification lists. *)
Lemma ValueType_Encode_Decode_witness :
  (NoDup (ValueTypes value_type_def) /\ NoDup (encodings value_type_def))
  /\ (forall vt, In vt (ValueTypes value_type_def) ->
                 exists b, Encode value_type_def vt = Some b
                           /\ Decode value_type_def b = Some vt)
  /\ (forall b vt, Decode value_type_def b = Some vt ->
                   Encode value_type_def vt = Some b)
  /\ (forall b, ~ In b (encodings value_type_def) ->
                Decode value_type_def b = None).
Proof.
  assert (Hn : NoDup (ValueTypes value_type_def))
    by (repeat constructor; cbn; intuition discriminate).
  assert (Hb : NoDup (encodings value_type_def))
    by (repeat constructor; cbn; intuition discriminate).
  split; [split; assumption|].
  exact (ValueType_Encode_Decode value_type_def Hn Hb).
Defined.

Example Encode_Decode_I32 :
  Encode value_type_def "I32" = Some x7f
  /\ Decode value_type_def x7f = Some "I32"%string
  /\ Decode value_type_def x00 = None.
Proof. repeat split. Qed.

End EncodingFacts.

(** ** The tokenizer: two tokens of lookahead *)

Module TokenizerFacts.
Import TextTokenizer.

Section Facts.
Context {Token TokenType : Type}.
Context (type : Token -> TokenType).
Context (TokenType_eq_dec : forall a b : TokenType, {a = b} + {a <> b}).
Context (Lpar : TokenType).
Context (Token_init : Token).
Context (Lex : SpanU8 -> (Token * list (list Token)) * SpanU8).

#[local] Abbreviation Tokenizer := (@TextTokenizer.Tokenizer Token).
#[local] Abbreviation Read := (TextTokenizer.Read Lex).
#[local] Abbreviation Peek := (TextTokenizer.Peek Lex).
#[local] Abbreviation Peek_fill0 := (TextTokenizer.Peek_fill0 Lex).
#[local] Abbreviation Peek_fill1 := (TextTokenizer.Peek_fill1 Lex).
#[local] Abbreviation Match := (TextTokenizer.Match type TokenType_eq_dec Lex).
#[local] Abbreviation MatchLpar := (TextTokenizer.MatchLpar type TokenType_eq_dec Lpar Lex).
#[local] Abbreviation stream := (TextTokenizer.stream Lex).
#[local] Abbreviation upcoming := (TextTokenizer.upcoming Lex).
#[local] Abbreviation reachable :=
  (TextTokenizer.reachable type TokenType_eq_dec Lpar Token_init Lex).

Lemma tokens_get_set a i (t : Token) : tokens_get (tokens_set a i t) i = t.
Proof. destruct i; reflexivity. Qed.

Lemma tokens_get_set_other a i (t : Token) :
  tokens_get (tokens_set a (negb i) t) i = tokens_get a i.
Proof. destruct i; reflexivity. Qed.

(** Caching the next token of the input leaves the stream as it is. *)
Lemma stream_snoc n :
  forall cache data t annots data',
    Lex data = ((t, annots), data') ->
    stream n (cache ++ [t]) data' = stream n cache data.
Proof.
  induction n as [|n IH]; intros cache data t annots data' Hlex;
    [reflexivity|].
  destruct cache as [|x cache]; cbn [stream app].
  - rewrite Hlex. reflexivity.
  - f_equal. eapply IH, Hlex.
Qed.

Ltac count_cases s :=
  let Hc := fresh "Hc" in
  match goal with
  | Hwf : wf s |- _ =>
    assert (Hc : count_ s = 0 \/ count_ s = 1 \/ count_ s = 2)
      by (unfold wf in Hwf; lia);
    destruct s as [data annots tokens previous current cnt];
    cbn [count_] in Hc, Hwf;
    destruct Hc as [-> | [-> | ->]]
  end.

Lemma Peek_fill0_spec s :
  wf s ->
  1 <= count_ (Peek_fill0 s) <= 2
  /\ forall n, upcoming n (Peek_fill0 s) = upcoming n s.
Proof.
  intros Hwf. count_cases s; unfold TextTokenizer.Peek_fill0;
    cbn [count_ data_ annots_ tokens_ current_ previous_token_ Z.eqb].
  - destruct (Lex data) as [[t an] data'] eqn:Hlex. cbn [count_].
    split; [lia|]. intros n.
    unfold TextTokenizer.upcoming, cached.
    cbn [count_ data_ tokens_ current_ Z.eqb Z.add Pos.eqb].
    rewrite tokens_get_set.
    exact (stream_snoc n [] data t an data' Hlex).
  - split; [lia | reflexivity].
  - split; [lia | reflexivity].
Qed.

Lemma Peek_fill1_spec s :
  1 <= count_ s <= 2 ->
  count_ (Peek_fill1 s) = 2
  /\ current_ (Peek_fill1 s) = current_ s
  /\ forall n, upcoming n (Peek_fill1 s) = upcoming n s.
Proof.
  intros Hc.
  assert (Hc' : count_ s = 1 \/ count_ s = 2) by lia.
  destruct s as [data annots tokens previous current cnt].
  cbn [count_] in *.
  destruct Hc' as [-> | ->]; unfold TextTokenizer.Peek_fill1;
    cbn [count_ data_ annots_ tokens_ current_ previous_token_ Z.eqb Pos.eqb].
  - destruct (Lex data) as [[t an] data'] eqn:Hlex.
    cbn [count_ current_].
    split; [reflexivity|]. split; [reflexivity|]. intros n.
    unfold TextTokenizer.upcoming, cached.
    cbn [count_ data_ tokens_ current_ Z.eqb Z.add Pos.eqb Pos.add
         Pos.succ].
    rewrite tokens_get_set, tokens_get_set_other.
    exact (stream_snoc n [tokens_get tokens current] data t an data' Hlex).
  - split; [reflexivity|]. split; reflexivity.
Qed.

Lemma Read_spec s :
  wf s ->
  wf (snd (Read s))
  /\ forall n, upcoming (S n) s = fst (Read s) :: upcoming n (snd (Read s)).
Proof.
  intros Hwf. count_cases s; unfold TextTokenizer.Read, wf;
    cbn [count_ data_ annots_ tokens_ current_ previous_token_ Z.eqb].
  - unfold TextTokenizer.upcoming, cached. cbn [count_ data_ Z.eqb stream].
    destruct (Lex data) as [[t an] data'] eqn:Hlex.
    cbn [fst snd count_ data_ Z.eqb]. split; [lia | reflexivity].
  - cbn [fst snd count_]. split; [lia|]. intros n. reflexivity.
  - cbn [fst snd count_]. split; [lia|]. intros n.
    unfold TextTokenizer.upcoming, cached.
    cbn [count_ data_ tokens_ current_ Z.eqb Z.sub Z.add Z.opp Z.pos_sub
         Pos.eqb Z.succ_double Z.pred_double Z.double Pos.pred_double stream].
    reflexivity.
Qed.

Lemma Peek_0_spec s :
  wf s ->
  wf (snd (Peek 0 s))
  /\ (forall n, upcoming n (snd (Peek 0 s)) = upcoming n s)
  /\ upcoming 1 s = [fst (Peek 0 s)].
Proof.
  intros Hwf. unfold TextTokenizer.Peek. cbn [fst snd].
  destruct (Peek_fill0_spec s Hwf) as [Hc Hup].
  split; [unfold wf; lia|]. split; [exact Hup|].
  rewrite <- Hup.
  assert (Hc' : count_ (Peek_fill0 s) = 1 \/ count_ (Peek_fill0 s) = 2)
    by lia.
  unfold TextTokenizer.upcoming, cached.
  destruct Hc' as [-> | ->]; reflexivity.
Qed.

Lemma Peek_1_spec s :
  wf s ->
  wf (snd (Peek 1 s))
  /\ (forall n, upcoming n (snd (Peek 1 s)) = upcoming n s)
  /\ upcoming 2 s = [fst (Peek 0 s); fst (Peek 1 s)].
Proof.
  intros Hwf. unfold TextTokenizer.Peek. cbn [fst snd].
  destruct (Peek_fill0_spec s Hwf) as [Hc Hup].
  destruct (Peek_fill1_spec (Peek_fill0 s) Hc) as (Hc2 & Hcur & Hup2).
  split; [unfold wf; lia|].
  split; [intros n; now rewrite Hup2, Hup|].
  rewrite <- Hup, <- (Hup2 2%nat).
  unfold TextTokenizer.upcoming at 1, cached. rewrite Hc2.
  cbn [Z.eqb Pos.eqb stream]. rewrite Hcur.
  f_equal.
  (* the first cached token is not touched by the second fill *)
  assert (Hc' : count_ (Peek_fill0 s) = 1 \/ count_ (Peek_fill0 s) = 2)
    by lia.
  destruct (Peek_fill0 s) as [data annots tokens previous current cnt].
  cbn [count_] in Hc'.
  destruct Hc' as [-> | ->]; unfold TextTokenizer.Peek_fill1;
    cbn [count_ data_ annots_ tokens_ current_ previous_token_ Z.eqb Pos.eqb];
    [|reflexivity].
  destruct (Lex data) as [[t an] data']. cbn [tokens_ current_].
  now rewrite tokens_get_set_other.
Qed.

Lemma Match_spec kind s :
  wf s ->
  wf (snd (Match kind s))
  /\ (type (fst (Peek 0 s)) = kind ->
      fst (Match kind s) = Some (fst (Peek 0 s))
      /\ forall n, upcoming (S n) s
                   = fst (Peek 0 s) :: upcoming n (snd (Match kind s)))
  /\ (type (fst (Peek 0 s)) <> kind ->
      fst (Match kind s) = None
      /\ forall n, upcoming n (snd (Match kind s)) = upcoming n s).
Proof.
  intros Hwf. unfold TextTokenizer.Match.
  destruct (Peek_0_spec s Hwf) as (Hwf0 & Hup0 & Hhd).
  destruct (Peek 0 s) as [t s0] eqn:Hpeek. cbn [fst snd] in *.
  destruct (Read_spec s0 Hwf0) as [Hwf1 Hread].
  assert (Hfirst : fst (Read s0) = t).
  { pose proof (Hread 0%nat) as H1. rewrite Hup0, Hhd in H1.
    now injection H1. }
  destruct (TokenType_eq_dec (type t) kind) as [Heq|Hne].
  - destruct (Read s0) as [t' s1]. cbn [fst snd] in *. subst t'.
    split; [exact Hwf1|]. split; [|contradiction].
    intros _. split; [reflexivity|]. intros n.
    now rewrite <- Hup0, Hread.
  - cbn [fst snd]. split; [exact Hwf0|]. split; [contradiction|].
    intros _. split; [reflexivity | exact Hup0].
Qed.

Lemma MatchLpar_spec kind s :
  wf s ->
  wf (snd (MatchLpar kind s))
  /\ (type (fst (Peek 0 s)) = Lpar /\ type (fst (Peek 1 s)) = kind ->
      fst (MatchLpar kind s) = Some (fst (Peek 1 s))
      /\ forall n, upcoming (S (S n)) s
                   = fst (Peek 0 s) :: fst (Peek 1 s)
                       :: upcoming n (snd (MatchLpar kind s)))
  /\ (~ (type (fst (Peek 0 s)) = Lpar /\ type (fst (Peek 1 s)) = kind) ->
      fst (MatchLpar kind s) = None
      /\ forall n, upcoming n (snd (MatchLpar kind s)) = upcoming n s).
Proof.
  intros Hwf. unfold TextTokenizer.MatchLpar.
  destruct (Peek_0_spec s Hwf) as (Hwf0 & Hup0 & Hhd).
  destruct (Peek_1_spec s Hwf) as (_ & _ & Htwo).
  destruct (Peek 0 s) as [t0 s0] eqn:Hpeek0. cbn [fst snd] in *.
  destruct (Peek_1_spec s0 Hwf0) as (Hwf1 & Hup1 & Htwo0).
  assert (Hsame : fst (Peek 1 s0) = fst (Peek 1 s)).
  { rewrite Hup0, Htwo in Htwo0. now injection Htwo0. }
  destruct (Peek 1 s0) as [t1 s1] eqn:Hpeek1. cbn [fst snd] in *.
  subst t1.
  destruct (TokenType_eq_dec (type t0) Lpar) as [Hl|Hl].
  - destruct (TokenType_eq_dec (type (fst (Peek 1 s))) kind) as [Hk|Hk].
    + destruct (Read_spec s1 Hwf1) as [Hwf2 Hread1].
      destruct (Read s1) as [r1 s2] eqn:Hr1. cbn [fst snd] in *.
      destruct (Read_spec s2 Hwf2) as [Hwf3 Hread2].
      destruct (Read s2) as [r2 s3] eqn:Hr2. cbn [fst snd] in *.
      assert (Hboth : r1 = t0 /\ r2 = fst (Peek 1 s)).
      { pose proof (Hread1 1%nat) as H1. rewrite (Hread2 0%nat) in H1.
        rewrite Hup1, Hup0, Htwo in H1. now injection H1. }
      destruct Hboth as [-> ->].
      split; [exact Hwf3|]. split.
      * intros _. split; [reflexivity|]. intros n.
        now rewrite <- Hup0, <- Hup1, Hread1, Hread2.
      * intros Hnot. exfalso. apply Hnot. now split.
    + cbn [fst snd]. split; [exact Hwf1|]. split.
      * intros [_ Hk']. contradiction.
      * intros _. split; [reflexivity|]. intros n.
        now rewrite Hup1, Hup0.
  - cbn [fst snd]. split; [exact Hwf0|]. split.
    + intros [Hl' _]. contradiction.
    + intros _. split; [reflexivity | exact Hup0].
Qed.

(** A tokenizer never holds more than two tokens. *)
Lemma reachable_wf s : reachable s -> wf s.
Proof.
  induction 1 as [data | s _ IH | s at_ _ IH Hat | s k _ IH | s k _ IH].
  - unfold wf. cbn. lia.
  - apply Read_spec, IH.
  - destruct at_ as [|[|at_]]; [apply Peek_0_spec, IH
                               | apply Peek_1_spec, IH | lia].
  - apply Match_spec, IH.
  - apply MatchLpar_spec, IH.
Qed.

(** C8.  In every state a tokenizer can reach: at most two tokens are
    cached; [Peek(0)] returns the token the next [Read()] returns and leaves
    the stream of tokens as it is; [Peek(1)] returns the token after it,
    leaving the stream as it is; [Read()] takes the first token off the
    stream; [Match(kind)] returns the next token and takes it off the stream
    when its type is [kind], and otherwise returns nothing and leaves the
    stream as it is; [MatchLpar(kind)] returns the second token and takes
    both off the stream when the first is an [Lpar] and the second of type
    [kind], and otherwise returns nothing and leaves the stream as it is. *)
Theorem Tokenizer_lookahead (s : Tokenizer) :
  reachable s ->
  (0 <= count_ s <= 2 /\ (List.length (cached s) <= 2)%nat)
  /\ (fst (Peek 0 s) = fst (Read s)
      /\ fst (Read (snd (Peek 0 s))) = fst (Peek 0 s)
      /\ forall n, upcoming n (snd (Peek 0 s)) = upcoming n s)
  /\ (fst (Peek 1 s) = fst (Read (snd (Read s)))
      /\ forall n, upcoming n (snd (Peek 1 s)) = upcoming n s)
  /\ (forall n, upcoming (S n) s = fst (Read s) :: upcoming n (snd (Read s)))
  /\ (forall kind,
         (type (fst (Peek 0 s)) = kind ->
          fst (Match kind s) = Some (fst (Peek 0 s))
          /\ forall n, upcoming (S n) s
                       = fst (Peek 0 s) :: upcoming n (snd (Match kind s)))
         /\ (type (fst (Peek 0 s)) <> kind ->
             fst (Match kind s) = None
             /\ forall n, upcoming n (snd (Match kind s)) = upcoming n s))
  /\ (forall kind,
         (type (fst (Peek 0 s)) = Lpar /\ type (fst (Peek 1 s)) = kind ->
          fst (MatchLpar kind s) = Some (fst (Peek 1 s))
          /\ forall n, upcoming (S (S n)) s
                       = fst (Peek 0 s) :: fst (Peek 1 s)
                           :: upcoming n (snd (MatchLpar kind s)))
         /\ (~ (type (fst (Peek 0 s)) = Lpar
                /\ type (fst (Peek 1 s)) = kind) ->
             fst (MatchLpar kind s) = None
             /\ forall n, upcoming n (snd (MatchLpar kind s)) = upcoming n s)).
Proof.
  intros Hreach. pose proof (reachable_wf s Hreach) as Hwf.
  destruct (Read_spec s Hwf) as [Hwf1 Hread].
  destruct (Peek_0_spec s Hwf) as (Hwf0 & Hup0 & Hhd).
  destruct (Peek_1_spec s Hwf) as (_ & Hup1 & Htwo).
  split; [|split; [|split; [|split; [|split]]]].
  - split; [exact Hwf|]. unfold cached.
    destruct (count_ s =? 0); [cbn; lia|].
    destruct (count_ s =? 1); cbn; lia.
  - assert (H0 : fst (Peek 0 s) = fst (Read s)).
    { pose proof (Hread 0%nat) as H1. rewrite Hhd in H1. now injection H1. }
    split; [exact H0|]. split; [|exact Hup0].
    destruct (Read_spec _ Hwf0) as [_ Hread0].
    pose proof (Hread0 0%nat) as H1. rewrite Hup0, Hhd in H1.
    now injection H1.
  - split; [|exact Hup1].
    destruct (Read_spec _ Hwf1) as [_ Hread1].
    pose proof (Hread 1%nat) as H1. rewrite (Hread1 0%nat), Htwo in H1.
    now injection H1.
  - exact Hread.
  - intros kind. destruct (Match_spec kind s Hwf) as (_ & Hyes & Hno).
    split; assumption.
  - intros kind. destruct (MatchLpar_spec kind s Hwf) as (_ & Hyes & Hno).
    split; assumption.
Qed.

End Facts.

(** C8 at a tokenizer over the two bytes of ["(a"], every byte a token,
    after [Peek(1)] has cached both. *)
Lemma Tokenizer_lookahead_witness :
  reachable (fun b : u8 => b) Byte.byte_eq_dec x28 x00 byte_lexer
    example_tokenizer
  /\ (0 <= count_ example_tokenizer <= 2
      /\ (List.length (cached example_tokenizer) <= 2)%nat)
  /\ fst (Peek byte_lexer 0 example_tokenizer)
     = fst (Read byte_lexer example_tokenizer).
Proof.
  assert (Hr : reachable (fun b : u8 => b) Byte.byte_eq_dec x28 x00 byte_lexer
                 example_tokenizer).
  { unfold example_tokenizer. apply reachable_Peek; [apply reachable_new|].
    apply le_n. }
  split; [exact Hr|].
  destruct (Tokenizer_lookahead (fun b : u8 => b) Byte.byte_eq_dec x28 x00
              byte_lexer example_tokenizer Hr) as (Hcount & (Hpeek & _) & _).
  split; [exact Hcount | exact Hpeek].
Defined.

(** The same tokenizer at work. *)
Example Tokenizer_MatchLpar_example :
  count_ example_tokenizer = 2
  /\ fst (MatchLpar (fun b : u8 => b) Byte.byte_eq_dec x28 byte_lexer x61
            example_tokenizer) = Some x61
  /\ fst (MatchLpar (fun b : u8 => b) Byte.byte_eq_dec x28 byte_lexer x62
            example_tokenizer) = None
  /\ fst (Match (fun b : u8 => b) Byte.byte_eq_dec byte_lexer x28
            example_tokenizer) = Some x28
  /\ fst (Match (fun b : u8 => b) Byte.byte_eq_dec byte_lexer x61
            example_tokenizer) = None.
Proof. repeat split. Qed.

End TokenizerFacts.

(** ** The tokenizer: what it holds of the input *)

Module TokenizerSyncFacts.
Import TextTokenizer TokenizerSync.

Section Facts.
Context {Token TokenType : Type}.
Context (type : Token -> TokenType).
Context (TokenType_eq_dec : forall a b : TokenType, {a = b} + {a <> b}).
Context (Lpar : TokenType).
Context (Token_init : Token).
Context (Lex : SpanU8 -> (Token * list (list Token)) * SpanU8).

#[local] Abbreviation Tokenizer := (@TextTokenizer.Tokenizer Token).
#[local] Abbreviation Read := (TextTokenizer.Read Lex).
#[local] Abbreviation Peek := (TextTokenizer.Peek Lex).
#[local] Abbreviation Peek_fill0 := (TextTokenizer.Peek_fill0 Lex).
#[local] Abbreviation Peek_fill1 := (TextTokenizer.Peek_fill1 Lex).
#[local] Abbreviation Match := (TextTokenizer.Match type TokenType_eq_dec Lex).
#[local] Abbreviation MatchLpar :=
  (TextTokenizer.MatchLpar type TokenType_eq_dec Lpar Lex).
#[local] Abbreviation in_sync := (TokenizerSync.in_sync Lex).
#[local] Abbreviation lexed := (TokenizerSync.lexed Lex).

Lemma lexed_length n data tokens annots data' :
  lexed n data = (tokens, annots, data') -> List.length tokens = n.
Proof.
  revert tokens annots data'.
  induction n as [|n IH]; intros tokens annots data'; cbn [TokenizerSync.lexed].
  - now intros [= <- _ _].
  - destruct (lexed n data) as [[ts anns] d] eqn:E.
    destruct (Lex d) as [[cur more] d''].
    intros [= <- _ _]. rewrite length_app, (IH _ _ _ eq_refl). cbn. lia.
Qed.

Lemma lexed_S n data tokens annots data' cur more data'' :
  lexed n data = (tokens, annots, data') ->
  Lex data' = ((cur, more), data'') ->
  lexed (S n) data = (tokens ++ [cur], annots ++ more, data'').
Proof. intros E1 E2. cbn [TokenizerSync.lexed]. now rewrite E1, E2. Qed.

Ltac synced data s :=
  let n := fresh "n" in
  let ts := fresh "ts" in
  let Hlex := fresh "Hlex" in
  let Hcount := fresh "Hcount" in
  let Hn := fresh "Hn" in
  let Hcache := fresh "Hcache" in
  let Hlen := fresh "Hlen" in
  let Hc := fresh "Hc" in
  intros (n & ts & ? & Hlex & <- & Hcount & Hn & Hcache);
  pose proof (lexed_length _ _ _ _ _ Hlex) as Hlen;
  assert (Hc : count_ s = 0 \/ count_ s = 1 \/ count_ s = 2) by lia;
  destruct s as [d annots tokens previous current cnt];
  cbn [count_ data_ annots_] in *;
  unfold cached in Hcache; cbn [count_ tokens_ current_] in Hcache;
  destruct Hc as [-> | [-> | ->]];
  cbn [Z.eqb Pos.eqb] in Hcache.

Ltac lex_next Hlex :=
  match goal with
  | |- context [Lex ?d] =>
    let cur := fresh "cur" in
    let more := fresh "more" in
    let d' := fresh "d'" in
    let E := fresh "E" in
    destruct (Lex d) as [[cur more] d'] eqn:E;
    pose proof (lexed_S _ _ _ _ _ _ _ _ Hlex E)
  end.

Lemma skipn_snoc {A} (n : nat) (l : list A) (x : A) :
  (n <= List.length l)%nat -> skipn n (l ++ [x]) = skipn n l ++ [x].
Proof.
  intros Hn. rewrite skipn_app.
  replace (n - List.length l)%nat with 0%nat by lia. reflexivity.
Qed.

Lemma skipn_two {A} (n : nat) (l : list A) (a b : A) :
  skipn n l = [a; b] -> skipn (S n) l = [b].
Proof.
  intros E. replace (S n) with (1 + n)%nat by lia.
  rewrite <- skipn_skipn, E. reflexivity.
Qed.

Lemma skipn_one {A} (n : nat) (l : list A) (a : A) :
  skipn n l = [a] -> skipn (S n) l = [].
Proof.
  intros E. replace (S n) with (1 + n)%nat by lia.
  rewrite <- skipn_skipn, E. reflexivity.
Qed.

Ltac norm :=
  change (Z.to_nat 0) with 0%nat in *;
  change (Z.to_nat 1) with 1%nat in *;
  change (Z.to_nat 2) with 2%nat in *;
  change (0 + 1) with 1 in *; change (1 + 1) with 2 in *;
  change (1 - 1) with 0 in *; change (2 - 1) with 1 in *;
  rewrite ?Nat.sub_0_r in *.

Ltac sync_with n :=
  eexists n, _, _; split; [eassumption|];
  cbn [annots_ count_ data_]; split; [reflexivity|];
  norm; split; [lia|]; split; [lia|];
  unfold cached; cbn [count_ tokens_ current_ Z.eqb Pos.eqb].

Lemma Read_in_sync data s : in_sync data s -> in_sync data (snd (Read s)).
Proof.
  synced data s; unfold TextTokenizer.Read; cbn [count_ Z.eqb Pos.eqb];
    norm.
  - cbn [data_]. lex_next Hlex. cbn [snd]. sync_with (S n).
    rewrite skipn_all2; [reflexivity | rewrite length_app; cbn; lia].
  - cbn [snd]. sync_with n.
    symmetry. replace n with (S (n - 1)) at 1 by lia.
    eapply skipn_one. symmetry. exact Hcache.
  - cbn [snd]. sync_with n.
    symmetry. replace (n - 1)%nat with (S (n - 2)) by lia.
    eapply skipn_two. symmetry. exact Hcache.
Qed.

Lemma Peek_fill0_in_sync data s :
  in_sync data s -> in_sync data (Peek_fill0 s).
Proof.
  intros Hs. pose proof Hs as Hs'. revert Hs.
  synced data s; unfold TextTokenizer.Peek_fill0; cbn [count_ Z.eqb Pos.eqb];
    norm; try exact Hs'.
  cbn [data_]. lex_next Hlex. sync_with (S n).
  rewrite TokenizerFacts.tokens_get_set.
  replace (S n - 1)%nat with n by lia.
  rewrite skipn_snoc by lia. now rewrite <- Hcache.
Qed.

Lemma Peek_fill1_in_sync data s :
  in_sync data s -> in_sync data (Peek_fill1 s).
Proof.
  intros Hs. pose proof Hs as Hs'. revert Hs.
  synced data s; unfold TextTokenizer.Peek_fill1; cbn [count_ Z.eqb Pos.eqb];
    norm; try exact Hs'.
  cbn [data_]. lex_next Hlex. sync_with (S n).
  rewrite TokenizerFacts.tokens_get_set, TokenizerFacts.tokens_get_set_other.
  replace (S n - 2)%nat with (n - 1)%nat by lia.
  rewrite skipn_snoc by lia. now rewrite <- Hcache.
Qed.

Lemma Peek_in_sync data s at_ :
  in_sync data s -> in_sync data (snd (Peek at_ s)).
Proof.
  intros Hs. unfold TextTokenizer.Peek. destruct at_; cbn [snd].
  - now apply Peek_fill0_in_sync.
  - now apply Peek_fill1_in_sync, Peek_fill0_in_sync.
Qed.

Lemma Match_in_sync data s kind :
  in_sync data s -> in_sync data (snd (Match kind s)).
Proof.
  intros Hs. unfold TextTokenizer.Match.
  pose proof (Peek_in_sync data s 0 Hs) as H0.
  destruct (TextTokenizer.Peek Lex 0 s) as [t s0]. cbn [snd] in H0.
  destruct (TokenType_eq_dec (type t) kind); [|exact H0].
  pose proof (Read_in_sync data s0 H0) as H1.
  destruct (TextTokenizer.Read Lex s0) as [t1 s1]. exact H1.
Qed.

Lemma MatchLpar_in_sync data s kind :
  in_sync data s -> in_sync data (snd (MatchLpar kind s)).
Proof.
  intros Hs. unfold TextTokenizer.MatchLpar.
  pose proof (Peek_in_sync data s 0 Hs) as H0.
  destruct (TextTokenizer.Peek Lex 0 s) as [t s0]. cbn [snd] in H0.
  destruct (TokenType_eq_dec (type t) Lpar); [|exact H0].
  pose proof (Peek_in_sync data s0 1 H0) as H1.
  destruct (TextTokenizer.Peek Lex 1 s0) as [t1 s1]. cbn [snd] in H1.
  destruct (TokenType_eq_dec (type t1) kind); [|exact H1].
  pose proof (Read_in_sync data s1 H1) as H2.
  destruct (TextTokenizer.Read Lex s1) as [t2 s2]. cbn [snd] in H2.
  pose proof (Read_in_sync data s2 H2) as H3.
  destruct (TextTokenizer.Read Lex s2) as [t3 s3]. exact H3.
Qed.

Lemma reachable_in_sync data s :
  reachable_from type TokenType_eq_dec Lpar Token_init Lex data s ->
  in_sync data s.
Proof.
  induction 1 as [| s _ IH | s at_ _ IH _ | s k _ IH | s k _ IH].
  - exists 0%nat, [], []. repeat split; cbn; lia.
  - now apply Read_in_sync.
  - now apply Peek_in_sync.
  - now apply Match_in_sync.
  - now apply MatchLpar_in_sync.
Qed.

(** X16.  A tokenizer built over [data] and used through its member
    functions has run the lexer some number of times in a row over [data],
    and nothing else: it holds what these calls left of [data];
    [annotations()] is the annotations they collected, in the order found,
    those before a token that was only peeked included; and the tokens not
    yet read, at most two, are the last ones lexed. *)
Theorem Tokenizer_in_sync (data : SpanU8) (s : Tokenizer) :
  reachable_from type TokenType_eq_dec Lpar Token_init Lex data s ->
  exists n tokens,
    lexed n data = (tokens, annotations s, data_ s)
    /\ 0 <= count s <= 2
    /\ (Z.to_nat (count s) <= n)%nat
    /\ cached s = skipn (n - Z.to_nat (count s)) tokens.
Proof.
  intros Hreach. apply reachable_in_sync in Hreach.
  destruct Hreach as (n & tokens & annots & Hlex & <- & Hcount & Hn & Hcache).
  exists n, tokens. repeat split; try assumption; apply Hcount.
Qed.

(** X17.  [Previous()] is the token the last [Read()] returned: [Read]
    sets it to the token it returns, [Peek] leaves it as it is, and [Match]
    and [MatchLpar] set it to the token they return, or leave it as it is
    when they return nothing. *)
Theorem Tokenizer_Previous (s : Tokenizer) :
  Previous (snd (Read s)) = fst (Read s)
  /\ (forall at_, Previous (snd (Peek at_ s)) = Previous s)
  /\ (forall kind,
         Previous (snd (Match kind s))
         = match fst (Match kind s) with
           | Some t => t
           | None => Previous s
           end)
  /\ (forall kind,
         Previous (snd (MatchLpar kind s))
         = match fst (MatchLpar kind s) with
           | Some t => t
           | None => Previous s
           end).
Proof.
  assert (HRead : forall s, Previous (snd (Read s)) = fst (Read s)).
  { intros s0. unfold TextTokenizer.Read.
    destruct (count_ s0 =? 0); [|reflexivity].
    destruct (Lex (data_ s0)) as [[cur more] d]. reflexivity. }
  assert (Hfill0 : forall s, Previous (Peek_fill0 s) = Previous s).
  { intros s0. unfold TextTokenizer.Peek_fill0.
    destruct (count_ s0 =? 0); [|reflexivity].
    destruct (Lex (data_ s0)) as [[cur more] d]. reflexivity. }
  assert (Hfill1 : forall s, Previous (Peek_fill1 s) = Previous s).
  { intros s0. unfold TextTokenizer.Peek_fill1.
    destruct (count_ s0 =? 1); [|reflexivity].
    destruct (Lex (data_ s0)) as [[cur more] d]. reflexivity. }
  assert (HPeek : forall at_ s, Previous (snd (Peek at_ s)) = Previous s).
  { intros at_ s0. unfold TextTokenizer.Peek. destruct at_; cbn [snd].
    - apply Hfill0.
    - now rewrite Hfill1, Hfill0. }
  split; [apply HRead|]. split; [intros at_; apply HPeek|]. split.
  - intros kind. unfold TextTokenizer.Match.
    pose proof (HPeek 0%nat s) as H0.
    destruct (TextTokenizer.Peek Lex 0 s) as [t s0]. cbn [snd] in H0.
    destruct (TokenType_eq_dec (type t) kind); [|exact H0].
    pose proof (HRead s0) as H1.
    destruct (TextTokenizer.Read Lex s0) as [t1 s1]. exact H1.
  - intros kind. unfold TextTokenizer.MatchLpar.
    pose proof (HPeek 0%nat s) as H0.
    destruct (TextTokenizer.Peek Lex 0 s) as [t s0]. cbn [snd] in H0.
    destruct (TokenType_eq_dec (type t) Lpar); [|exact H0].
    pose proof (HPeek 1%nat s0) as H1.
    destruct (TextTokenizer.Peek Lex 1 s0) as [t1 s1]. cbn [snd] in H1.
    destruct (TokenType_eq_dec (type t1) kind);
      [|cbn [fst snd]; now rewrite H1].
    destruct (TextTokenizer.Read Lex s1) as [t2 s2].
    pose proof (HRead s2) as H3.
    destruct (TextTokenizer.Read Lex s2) as [t3 s3]. exact H3.
Qed.

End Facts.

(** X16 at a tokenizer over [@A ( @B a], after [Peek(1)]: both tokens are
    cached and both annotations collected, though no token was read. *)
Lemma Tokenizer_in_sync_witness :
  reachable_from (fun b : u8 => b) Byte.byte_eq_dec x28 x00 annot_lexer
    annot_example_data annot_example_tokenizer
  /\ annotations annot_example_tokenizer = [[x41]; [x42]]
  /\ exists n tokens,
      lexed annot_lexer n annot_example_data
      = (tokens, annotations annot_example_tokenizer,
         data_ annot_example_tokenizer)
      /\ 0 <= count annot_example_tokenizer <= 2
      /\ (Z.to_nat (count annot_example_tokenizer) <= n)%nat
      /\ cached annot_example_tokenizer
         = skipn (n - Z.to_nat (count annot_example_tokenizer)) tokens.
Proof.
  assert (Hr : reachable_from (fun b : u8 => b) Byte.byte_eq_dec x28 x00
                 annot_lexer annot_example_data annot_example_tokenizer).
  { unfold annot_example_tokenizer. apply from_Peek; [apply from_new|].
    apply le_n. }
  split; [exact Hr|]. split; [reflexivity|].
  exact (Tokenizer_in_sync (fun b : u8 => b) Byte.byte_eq_dec x28 x00
           annot_lexer annot_example_data annot_example_tokenizer Hr).
Defined.


End TokenizerSyncFacts.

(** ** Function types: [FunctionTypeMap] *)

Module FunctionTypeFacts.
Import Text.

Lemma ValueType_eqb_eq a b : ValueType_eqb a b = true <-> a = b.
Proof. destruct a, b; cbn; split; congruence. Qed.

Lemma ValueTypeList_eqb_eq a : forall b, ValueTypeList_eqb a b = true <-> a = b.
Proof.
  induction a as [|x a IH]; intros [|y b]; cbn; try (split; congruence).
  rewrite andb_true_iff, ValueType_eqb_eq, IH. split.
  - intros [-> ->]. reflexivity.
  - intros [= -> ->]. split; reflexivity.
Qed.

(** The equality of function types is structural. *)
Lemma FunctionType_eqb_eq a b : FunctionType_eqb a b = true <-> a = b.
Proof.
  unfold FunctionType_eqb. rewrite andb_true_iff, !ValueTypeList_eqb_eq.
  destruct a, b; cbn. split.
  - intros [-> ->]. reflexivity.
  - intros [= -> ->]. split; reflexivity.
Qed.

Lemma FunctionType_eqb_refl a : FunctionType_eqb a a = true.
Proof. now apply FunctionType_eqb_eq. Qed.

Lemma FunctionType_eqb_sym a b : FunctionType_eqb a b = FunctionType_eqb b a.
Proof.
  destruct (FunctionType_eqb a b) eqn:E1, (FunctionType_eqb b a) eqn:E2;
    try reflexivity.
  - apply FunctionType_eqb_eq in E1. subst.
    now rewrite FunctionType_eqb_refl in E2.
  - apply FunctionType_eqb_eq in E2. subst.
    now rewrite FunctionType_eqb_refl in E1.
Qed.

Lemma Has_In l ft : Has l ft = true <-> In ft l.
Proof.
  unfold Has. rewrite existsb_exists. split.
  - intros (x & Hin & Heq). apply FunctionType_eqb_eq in Heq. now subst.
  - intros Hin. exists ft. split; [exact Hin | apply FunctionType_eqb_refl].
Qed.

Lemma Has_app l1 l2 ft : Has (l1 ++ l2) ft = Has l1 ft || Has l2 ft.
Proof. apply existsb_app. Qed.

(** ... "its index is used": the first type equal to [ft] has an index. *)
Lemma FindIndex_Some l ft :
  forall i, Has l ft = true ->
    exists n, FindIndex l ft i = Some (i + Z.of_nat n)
              /\ nth_error l n = Some ft
              /\ (n < List.length l)%nat.
Proof.
  induction l as [|x l IH]; intros i; cbn; [discriminate|].
  destruct (FunctionType_eqb ft x) eqn:E.
  - apply FunctionType_eqb_eq in E. subst x. intros _. exists 0%nat.
    split; [f_equal; lia|]. split; [reflexivity | cbn; lia].
  - cbn. intros Hhas. destruct (IH (i + 1) Hhas) as (n & Hf & Hn & Hlt).
    exists (S n). split; [rewrite Hf; f_equal; lia|].
    split; [exact Hn | cbn; lia].
Qed.

Lemma filter_filter_comm {A} (f g : A -> bool) l :
  filter f (filter g l) = filter g (filter f l).
Proof.
  induction l as [|a l IH]; cbn; [reflexivity|].
  destruct (f a) eqn:Ef, (g a) eqn:Eg; cbn; rewrite ?Ef, ?Eg, ?IH; reflexivity.
Qed.

Lemma filter_idem {A} (f : A -> bool) l : filter f (filter f l) = filter f l.
Proof.
  induction l as [|a l IH]; cbn; [reflexivity|].
  destruct (f a) eqn:Ef; cbn; rewrite ?Ef, ?IH; reflexivity.
Qed.

Lemma first_seen_filter x l :
  first_seen (filter (differs x) l) = filter (differs x) (first_seen l).
Proof.
  induction l as [|y l IH]; cbn [filter first_seen]; [reflexivity|].
  destruct (differs x y) eqn:E; cbn [filter first_seen].
  - rewrite ?E. f_equal. fold (differs y). rewrite IH.
    apply filter_filter_comm.
  - rewrite ?E. unfold differs in E. apply negb_false_iff in E.
    apply FunctionType_eqb_eq in E. subst y. fold (differs x).
    now rewrite filter_idem.
Qed.

Lemma filter_Has_snoc l x d :
  filter (fun ft => negb (Has (l ++ [x]) ft)) d
  = filter (differs x) (filter (fun ft => negb (Has l ft)) d).
Proof.
  induction d as [|y d IH]; cbn [filter]; [reflexivity|].
  rewrite Has_app, negb_orb.
  assert (Hy : negb (Has [x] y) = differs x y).
  { unfold Has, differs. cbn [existsb]. now rewrite orb_false_r. }
  rewrite Hy.
  destruct (negb (Has l y)); cbn [andb filter]; [|exact IH].
  destruct (differs x y); now rewrite IH.
Qed.

(** What the deferred list holds after some more uses: each new type once,
    where it was first seen. *)
Lemma defer_fold uses :
  forall l,
    fold_left (fun l ft => if Has l ft then l else l ++ [ft]) uses l
    = l ++ first_seen (filter (fun ft => negb (Has l ft)) uses).
Proof.
  induction uses as [|x d IH]; intros l; cbn [fold_left filter].
  - cbn. now rewrite app_nil_r.
  - destruct (Has l x) eqn:Hx; cbn [negb]; [apply IH|].
    rewrite IH. cbn [first_seen]. rewrite <- app_assoc. cbn [app].
    do 2 f_equal. fold (differs x). rewrite <- first_seen_filter.
    f_equal. apply filter_Has_snoc.
Qed.

Lemma filter_true {A} (f : A -> bool) l :
  (forall x, f x = true) -> filter f l = l.
Proof.
  intros Hf. induction l as [|a l IH]; cbn; [reflexivity|].
  now rewrite Hf, IH.
Qed.

(** The explicit types of a module and the anonymous ones it leaves
    deferred, while the module is read. *)
Lemma fold_on_event evs :
  forall m,
    list_ (fold_left on_event evs m) = list_ m ++ explicit_types evs
    /\ deferred_list_ (fold_left on_event evs m)
       = fold_left (fun l ft => if Has l ft then l else l ++ [ft])
           (absent_at_use (list_ m) evs) (deferred_list_ m).
Proof.
  induction evs as [|ev evs IH]; intros m; cbn [fold_left].
  - cbn. rewrite !app_nil_r. split; reflexivity.
  - destruct (IH (on_event m ev)) as [Hl Hd].
    destruct ev as [b|ft]; cbn [on_event absent_at_use] in *.
    + cbn [Define list_ deferred_list_] in *. split.
      * rewrite Hl. cbn. now rewrite <- app_assoc.
      * exact Hd.
    + unfold Use in *. destruct (Has (list_ m) ft) eqn:Hhas.
      * split; [exact Hl | exact Hd].
      * cbn [fold_left].
        destruct (Has (deferred_list_ m) ft) eqn:Hdef;
          cbn [list_ deferred_list_] in *; split; assumption.
Qed.

(** C5.  (1) Using an anonymous function type that is structurally equal
    to a type of the map leaves the map as it is, and the first such type has
    an index in it.  (2) While a module is read the size of the map is the
    number of its explicit types: an anonymous use never grows it.  (3) After
    [EndModule] the map holds the explicit types in their order, followed by
    the anonymous types that were absent at their use, each once and in the
    order they were first seen.  (4) Two explicit entries get two indices,
    whether or not their types are equal. *)
Theorem FunctionTypeMap_deferral :
  (forall m ft,
      Has (list_ m) ft = true ->
      Use ft m = m
      /\ exists i, Find ft m = Some i /\ Get i m = Some ft
                   /\ 0 <= i < Size m)
  /\ (forall evs,
         Size (fold_left on_event evs FunctionTypeMap_init)
         = Z.of_nat (List.length (explicit_types evs)))
  /\ (forall evs,
         list_ (read_module evs)
         = explicit_types evs ++ first_seen (absent_at_use [] evs)
         /\ deferred_list_ (read_module evs) = [])
  /\ (forall b1 b2 m,
         Size (Define b2 (Define b1 m)) = Size m + 2
         /\ Get (Size m) (Define b2 (Define b1 m)) = Some (ToFunctionType b1)
         /\ Get (Size m + 1) (Define b2 (Define b1 m))
            = Some (ToFunctionType b2)).
Proof.
  split; [|split; [|split]].
  - intros m ft Hhas. split; [unfold Use; now rewrite Hhas|].
    destruct (FindIndex_Some (list_ m) ft 0 Hhas) as (n & Hf & Hn & Hlt).
    exists (Z.of_nat n). unfold Find, Get, Size.
    split; [exact Hf|]. rewrite Nat2Z.id. split; [exact Hn | lia].
  - intros evs. unfold Size.
    destruct (fold_on_event evs FunctionTypeMap_init) as [-> _].
    reflexivity.
  - intros evs. unfold read_module, EndModule. cbn [list_ deferred_list_].
    split; [|reflexivity].
    destruct (fold_on_event evs FunctionTypeMap_init) as [Hl Hd].
    cbn [FunctionTypeMap_init list_ deferred_list_ app] in Hl, Hd.
    rewrite Hl, Hd, defer_fold. cbn [app]. do 2 f_equal.
    apply filter_true. reflexivity.
  - intros b1 b2 m. unfold Size, Get, Define. cbn [list_].
    rewrite <- app_assoc. cbn [app]. rewrite !length_app. cbn [List.length].
    split; [lia|]. split.
    + rewrite Nat2Z.id, nth_error_app2 by lia. now rewrite Nat.sub_diag.
    + replace (Z.to_nat (Z.of_nat (List.length (list_ m)) + 1))
        with (S (List.length (list_ m))) by lia.
      rewrite nth_error_app2 by lia.
      replace (S (List.length (list_ m)) - List.length (list_ m))%nat
        with 1%nat by lia.
      reflexivity.
Qed.

(** [TextReadTest.FunctionTypeUse_ReuseType] *)
Example FunctionTypeUse_ReuseType :
  Size (Use ft_i32 (Define (bound ft_i32) FunctionTypeMap_init)) = 1.
Proof. reflexivity. Qed.

(** [TextReadTest.FunctionTypeUse_DeferType] *)
Example FunctionTypeUse_DeferType :
  let ftm := read_module [Explicit (bound ft_i32); Anonymous ft_f32;
                          Explicit (bound ft_i64)] in
  Size ftm = 3
  /\ Get 0 ftm = Some ft_i32 /\ Get 1 ftm = Some ft_i64
  /\ Get 2 ftm = Some ft_f32.
Proof. repeat split. Qed.

(** [TextReadTest.TypeEntry_DistinctTypes] *)
Example TypeEntry_DistinctTypes :
  Size (Define (mkBoundFunctionType [] [])
          (Define (mkBoundFunctionType [] []) FunctionTypeMap_init)) = 2.
Proof. reflexivity. Qed.

(** Spec 8, "implicit type dedup": two uses of [(param i32)] leave one
    entry. *)
Example implicit_type_dedup :
  list_ (read_module [Anonymous ft_i32; Anonymous ft_i32]) = [ft_i32].
Proof. reflexivity. Qed.

(** A type used before an equal explicit type is defined was absent at its
    use: it is deferred and appended, the explicit entry keeps its own
    index. *)
Example deferred_before_defined :
  list_ (read_module [Anonymous ft_i32; Explicit (bound ft_i32)])
  = [ft_i32; ft_i32].
Proof. reflexivity. Qed.

End FunctionTypeFacts.

(** ** Folded expressions *)

Module FoldedFacts.
Import Text.

Section Facts.
Context {Plain : Type}.

#[local] Abbreviation Token := (@Text.Token Plain).
#[local] Abbreviation InstructionList := (@Text.InstructionList Plain).

(** A folded expression starts with a parenthesis and a keyword. *)
Lemma folded_starts (ts : list Token) (is_ : InstructionList) :
  folded ts is_ ->
  exists k ts', ts = TLpar :: k :: ts'
                /\ forall rest, IsExpression (ts ++ rest) = true.
Proof.
  destruct 1; eexists _, _; (split; [reflexivity|]); intros rest; reflexivity.
Qed.

Lemma ends_body_Rpar (rest : list Token) : ends_body (TRpar :: rest).
Proof. split; [reflexivity | discriminate]. Qed.

Lemma ReadInstructionList_stop fuel (rest : list Token) out :
  ends_body rest ->
  ReadInstructionList (S fuel) rest out = Some (out, rest).
Proof.
  intros [Hexp Hplain]. cbn [ReadInstructionList].
  destruct rest as [|[] rest]; try (rewrite Hexp; reflexivity);
    try reflexivity.
  exfalso. eapply Hplain. reflexivity.
Qed.

Lemma ReadInstructionList_folded fuel (ts : list Token) out :
  IsExpression ts = true ->
  ReadInstructionList (S fuel) ts out
  = match ReadExpression fuel ts out with
    | Some (out, ts) => ReadInstructionList fuel ts out
    | None => None
    end.
Proof.
  intros Hexp. cbn [ReadInstructionList].
  destruct ts as [|[] ts]; try discriminate Hexp.
  now rewrite Hexp.
Qed.

Ltac lengths :=
  repeat first [ rewrite length_app in * | progress cbn [List.length] in * ];
  lia.

(** The parser reads each phrase of the grammar, and appends the
    instructions the phrase stands for. *)
Lemma ReadExpression_complete :
  (forall (ts : list Token) (is_ : InstructionList),
      folded ts is_ ->
      forall rest out fuel,
        (List.length (ts ++ rest) <= fuel)%nat ->
        ReadExpression fuel (ts ++ rest) out = Some (out ++ is_, rest))
  /\ (forall (ts : list Token) (is_ : InstructionList),
         folded_list ts is_ ->
         forall rest out fuel,
           IsExpression rest = false ->
           (List.length (ts ++ rest) < fuel)%nat ->
           ReadExpressionList fuel (ts ++ rest) out = Some (out ++ is_, rest))
  /\ (forall (ts : list Token) (is_ : InstructionList),
         instr_list ts is_ ->
         forall rest out fuel,
           ends_body rest ->
           (List.length (ts ++ rest) < fuel)%nat ->
           ReadInstructionList fuel (ts ++ rest) out
           = Some (out ++ is_, rest)).
Proof.
  apply folded_mutind.
  - (* (p operands) *)
    intros p ops_t ops_i _ IH rest out fuel Hlen.
    cbn [app] in *. rewrite <- app_assoc in *. cbn [app] in *.
    cbn [List.length] in Hlen.
    destruct fuel as [|fuel]; [lia|]. cbn [ReadExpression].
    rewrite (IH (TRpar :: rest) out fuel eq_refl) by lia.
    now rewrite app_assoc.
  - (* (block body) *)
    intros b body_t body_i _ IH rest out fuel Hlen.
    cbn [app] in *. rewrite <- app_assoc in *. cbn [app] in *.
    cbn [List.length] in Hlen.
    destruct fuel as [|fuel]; [lia|]. cbn [ReadExpression].
    rewrite (IH (TRpar :: rest) (out ++ [IBlock b]) fuel
               (ends_body_Rpar rest)) by lia.
    rewrite <- !app_assoc. reflexivity.
  - (* (if cond (then body)) *)
    intros cond_t cond_i then_t then_i _ IHc _ IHt rest out fuel Hlen.
    cbn [app] in *. rewrite <- !app_assoc in *. cbn [app] in *.
    rewrite <- !app_assoc in *. cbn [app] in *.
    destruct fuel as [|fuel]; [lengths|]. cbn [ReadExpression].
    rewrite (IHc (TLpar :: TThen :: then_t ++ TRpar :: TRpar :: rest) out fuel
               eq_refl) by lengths.
    rewrite (IHt (TRpar :: TRpar :: rest) ((out ++ cond_i) ++ [IIf]) fuel
               (ends_body_Rpar _)) by lengths.
    rewrite <- !app_assoc. reflexivity.
  - (* (if cond (then body) (else body)) *)
    intros cond_t cond_i then_t then_i else_t else_i
           _ IHc _ IHt _ IHe rest out fuel Hlen.
    cbn [app] in *. rewrite <- !app_assoc in *. cbn [app] in *.
    rewrite <- !app_assoc in *. cbn [app] in *.
    rewrite <- !app_assoc in *. cbn [app] in *.
    destruct fuel as [|fuel]; [lengths|]. cbn [ReadExpression].
    rewrite (IHc (TLpar :: TThen :: then_t ++ TRpar :: TLpar :: TElse
                    :: else_t ++ TRpar :: TRpar :: rest) out fuel eq_refl)
      by lengths.
    rewrite (IHt (TRpar :: TLpar :: TElse :: else_t ++ TRpar :: TRpar :: rest)
               ((out ++ cond_i) ++ [IIf]) fuel (ends_body_Rpar _))
      by lengths.
    rewrite (IHe (TRpar :: TRpar :: rest)
               ((((out ++ cond_i) ++ [IIf]) ++ then_i) ++ [IElse]) fuel
               (ends_body_Rpar _)) by lengths.
    rewrite <- !app_assoc. reflexivity.
  - (* no operand *)
    intros rest out fuel Hexp Hlen. cbn [app] in *.
    destruct fuel as [|fuel]; [lia|]. cbn [ReadExpressionList].
    rewrite Hexp. now rewrite app_nil_r.
  - (* an operand, then the others *)
    intros t i ts is_ Hf IH _ IHl rest out fuel Hexp Hlen.
    rewrite <- app_assoc in *.
    destruct (folded_starts t i Hf) as (k & t' & Ht & Hstart).
    destruct fuel as [|fuel]; [lia|]. cbn [ReadExpressionList].
    rewrite Hstart. rewrite length_app in Hlen.
    rewrite (IH (ts ++ rest) out fuel) by (rewrite length_app; lia).
    rewrite (IHl rest (out ++ i) fuel Hexp)
      by (subst t; cbn [List.length] in Hlen; lia).
    now rewrite app_assoc.
  - (* an empty body *)
    intros rest out fuel Hend Hlen. cbn [app] in *.
    destruct fuel as [|fuel]; [lia|].
    rewrite (ReadInstructionList_stop fuel rest out Hend).
    now rewrite app_nil_r.
  - (* a plain instruction, then the rest of the body *)
    intros p ts is_ _ IH rest out fuel Hend Hlen.
    cbn [app List.length] in *.
    destruct fuel as [|fuel]; [lia|]. cbn [ReadInstructionList].
    rewrite (IH rest (out ++ [IPlain p]) fuel Hend) by lia.
    rewrite <- app_assoc. reflexivity.
  - (* a folded expression, then the rest of the body *)
    intros t i ts is_ Hf IH _ IHl rest out fuel Hend Hlen.
    rewrite <- app_assoc in *.
    destruct (folded_starts t i Hf) as (k & t' & Ht & Hstart).
    destruct fuel as [|fuel]; [lia|].
    rewrite (ReadInstructionList_folded fuel _ out (Hstart _)).
    rewrite length_app in Hlen.
    rewrite (IH (ts ++ rest) out fuel) by (rewrite length_app; lia).
    rewrite (IHl rest (out ++ i) fuel Hend)
      by (subst t; cbn [List.length] in Hlen; lia).
    now rewrite app_assoc.
Qed.

Lemma ReadExpression_ForTesting_folded (ts : list Token) is_ :
  folded ts is_ -> ReadExpression_ForTesting ts = Some (is_, []).
Proof.
  intros Hf. unfold ReadExpression_ForTesting.
  destruct ReadExpression_complete as [Hc _].
  pose proof (Hc ts is_ Hf [] [] (List.length ts)) as H.
  rewrite app_nil_r in H. apply H. lia.
Qed.

End Facts.

(** C6.  A folded expression [(p operand1 ... operandk)] is read as the
    instructions of its operands, in the order of the source and each
    flattened in the same way, followed by [p]; and
    [(if cond (then ...) (else ...))] as the instructions of the condition,
    [if], the then-body, [else], the else-body, [end]. *)
Theorem folded_expression_flattening (Plain : Type) :
  (forall (p : Plain) ops_t ops_i,
      folded_list ops_t ops_i ->
      ReadExpression_ForTesting (TLpar :: TPlain p :: ops_t ++ [TRpar])
      = Some (ops_i ++ [IPlain p], []))
  /\ (forall (t : list (@Token Plain)) i ts is_,
         folded t i -> folded_list ts is_ ->
         folded_list (t ++ ts) (i ++ is_))
  /\ (forall (cond_t : list (@Token Plain)) cond_i then_t then_i else_t else_i,
         folded_list cond_t cond_i ->
         instr_list then_t then_i ->
         instr_list else_t else_i ->
         ReadExpression_ForTesting
           (TLpar :: TIf :: cond_t ++ TLpar :: TThen :: then_t
              ++ TRpar :: TLpar :: TElse :: else_t ++ [TRpar; TRpar])
         = Some (cond_i ++ IIf :: then_i ++ IElse :: else_i ++ [IEnd], [])).
Proof.
  split; [|split].
  - intros p ops_t ops_i Hops.
    apply ReadExpression_ForTesting_folded. now constructor.
  - intros t i ts is_ Hf Hl. now constructor.
  - intros cond_t cond_i then_t then_i else_t else_i Hc Ht He.
    apply ReadExpression_ForTesting_folded. now constructor.
Qed.

(** [TextReadTest.Expression_PlainFolded]:
    [(i32.add (i32.const 0) (i32.const 1))]. *)
Example Expression_PlainFolded :
  ReadExpression_ForTesting
    [TLpar; TPlain "i32.add"; TLpar; TPlain "i32.const 0"; TRpar;
     TLpar; TPlain "i32.const 1"; TRpar; TRpar]%string
  = Some ([IPlain "i32.const 0"; IPlain "i32.const 1"; IPlain "i32.add"],
          [])%string.
Proof. reflexivity. Qed.

(** [TextReadTest.Expression_If]: [(if (nop) (then (nop)) (else (nop)))],
    [(if (then (nop)))] and [(if (then))]. *)
Example Expression_If :
  ReadExpression_ForTesting
    [TLpar; TIf; TLpar; TPlain "nop"; TRpar;
     TLpar; TThen; TLpar; TPlain "nop"; TRpar; TRpar;
     TLpar; TElse; TLpar; TPlain "nop"; TRpar; TRpar; TRpar]%string
  = Some ([IPlain "nop"; IIf; IPlain "nop"; IElse; IPlain "nop"; IEnd],
          [])%string
  /\ ReadExpression_ForTesting
       [TLpar; TIf; TLpar; TThen; TLpar; TPlain "nop"; TRpar; TRpar;
        TRpar]%string
     = Some ([IIf; IPlain "nop"; IEnd], [])%string
  /\ ReadExpression_ForTesting
       ([TLpar; TIf; TLpar; TThen; TRpar; TRpar] : list (@Token string))
     = Some ([IIf; IEnd], []).
Proof. repeat split. Qed.

End FoldedFacts.

(** ** The formatters *)

Module FormatterFacts.
Import Reader Formatters.
Local Open Scope string_scope.











Section Vector.
Context {T : Type} (format_T : T -> string).



End Vector.


Example format_examples :
  format_SpanU8 [x00; xab; x7f]
  = dquote ++ backslash ++ "00" ++ backslash ++ "ab" ++ backslash ++ "7f"
      ++ dquote
  /\ format_vector format_SpanU8 [] = "[]"
  /\ format_vector (fun n => Reader.format_zd n) [1; 22; 333] = "[1 22 333]".
Proof. repeat split. Qed.

End FormatterFacts.

(** ** Custom annotations *)

Module CustomFacts.
Import Custom.
Local Open Scope string_scope.

Lemma TokenType_eqb_eq a b : TokenType_eqb a b = true <-> a = b.
Proof.
  split.
  - destruct a, b; cbn; try discriminate; try reflexivity.
    intros E. apply Nat.eqb_eq in E. now subst.
  - intros <-. destruct a; cbn; try reflexivity. apply Nat.eqb_refl.
Qed.

Lemma TokenType_eqb_neq a b : TokenType_eqb a b = false <-> a <> b.
Proof.
  rewrite <- TokenType_eqb_eq. destruct (TokenType_eqb a b); split;
    congruence.
Qed.

Section Facts.
Context {Token Location Errors : Type}.
Context (type : Token -> TokenType) (loc : Token -> Location).
Context (ToStringView : Location -> string).
Context (text_text : Token -> string).
Context (concat_Token : Token -> string).
Context (OnError : Location -> string -> Errors -> Errors).

#[local] Abbreviation State := (@Custom.State Errors).
#[local] Abbreviation EXPECT_NOT_END := (Custom.EXPECT_NOT_END loc OnError).
#[local] Abbreviation EXPECT_TOK :=
  (Custom.EXPECT_TOK type loc concat_Token OnError).
#[local] Abbreviation EXPECT_END :=
  (Custom.EXPECT_END loc concat_Token OnError).
#[local] Abbreviation section_data :=
  (Custom.section_data type loc text_text concat_Token OnError).
#[local] Abbreviation placement_clause :=
  (Custom.placement_clause type loc ToStringView concat_Token OnError).
#[local] Abbreviation section_order := (Custom.section_order loc ToStringView).
#[local] Abbreviation section_position :=
  (Custom.section_position type loc ToStringView).
#[local] Abbreviation ReadCustomAnnotation :=
  (Custom.ReadCustomAnnotation type loc ToStringView text_text concat_Token
     OnError).
#[local] Abbreviation placed_annotation :=
  (Custom.placed_annotation type loc ToStringView text_text).
#[local] Abbreviation skipped_annotation :=
  (Custom.skipped_annotation type text_text).
#[local] Abbreviation plain_annotation := (Custom.plain_annotation type).
#[local] Abbreviation is_text := (fun tok : Token => type tok = TT_Text).

Lemma bind_Some {A B} (m : Step A) (k : A -> Step B) (st st' : State) b :
  step_bind m k st = (Some b, st') <->
  exists a st1, m st = (Some a, st1) /\ k a st1 = (Some b, st').
Proof.
  unfold step_bind. destruct (m st) as [[a|] st1]; split.
  - intros E. now exists a, st1.
  - now intros (a' & st2 & [= <- <-] & E).
  - discriminate.
  - now intros (a' & st2 & [=] & _).
Qed.

Lemma EXPECT_NOT_END_Some (c : Cursor) (st st' : State) tok :
  EXPECT_NOT_END c st = (Some tok, st') <->
  (exists after, snd c = tok :: after) /\ st' = st.
Proof.
  unfold Custom.EXPECT_NOT_END. destruct (snd c) as [|t after]; split.
  - discriminate.
  - now intros [[after [=]] _].
  - intros [= <- <-]. split; [now exists after | reflexivity].
  - intros [[after' [= <- _]] ->]. reflexivity.
Qed.

Lemma EXPECT_TOK_Some (c : Cursor) type_ msg (st st' : State) tok :
  EXPECT_TOK c type_ msg st = (Some tok, st') <->
  (exists after, snd c = tok :: after) /\ type tok = type_ /\ st' = st.
Proof.
  unfold Custom.EXPECT_TOK. rewrite bind_Some. split.
  - intros (t & st1 & E1 & E2). apply EXPECT_NOT_END_Some in E1.
    destruct E1 as [Hafter ->].
    destruct (TokenType_eqb (type t) type_) eqn:Et; cbn [negb] in E2;
      [|discriminate].
    injection E2 as <- <-. apply TokenType_eqb_eq in Et. now repeat split.
  - intros (Hafter & Ht & ->). exists tok, st. split.
    + apply EXPECT_NOT_END_Some. now split.
    + apply TokenType_eqb_eq in Ht. now rewrite Ht.
Qed.

Lemma last_cons {A} (x : A) (l : list A) (d : A) :
  List.last (x :: l) d = List.last l x.
Proof.
  revert x d. induction l as [|y l IH]; intros x d; [reflexivity|].
  change (List.last (x :: y :: l) d) with (List.last (y :: l) d).
  now rewrite (IH y d), (IH y x).
Qed.

Lemma section_data_Some :
  forall after prev data (st st' : State) res,
    section_data prev after data st = (Some res, st') <->
    exists data_toks last,
      after = (data_toks ++ [last])%list
      /\ Forall is_text data_toks
      /\ res = ((data ++ map text_text data_toks)%list,
                (List.last data_toks prev, [last]))
      /\ st' = st.
Proof.
  induction after as [|tok after IH]; intros prev data st st' res.
  - cbn [Custom.section_data]. rewrite bind_Some. split.
    + intros (t & st1 & E & _). apply EXPECT_TOK_Some in E.
      now destruct E as [[after [=]] _].
    + intros (ds & last & E & _). now destruct ds.
  - destruct after as [|tok2 after].
    + cbn [Custom.section_data]. unfold step_ret. split.
      * intros [= <- <-]. exists [], tok. cbn. rewrite app_nil_r.
        repeat split. constructor.
      * intros (ds & last & E & _ & -> & ->).
        destruct ds as [|d ds]; [|destruct ds; discriminate].
        injection E as <-. cbn. now rewrite app_nil_r.
    + change (section_data prev (tok :: tok2 :: after) data st)
        with (step_bind (EXPECT_TOK (prev, tok :: tok2 :: after) TT_Text
                           "section data")
                (fun _ => section_data tok (tok2 :: after)
                            (data ++ [text_text tok])%list) st).
      rewrite bind_Some. split.
      * intros (t & st1 & E1 & E2). apply EXPECT_TOK_Some in E1.
        destruct E1 as ([after' [= <- _]] & Ht & ->).
        apply IH in E2. destruct E2 as (ds & last & E & Hall & -> & ->).
        exists (tok :: ds), last. cbn [app map]. rewrite E.
        rewrite <- app_assoc, last_cons. repeat split. now constructor.
      * intros (ds & last & E & Hall & -> & ->).
        destruct ds as [|d ds]; [discriminate|].
        injection E as <- E. inversion Hall as [|? ? Ht Hall']; subst.
        exists tok, st. split.
        -- apply EXPECT_TOK_Some.
           repeat split; [eexists; reflexivity | exact Ht].
        -- apply IH. exists ds, last. cbn [map].
           rewrite <- app_assoc, last_cons. repeat split; assumption.
Qed.

Lemma placement_clause_Some (c : Cursor) (st st' : State) order pos c' :
  placement_clause c st = (Some (order, pos, c'), st') <->
  exists lpar order_tok pos_tok after,
    snd c = lpar :: order_tok :: pos_tok :: after
    /\ type order_tok = TT_Reserved
    /\ section_order order_tok = Some order
    /\ section_position pos_tok = Some pos
    /\ c' = (order_tok, pos_tok :: after)
    /\ st' = st.
Proof.
  unfold Custom.placement_clause. cbv zeta. rewrite bind_Some. split.
  - intros (ot & st1 & E1 & E2). apply EXPECT_TOK_Some in E1.
    destruct E1 as ([r3 Hr3] & Hot & ->).
    apply bind_Some in E2. destruct E2 as (o & st2 & Eo & E2).
    destruct (section_order ot) as [o'|] eqn:Hord; [|discriminate].
    injection Eo as <- <-.
    apply bind_Some in E2. destruct E2 as (pt & st3 & E3 & E2).
    apply EXPECT_NOT_END_Some in E3. destruct E3 as ([r4 Hr4] & ->).
    apply bind_Some in E2. destruct E2 as (p & st4 & Ep & E2).
    destruct (section_position pt) as [p'|] eqn:Hpos; [|discriminate].
    injection Ep as <- <-. injection E2 as <- <- <- <-.
    destruct c as [prev [|lpar after]]; [discriminate Hr3|].
    cbn in Hr3. subst after. cbn in Hr4. subst r3.
    exists lpar, ot, pt, r4. repeat split; assumption.
  - intros (lpar & ot & pt & r4 & Hc & Hot & Hord & Hpos & -> & ->).
    destruct c as [prev after]. cbn in Hc. subst after.
    exists ot, st. split.
    + apply EXPECT_TOK_Some. repeat split; [eexists; reflexivity | exact Hot].
    + apply bind_Some. exists order, st. rewrite Hord. split; [reflexivity|].
      apply bind_Some. exists pt, st. split.
      * apply EXPECT_NOT_END_Some. split; [eexists|]; reflexivity.
      * apply bind_Some. exists pos, st. rewrite Hpos. split; reflexivity.
Qed.

Lemma EXPECT_END_Some (c : Cursor) (st st' : State) :
  EXPECT_END c st = (Some tt, st') <-> snd c = [] /\ st' = st.
Proof.
  unfold Custom.EXPECT_END. destruct (snd c); split.
  - now intros [= <-].
  - now intros [_ ->].
  - discriminate.
  - now intros [[=] _].
Qed.

(** What is left to do once the placement is known, with [tok_it] at the
    last token of the placement. *)
Lemma after_placement_Some name order pos (c : Cursor) (st st' : State) :
  (let c := advance c in
   step_bind (EXPECT_TOK c TT_Rpar "location clause end")
     (fun _ =>
        let c := advance c in
        step_bind (EXPECT_NOT_END c)
          (fun _ =>
             step_bind (section_data (fst c) (snd c) [])
               (fun read =>
                  let '(data, c) := read in
                  step_bind
                    (emplace_back (mkCustomAnnotation name data order pos))
                    (fun _ =>
                       step_bind
                         (EXPECT_TOK c TT_Rpar "right parenthesis")
                         (fun _ => let c := advance c in EXPECT_END c))))))
    st
  = (Some tt, st') <->
  exists at_ rpar data_toks last,
    snd c = (at_ :: rpar :: data_toks ++ [last])%list
    /\ type rpar = TT_Rpar
    /\ Forall is_text data_toks
    /\ type last = TT_Rpar
    /\ st' = ((fst st
                ++ [mkCustomAnnotation name (map text_text data_toks)
                      order pos])%list, snd st).
Proof.
  cbv zeta. rewrite bind_Some. split.
  - intros (rp & st1 & E1 & E2). apply EXPECT_TOK_Some in E1.
    destruct E1 as ([r5 Hr5] & Hrp & ->).
    apply bind_Some in E2. destruct E2 as (t & st2 & E2 & E3).
    apply EXPECT_NOT_END_Some in E2. destruct E2 as (_ & ->).
    apply bind_Some in E3. destruct E3 as ([data c5] & st3 & E3 & E4).
    apply section_data_Some in E3.
    destruct E3 as (ds & last & Hds & Hall & [= -> ->] & ->).
    apply bind_Some in E4. destruct E4 as ([] & st4 & E4 & E5).
    injection E4 as <-.
    apply bind_Some in E5. destruct E5 as (t5 & st5 & E5 & E6).
    apply EXPECT_TOK_Some in E5. destruct E5 as ([a5 [= <- <-]] & Hlast & ->).
    apply EXPECT_END_Some in E6. destruct E6 as [_ ->].
    destruct c as [prev [|at_ after]]; [discriminate Hr5|].
    cbn in Hr5. subst after. cbn in Hds. subst r5.
    exists at_, rp, ds, last. repeat split; assumption.
  - intros (at_ & rp & ds & last & Hc & Hrp & Hall & Hlast & ->).
    destruct c as [prev after]. cbn in Hc. subst after.
    exists rp, st. split.
    + apply EXPECT_TOK_Some. repeat split; [eexists; reflexivity | exact Hrp].
    + apply bind_Some. exists (List.hd last ds), st. split.
      * apply EXPECT_NOT_END_Some. split; [|reflexivity].
        destruct ds; eexists; reflexivity.
      * apply bind_Some. eexists (_, _), st. split.
        -- apply section_data_Some. exists ds, last.
           repeat split. exact Hall.
        -- apply bind_Some. eexists tt, _. split; [reflexivity|].
           apply bind_Some. exists last. eexists. split.
           ++ apply EXPECT_TOK_Some.
              repeat split; [eexists; reflexivity | exact Hlast].
           ++ apply EXPECT_END_Some. split; reflexivity.
Qed.

Lemma ReadCustomAnnotation_Some front rest (st st' : State) :
  ReadCustomAnnotation front rest st = (Some tt, st') <->
  exists a,
    (placed_annotation rest a \/ skipped_annotation rest a)
    /\ st' = ((fst st ++ [a])%list, snd st).
Proof.
  unfold Custom.ReadCustomAnnotation. cbv zeta. rewrite bind_Some. split.
  - intros (nt & st1 & E1 & E2). apply EXPECT_TOK_Some in E1.
    destruct E1 as ([r1 Hr1] & Hnt & ->). cbn in Hr1. subst rest.
    apply bind_Some in E2. destruct E2 as (t2 & st2 & E2 & E3).
    apply EXPECT_NOT_END_Some in E2. destruct E2 as ([r2 Hr2] & ->).
    cbn in Hr2. subst r1.
    apply bind_Some in E3. destruct E3 as ([[order pos] c] & st3 & E3 & E4).
    apply after_placement_Some in E4.
    destruct E4 as (at_ & rp & ds & last & Hc & Hrp & Hall & Hlast & ->).
    destruct (TokenType_eqb (type t2) TT_Lpar) eqn:Hl.
    + apply placement_clause_Some in E3.
      destruct E3 as (lpar & ot & pt & r4 & Hr & Hot & Hord & Hpos & -> & ->).
      cbn in Hr. injection Hr as <- ->. cbn in Hc. injection Hc as <- ->.
      apply TokenType_eqb_eq in Hl.
      eexists (mkCustomAnnotation _ _ _ _). split; [|reflexivity].
      left. exists nt, t2, ot, pt, rp, ds, last. cbn.
      repeat split; assumption.
    + injection E3 as <- <- <- <-. cbn in Hc. injection Hc as <- ->.
      apply TokenType_eqb_neq in Hl.
      eexists (mkCustomAnnotation _ _ _ _). split; [|reflexivity].
      right. exists nt, t2, rp, ds, last. cbn.
      repeat split; assumption.
  - intros ([name data order pos] & [Hplaced | Hskipped] & ->).
    + destruct Hplaced as
        (nt & lpar & ot & pt & rp & ds & last & -> & Hnt & Hlpar & Hot & Hrp
         & Hall & Hlast & Hord & Hpos & Hname & Hdata).
      cbn in Hord, Hpos, Hname, Hdata. subst name data.
      exists nt, st. split.
      * apply EXPECT_TOK_Some.
        repeat split; [eexists; reflexivity | exact Hnt].
      * apply bind_Some. exists lpar, st. split.
        -- apply EXPECT_NOT_END_Some. split; [eexists|]; reflexivity.
        -- apply bind_Some. eexists (order, pos, _), st. split.
           ++ apply TokenType_eqb_eq in Hlpar. rewrite Hlpar.
              apply placement_clause_Some.
              exists lpar, ot, pt, (rp :: ds ++ [last])%list.
              repeat split; assumption.
           ++ apply after_placement_Some. exists pt, rp, ds, last.
              repeat split; assumption.
    + destruct Hskipped as
        (nt & x & rp & ds & last & -> & Hnt & Hx & Hrp & Hall & Hlast
         & Hord & Hpos & Hname & Hdata).
      cbn in Hord, Hpos, Hname, Hdata. subst name data order pos.
      exists nt, st. split.
      * apply EXPECT_TOK_Some.
        repeat split; [eexists; reflexivity | exact Hnt].
      * apply bind_Some. exists x, st. split.
        -- apply EXPECT_NOT_END_Some. split; [eexists|]; reflexivity.
        -- apply bind_Some. eexists (After, PosLast, _), st. split.
           ++ apply TokenType_eqb_neq in Hx. rewrite Hx. reflexivity.
           ++ apply after_placement_Some. exists x, rp, ds, last.
              repeat split; assumption.
Qed.

(** X18.  The annotations the loop of [ExtractCustomAnnotations] takes:
    behind the first token, a text token (the name), then either a
    placement, made of a [(], a reserved token that reads "after" or
    "before", a position token and a [)], or one token that is not a [(]
    followed by a [)]; then any number of text tokens (the data) and a [)]
    as the last token.  For exactly these the body of the loop runs to its
    end: it appends one annotation to the result, with the name, the data
    in order and the placement read (after the last section when there was
    none), and reports no error. *)
Theorem custom_annotation_grammar :
  forall (front : Token) (rest : list Token) (st st' : State),
    ReadCustomAnnotation front rest st = (Some tt, st') <->
    exists a,
      (placed_annotation rest a \/ skipped_annotation rest a)
      /\ st' = ((fst st ++ [a])%list, snd st).
Proof. exact ReadCustomAnnotation_Some. Qed.

Lemma plain_rejected front rest (st : State) :
  plain_annotation rest ->
  exists l message,
    ReadCustomAnnotation front rest st
    = (None, (fst st, OnError l message (snd st))).
Proof.
  intros (nt & ds & last & -> & Hnt & Hall & Hlast).
  unfold Custom.ReadCustomAnnotation, Custom.EXPECT_TOK,
    Custom.EXPECT_NOT_END, step_bind, step_ret, step_error, advance.
  destruct ds as [|d1 [|d2 ds]]; cbn [app fst snd].
  - repeat (first [rewrite Hnt | rewrite Hlast]; cbn).
    eexists _, _. reflexivity.
  - inversion Hall as [|? ? Hd1 _]; subst.
    repeat (first [rewrite Hnt | rewrite Hd1 | rewrite Hlast]; cbn).
    eexists _, _. reflexivity.
  - inversion Hall as [|? ? Hd1 Hall']; subst.
    inversion Hall' as [|? ? Hd2 _]; subst.
    repeat (first [rewrite Hnt | rewrite Hd1 | rewrite Hd2]; cbn).
    eexists _, _. reflexivity.
Qed.

(** X19.  An annotation without a placement, [(@custom "name" "data"* )], is
    never taken: whatever its name and data, the body of the loop reports
    one error and returns before it has appended anything; and a loop over
    annotations one of which has this shape never runs to its end, where
    the annotations would be erased. *)
Theorem plain_custom_annotation_rejected :
  (forall (front : Token) (rest : list Token) (st : State),
      plain_annotation rest ->
      exists l message,
        ReadCustomAnnotation front rest st
        = (None, (fst st, OnError l message (snd st))))
  /\ (forall (customs : list (Token * list Token)) (st : State),
         Exists (fun ann => plain_annotation (snd ann)) customs ->
         fst (ExtractCustomAnnotations_loop type loc ToStringView text_text
                concat_Token OnError customs st) = false).
Proof.
  split; [exact plain_rejected|].
  intros customs st Hplain. revert st.
  induction Hplain as [[front rest] customs Hrest | [front rest] customs _ IH];
    intros st; cbn [Custom.ExtractCustomAnnotations_loop].
  - destruct (plain_rejected front rest st Hrest) as (l & msg & ->).
    reflexivity.
  - destruct (ReadCustomAnnotation front rest st) as [[[]|] st1];
      [apply IH | reflexivity].
Qed.

End Facts.

(** [(@custom "producers" "data")] and [(@custom "x" (after code) "data")],
    behind their first token. *)
Example custom_annotation_examples :
  ExampleRead (TT_LparAnn, "(@custom")
    [(TT_Text, "producers"); (TT_Text, "data"); (TT_Rpar, ")")] ([], [])
  = (None, ([], [(")", "Unexpected end of annotation")]))
  /\ ExampleRead (TT_LparAnn, "(@custom")
       [(TT_Text, "x"); (TT_Text, "d1"); (TT_Text, "d2"); (TT_Rpar, ")")]
       ([], [])
     = (None,
        ([], [("d2", "Expected location clause end. Found token: d2")]))
  /\ ExampleRead (TT_LparAnn, "(@custom")
       [(TT_Text, "x"); (TT_Lpar, "("); (TT_Reserved, "after");
        (TT_Reserved, "code"); (TT_Rpar, ")"); (TT_Text, "data");
        (TT_Rpar, ")")] ([], [])
     = (Some tt, ([mkCustomAnnotation "x" ["data"] After PosCode], []))
  /\ ExampleLoop
       [((TT_LparAnn, "(@custom"),
         [(TT_Text, "x"); (TT_Lpar, "("); (TT_Reserved, "before");
          (TT_Reserved, "first"); (TT_Rpar, ")"); (TT_Rpar, ")")]);
        ((TT_LparAnn, "(@custom"), [(TT_Text, "y"); (TT_Rpar, ")")])]
       ([], [])
     = (false,
        ([mkCustomAnnotation "x" [] Before PosFirst],
         [(")", "Unexpected end of annotation")])).
Proof. repeat split. Qed.

(** X20.  [OrderAnnotation] on two spans that are not empty: the answer is
    [Inside] exactly when some byte belongs to both, [After] exactly when
    the element ends where the annotation begins or before, and exchanging
    the two spans exchanges [Before] and [After]. *)
Theorem OrderAnnotation_exchange (elem annot : Located) :
  bytes elem <> [] -> bytes annot <> [] ->
  (OrderAnnotation elem annot = AO_Inside
   <-> exists p, covers elem p /\ covers annot p)
  /\ (OrderAnnotation elem annot = AO_After
      <-> (end_ elem <= begin_ annot)%Z)
  /\ OrderAnnotation annot elem = exchanged (OrderAnnotation elem annot).
Proof.
  intros He Ha.
  assert (Hse : (0 < size (bytes elem))%Z)
    by (unfold size; destruct (bytes elem); [contradiction | cbn; lia]).
  assert (Hsa : (0 < size (bytes annot))%Z)
    by (unfold size; destruct (bytes annot); [contradiction | cbn; lia]).
  unfold OrderAnnotation, covers, end_ in *.
  destruct (Z.leb_spec (begin_ elem + size (bytes elem)) (begin_ annot));
    destruct (Z.leb_spec (begin_ annot + size (bytes annot)) (begin_ elem));
    cbn [exchanged]; (split; [|split]);
    try reflexivity; try lia;
    try (split; [discriminate | intros (p & Hp1 & Hp2); lia]);
    try (split; [reflexivity | lia]);
    try (split; [discriminate | lia]);
    try (split; [lia | reflexivity]).
  split; [intros _ | reflexivity].
  exists (Z.max (begin_ elem) (begin_ annot)). lia.
Qed.

Lemma OrderAnnotation_exchange_witness :
  OrderAnnotation (mkLocated 10 [x01; x02]) (mkLocated 11 [x03; x04])
  = AO_Inside
  /\ OrderAnnotation (mkLocated 11 [x03; x04]) (mkLocated 10 [x01; x02])
     = exchanged
         (OrderAnnotation (mkLocated 10 [x01; x02]) (mkLocated 11 [x03; x04])).
Proof.
  split; [reflexivity|].
  refine (proj2 (proj2 (OrderAnnotation_exchange (mkLocated 10 [x01; x02])
                          (mkLocated 11 [x03; x04]) _ _))); discriminate.
Defined.

(** Two empty spans at the same place are each [After] the other. *)
Example OrderAnnotation_empty :
  OrderAnnotation (mkLocated 10 []) (mkLocated 10 []) = AO_After
  /\ OrderAnnotation (mkLocated 10 [x01]) (mkLocated 10 []) = AO_Before
  /\ OrderAnnotation (mkLocated 10 []) (mkLocated 10 [x01]) = AO_After.
Proof. repeat split. Qed.

End CustomFacts.
